(** * core-js-101, [src/06-objects-tasks.js]

    A shallow embedding of the four exports of the module ([Rectangle],
    [getJSON], [fromJSON], [cssSelectorBuilder]) and the properties of the
    specification that hold, or fail, on them.

    The selector builder works by prototype chaining: every builder call
    allocates an object whose prototype is the receiver, and the class,
    attribute and pseudo-class sequences are JavaScript arrays found through
    that chain.  The embedding therefore keeps an explicit heap of objects
    and arrays, property lookup that walks the prototype chain, and
    references, so that two selectors that share an array do so in the model
    as well. *)

From stdpp Require Import gmap strings list pretty.
From Stdlib Require Import Floats.

Local Open Scope string_scope.
Local Open Scope list_scope.
Local Open Scope nat_scope.

(** ** Values, cells and the heap *)

Abbreviation loc := nat.

(** The eight methods of [class CssSelectorBuilder], as function values. *)
Inductive fn :=
| Felement | Fid | Fclass | Fattr | FpseudoClass | FpseudoElement
| Fcombine | Fstringify.

Inductive value :=
| VUndef
| VStr (s : string)
| VRef (l : loc)
| VFun (f : fn).

(** A heap cell is an object (its prototype, [None] standing for
    [Object.prototype], and its own properties) or an array of strings. *)
Inductive cell :=
| CObj (proto : option loc) (props : gmap string value)
| CArr (elems : list string).

Abbreviation heap := (list cell).

#[global] Instance fn_eq_dec : EqDecision fn.
Proof. solve_decision. Defined.
#[global] Instance value_eq_dec : EqDecision value.
Proof. solve_decision. Defined.
#[global] Instance cell_eq_dec : EqDecision cell.
Proof. solve_decision. Defined.

(** Exceptions: [new Error(message)], and the two kinds that the runtime
    throws by itself here. *)
Inductive exn :=
| Error (message : string)
| TypeError
| SyntaxError.

(** Outcome of a piece of code: a result, a thrown exception, or a step that
    lies outside the modelled fragment of JavaScript (a string operation
    applied to an object or a function, which no heap built by the builder
    ever requires, see [stringify_total]). *)
Inductive outcome (A : Type) :=
| Ok (a : A)
| Throw (e : exn)
| Outside.
Arguments Ok {A} a.
Arguments Throw {A} e.
Arguments Outside {A}.

Definition obind {A B} (x : outcome A) (f : A -> outcome B) : outcome B :=
  match x with
  | Ok a => f a
  | Throw e => Throw e
  | Outside => Outside
  end.

Definition is_ok {A} (x : outcome A) : bool :=
  match x with
  | Ok _ => true
  | _ => false
  end.

(** Heap-passing computations. *)
Definition M (A : Type) := heap -> outcome (A * heap).

Definition ret {A} (a : A) : M A := fun h => Ok (a, h).
Definition bind {A B} (x : M A) (f : A -> M B) : M B :=
  fun h => match x h with
           | Ok (a, h') => f a h'
           | Throw e => Throw e
           | Outside => Outside
           end.
Definition throw {A} (e : exn) : M A := fun _ => Throw e.
Definition outside {A} : M A := fun _ => Outside.
Definition gets {A} (f : heap -> A) : M A := fun h => Ok (f h, h).
Definition lift {A} (f : heap -> outcome A) : M A :=
  fun h => obind (f h) (fun a => Ok (a, h)).

Declare Scope js_scope.
Delimit Scope js_scope with js.
Notation "x <- c1 ;; c2" := (bind c1 (fun x => c2))
  (at level 100, c1 at next level, right associativity) : js_scope.
Notation "c1 ;;; c2" := (bind c1 (fun _ => c2))
  (at level 100, right associativity) : js_scope.
Notation "x <~ c1 ;; c2" := (obind c1 (fun x => c2))
  (at level 100, c1 at next level, right associativity) : js_scope.

(** JavaScript truthiness: [undefined] and the empty string are falsy,
    objects, arrays (also empty ones) and functions are truthy. *)
Definition truthy (v : value) : bool :=
  match v with
  | VUndef => false
  | VStr EmptyString => false
  | VStr (String _ _) => true
  | VRef _ => true
  | VFun _ => true
  end.

(** Property read [o.k]: the own property if there is one, else the
    prototype's, up the chain.  A prototype is always allocated before the
    objects that inherit from it, so a chain that starts at [l] has at most
    [S l] links; [lookup_chain_fuel] shows that this fuel is enough. *)
Fixpoint lookup_chain (fuel : nat) (h : heap) (l : loc) (k : string) : value :=
  match fuel with
  | O => VUndef
  | S fuel' =>
      match h !! l with
      | Some (CObj proto props) =>
          match props !! k with
          | Some v => v
          | None =>
              match proto with
              | Some p => lookup_chain fuel' h p k
              | None => VUndef
              end
          end
      | _ => VUndef
      end
  end.

Definition get (h : heap) (l : loc) (k : string) : value :=
  lookup_chain (S l) h l k.

(** Allocation at the next free location. *)
Definition alloc (c : cell) : M loc := fun h => Ok (length h, h ++ [c]).

(** Property write [o.k = v], creating or replacing the own property [k]. *)
Definition set_own (l : loc) (k : string) (v : value) : M unit := fun h =>
  match h !! l with
  | Some (CObj proto props) => Ok (tt, <[l := CObj proto (<[k := v]> props)]> h)
  | _ => Outside
  end.

(** [Object.create(v)]: a [TypeError] unless [v] is an object. *)
Definition Object_create (v : value) : M loc :=
  match v with
  | VRef p => alloc (CObj (Some p) ∅)
  | VUndef | VStr _ => throw TypeError
  | VFun _ => outside
  end.

(** [a.push(x)] on an array reference. *)
Definition Array_push (v : value) (x : string) : M unit := fun h =>
  match v with
  | VRef a =>
      match h !! a with
      | Some (CArr xs) => Ok (tt, <[a := CArr (xs ++ [x])]> h)
      | _ => Outside
      end
  | _ => Outside
  end.

(** The guard [this.k && this.k.length] of [stringify], giving the array to
    iterate over when it passes. *)
Definition nonempty_array (h : heap) (v : value) : outcome (option (list string)) :=
  match v with
  | VUndef => Ok None
  | VStr EmptyString => Ok None
  | VRef a =>
      match h !! a with
      | Some (CArr []) => Ok None
      | Some (CArr xs) => Ok (Some xs)
      | _ => Outside
      end
  | _ => Outside
  end.

(** [s.concat(v)] for a string [s]. *)
Definition concat (s : string) (v : value) : outcome string :=
  match v with
  | VStr t => Ok (s +:+ t)
  | VUndef => Ok (s +:+ "undefined")
  | _ => Outside
  end.

(** The double quote character, for string constants such as
    [href$=".png"] and for JSON texts. *)
Definition dquote : string := String (Ascii.ascii_of_nat 34) EmptyString.

(** ** The selector builder *)

Module CssSelectorBuilder.

Definition duplicate_message : string :=
  "Element, id and pseudo-element should not occur more then one time inside the selector".
Definition order_message : string :=
  "Selector parts should be arranged in the following order: element, id, class, attribute, pseudo-class, pseudo-element".

Definition DuplicateError : exn := Error duplicate_message.
Definition OrderError : exn := Error order_message.

Definition element (this : loc) (value : string) : M loc := fun h =>
  if truthy (get h this "el") then Throw DuplicateError
  else if truthy (get h this "elID") || truthy (get h this "elAttrs")
          || truthy (get h this "elClass") || truthy (get h this "elPseudoClass")
          || truthy (get h this "elPseudoElement")
  then Throw OrderError
  else (obj <- Object_create (get h this "prot") ;;
        set_own obj "el" (VStr value) ;;;
        ret obj)%js h.

Definition id (this : loc) (value : string) : M loc := fun h =>
  if truthy (get h this "elID") then Throw DuplicateError
  else if truthy (get h this "elAttrs") || truthy (get h this "elClass")
          || truthy (get h this "elPseudoClass")
          || truthy (get h this "elPseudoElement")
  then Throw OrderError
  else (obj <- Object_create (VRef this) ;;
        set_own obj "elID" (VStr value) ;;;
        ret obj)%js h.

(** The body shared by [class], [attr] and [pseudoClass] after their guard:
    [const obj = Object.create(this); if (obj.k) obj.k.push(value);
    else obj.k = [value]; return obj].  [obj.k] is read through the
    prototype chain, so the array pushed to is the receiver's. *)
Definition push_or_create (this : loc) (k : string) (value : string) : M loc :=
  (obj <- Object_create (VRef this) ;;
   cur <- gets (fun h => get h obj k) ;;
   (if truthy cur then Array_push cur value
    else (a <- alloc (CArr [value]) ;; set_own obj k (VRef a))) ;;;
   ret obj)%js.

Definition class (this : loc) (value : string) : M loc := fun h =>
  if truthy (get h this "elAttrs") || truthy (get h this "elPseudoClass")
     || truthy (get h this "elPseudoElement")
  then Throw OrderError
  else push_or_create this "elClass" value h.

Definition attr (this : loc) (value : string) : M loc := fun h =>
  if truthy (get h this "elPseudoClass") || truthy (get h this "elPseudoElement")
  then Throw OrderError
  else push_or_create this "elAttrs" value h.

Definition pseudoClass (this : loc) (value : string) : M loc := fun h =>
  if truthy (get h this "elPseudoElement") then Throw OrderError
  else push_or_create this "elPseudoClass" value h.

Definition pseudoElement (this : loc) (value : string) : M loc := fun h =>
  if truthy (get h this "elPseudoElement") then Throw DuplicateError
  else (obj <- Object_create (VRef this) ;;
        set_own obj "elPseudoElement" (VStr value) ;;;
        ret obj)%js h.

(** [xs.forEach((s) => { resultStr = resultStr.concat(sep).concat(s); })]. *)
Definition forEach_concat (sep : string) (xs : list string) (resultStr : string) : string :=
  fold_left (fun acc s => (acc +:+ sep) +:+ s) xs resultStr.

Definition stringify (this : loc) (h : heap) : outcome string :=
  let resultStr := "" in
  if truthy (get h this "combined") then
    match get h this "combined" with
    | VStr s => Ok s
    | _ => Outside
    end
  else
    (resultStr <~ (if truthy (get h this "el")
                   then concat resultStr (get h this "el")
                   else Ok resultStr) ;;
     resultStr <~ (if truthy (get h this "elID")
                   then concat (resultStr +:+ "#") (get h this "elID")
                   else Ok resultStr) ;;
     elClass <~ nonempty_array h (get h this "elClass") ;;
     let resultStr := match elClass with
                      | Some xs => forEach_concat "." xs resultStr
                      | None => resultStr
                      end in
     elAttrs <~ nonempty_array h (get h this "elAttrs") ;;
     let resultStr := match elAttrs with
                      | Some xs => ((resultStr +:+ "[") +:+ hd "undefined" xs) +:+ "]"
                      | None => resultStr
                      end in
     elPseudoClass <~ nonempty_array h (get h this "elPseudoClass") ;;
     let resultStr := match elPseudoClass with
                      | Some xs => forEach_concat ":" xs resultStr
                      | None => resultStr
                      end in
     if truthy (get h this "elPseudoElement")
     then concat (resultStr +:+ "::") (get h this "elPseudoElement")
     else Ok resultStr)%js.

(** Method calls [o.name(...)]: the property is looked up on the receiver
    and must hold a function. *)
Definition call_stringify (o : loc) (h : heap) : outcome string :=
  match get h o "stringify" with
  | VFun Fstringify => stringify o h
  | VFun _ => Outside
  | _ => Throw TypeError
  end.

Definition combine (this : loc) (selectors1 : loc) (combinator : string)
    (selectors2 : loc) : M loc :=
  (let comb := (" " +:+ combinator) +:+ " " in
   s1 <- lift (call_stringify selectors1) ;;
   s2 <- lift (call_stringify selectors2) ;;
   let combined := (s1 +:+ comb) +:+ s2 in
   own_stringify <- gets (fun h => get h this "stringify") ;;
   alloc (CObj None
            (<["combined" := VStr combined]>
               (<["selectors1" := VRef selectors1]>
                  (<["selectors2" := VRef selectors2]>
                     (<["stringify" := own_stringify]> ∅))))))%js.

Definition call (o : loc) (name : string) (value : string) : M loc := fun h =>
  match get h o name with
  | VFun Felement => element o value h
  | VFun Fid => id o value h
  | VFun Fclass => class o value h
  | VFun Fattr => attr o value h
  | VFun FpseudoClass => pseudoClass o value h
  | VFun FpseudoElement => pseudoElement o value h
  | VFun Fcombine | VFun Fstringify => Outside
  | _ => Throw TypeError
  end.

Definition call_combine (o : loc) (selectors1 : loc) (combinator : string)
    (selectors2 : loc) : M loc := fun h =>
  match get h o "combine" with
  | VFun Fcombine => combine o selectors1 combinator selectors2 h
  | VFun _ => Outside
  | _ => Throw TypeError
  end.

(** [CssSelectorBuilder.prototype], the object that holds the methods. *)
Definition prototype : loc := 0.
Definition prototype_cell : cell :=
  CObj None
    (<["element" := VFun Felement]>
       (<["id" := VFun Fid]>
          (<["class" := VFun Fclass]>
             (<["attr" := VFun Fattr]>
                (<["pseudoClass" := VFun FpseudoClass]>
                   (<["pseudoElement" := VFun FpseudoElement]>
                      (<["combine" := VFun Fcombine]>
                         (<["stringify" := VFun Fstringify]> ∅)))))))).

(** The constructor: [this.prot = { el: this.el, ..., stringify: this.stringify }]. *)
Definition prot_keys : list string :=
  ["el"; "elID"; "elClass"; "elAttrs"; "elPseudoClass"; "elPseudoElement";
   "element"; "id"; "class"; "attr"; "pseudoClass"; "pseudoElement";
   "combine"; "stringify"].

Definition constructor (this : loc) : M unit :=
  (literal <- gets (fun h =>
     CObj None (list_to_map (map (fun k => (k, get h this k)) prot_keys))) ;;
   prot <- alloc literal ;;
   set_own this "prot" (VRef prot))%js.

(** [new CssSelectorBuilder()]. *)
Definition new : M loc :=
  (this <- alloc (CObj (Some prototype) ∅) ;;
   constructor this ;;;
   ret this)%js.

(** [const cssSelectorBuilder = new CssSelectorBuilder();], run when the
    module is loaded, on the heap that holds the class. *)
Definition module_load : outcome (loc * heap) := new [prototype_cell].

Definition cssSelectorBuilder : loc := 1.
Definition initial_heap : heap :=
  match module_load with
  | Ok (_, h) => h
  | _ => []
  end.

(** The three cells of [initial_heap] ([initial_heap_eq]): the class
    prototype, the builder with its one own property, and the literal. *)
Definition builder_cell : cell :=
  CObj (Some prototype) (<["prot" := VRef 2]> ∅).
Definition prot_cell : cell :=
  CObj None
    (list_to_map
       [("el", VUndef); ("elID", VUndef); ("elClass", VUndef);
        ("elAttrs", VUndef); ("elPseudoClass", VUndef);
        ("elPseudoElement", VUndef);
        ("element", VFun Felement); ("id", VFun Fid); ("class", VFun Fclass);
        ("attr", VFun Fattr); ("pseudoClass", VFun FpseudoClass);
        ("pseudoElement", VFun FpseudoElement); ("combine", VFun Fcombine);
        ("stringify", VFun Fstringify)]).

(** *** The fields of a selector, read from the heap

    What the specification calls a Selector value: each field as the
    object sees it through its prototype chain, [None] for a field that
    reads [undefined]. *)
Record selector := {
  sel_element : option string;
  sel_id : option string;
  sel_classes : option (list string);
  sel_attributes : option (list string);
  sel_pseudoClasses : option (list string);
  sel_pseudoElement : option string;
}.

Definition string_field (v : value) : option (option string) :=
  match v with
  | VUndef => Some None
  | VStr s => Some (Some s)
  | _ => None
  end.

Definition array_field (h : heap) (v : value) : option (option (list string)) :=
  match v with
  | VUndef => Some None
  | VRef a =>
      match h !! a with
      | Some (CArr xs) => Some (Some xs)
      | _ => None
      end
  | _ => None
  end.

(** [fields_of h o] is defined for the simple selectors of [h]: objects with
    no [combined] property whose fields hold strings and arrays. *)
Definition fields_of (h : heap) (o : loc) : option selector :=
  match get h o "combined" with
  | VUndef =>
      e ← string_field (get h o "el");
      i ← string_field (get h o "elID");
      cs ← array_field h (get h o "elClass");
      ats ← array_field h (get h o "elAttrs");
      pcs ← array_field h (get h o "elPseudoClass");
      pe ← string_field (get h o "elPseudoElement");
      Some {| sel_element := e; sel_id := i; sel_classes := cs;
              sel_attributes := ats; sel_pseudoClasses := pcs;
              sel_pseudoElement := pe |}
  | _ => None
  end.

(** A string field that the guards of the code see: set, and not empty. *)
Definition filled (field : option string) : bool :=
  match field with
  | Some (String _ _) => true
  | _ => false
  end.

Definition is_set {A} (field : option A) : bool :=
  match field with
  | Some _ => true
  | None => false
  end.

(** The pieces of the stringified form. *)
Definition prefixed (prefix : string) (field : option string) : string :=
  match field with
  | Some v => prefix +:+ v
  | None => ""
  end.

Definition each_prefixed (prefix : string) (field : option (list string)) : string :=
  match field with
  | Some xs => String.concat "" (map (fun s => prefix +:+ s) xs)
  | None => ""
  end.

Definition first_bracketed (field : option (list string)) : string :=
  match field with
  | Some (x :: _) => "[" +:+ x +:+ "]"
  | _ => ""
  end.

(** The stringified form in the words of the specification: every field
    that is set contributes, in the fixed order. *)
Definition stringify_as_specified (s : selector) : string :=
  prefixed "" (sel_element s) +:+ prefixed "#" (sel_id s)
  +:+ each_prefixed "." (sel_classes s) +:+ first_bracketed (sel_attributes s)
  +:+ each_prefixed ":" (sel_pseudoClasses s)
  +:+ prefixed "::" (sel_pseudoElement s).

(** The same with the code's test for the three string fields: a field set
    to the empty string contributes nothing, not even its prefix. *)
Definition nonempty (field : option string) : option string :=
  if filled field then field else None.

Definition stringify_fields (s : selector) : string :=
  prefixed "" (nonempty (sel_element s)) +:+ prefixed "#" (nonempty (sel_id s))
  +:+ each_prefixed "." (sel_classes s) +:+ first_bracketed (sel_attributes s)
  +:+ each_prefixed ":" (sel_pseudoClasses s)
  +:+ prefixed "::" (nonempty (sel_pseudoElement s)).

(** "A later-order field is set", for the receiver of each method, with the
    code's test ([filled]) for the string fields. *)
Definition later_than_element (s : selector) : bool :=
  filled (sel_id s) || is_set (sel_classes s) || is_set (sel_attributes s)
  || is_set (sel_pseudoClasses s) || filled (sel_pseudoElement s).
Definition later_than_id (s : selector) : bool :=
  is_set (sel_classes s) || is_set (sel_attributes s)
  || is_set (sel_pseudoClasses s) || filled (sel_pseudoElement s).
Definition later_than_class (s : selector) : bool :=
  is_set (sel_attributes s) || is_set (sel_pseudoClasses s)
  || filled (sel_pseudoElement s).
Definition later_than_attr (s : selector) : bool :=
  is_set (sel_pseudoClasses s) || filled (sel_pseudoElement s).
Definition later_than_pseudoClass (s : selector) : bool :=
  filled (sel_pseudoElement s).

(** The fields after [class], [attr] or [pseudoClass] has added [v]: the
    sequence is created if absent, and [v] goes at its end. *)
Definition append_field (field : option (list string)) (v : string)
    : option (list string) :=
  Some (default [] field ++ [v]).

Definition pushed (k : string) (v : string) (s : selector) : selector :=
  if decide (k = "elClass") then
    {| sel_element := sel_element s; sel_id := sel_id s;
       sel_classes := append_field (sel_classes s) v;
       sel_attributes := sel_attributes s;
       sel_pseudoClasses := sel_pseudoClasses s;
       sel_pseudoElement := sel_pseudoElement s |}
  else if decide (k = "elAttrs") then
    {| sel_element := sel_element s; sel_id := sel_id s;
       sel_classes := sel_classes s;
       sel_attributes := append_field (sel_attributes s) v;
       sel_pseudoClasses := sel_pseudoClasses s;
       sel_pseudoElement := sel_pseudoElement s |}
  else if decide (k = "elPseudoClass") then
    {| sel_element := sel_element s; sel_id := sel_id s;
       sel_classes := sel_classes s;
       sel_attributes := sel_attributes s;
       sel_pseudoClasses := append_field (sel_pseudoClasses s) v;
       sel_pseudoElement := sel_pseudoElement s |}
  else s.

(** *** Heaps and selector values that a program can reach

    From the freshly loaded module, by builder calls and [combine] on
    values obtained so far.  A call that throws leaves no value behind and
    the heap it started from is kept. *)
Inductive reachable : heap -> list loc -> Prop :=
| reachable_load : reachable initial_heap [cssSelectorBuilder]
| reachable_call h vals o name value o' h' :
    reachable h vals ->
    o ∈ vals ->
    call o name value h = Ok (o', h') ->
    reachable h' (o' :: vals)
| reachable_combine h vals o s1 combinator s2 o' h' :
    reachable h vals ->
    o ∈ vals -> s1 ∈ vals -> s2 ∈ vals ->
    call_combine o s1 combinator s2 h = Ok (o', h') ->
    reachable h' (o' :: vals).

(** Running a chain [cssSelectorBuilder.name1(v1).name2(v2)...] from a
    receiver. *)
Fixpoint chain (calls : list (string * string)) (o : loc) : M loc :=
  match calls with
  | [] => ret o
  | (name, value) :: rest => (o' <- call o name value ;; chain rest o')%js
  end.

(** [cssSelectorBuilder.name1(v1)...nameN(vN).stringify()] on the freshly
    loaded module. *)
Definition chain_stringify (calls : list (string * string)) : outcome string :=
  (r <~ chain calls cssSelectorBuilder initial_heap ;;
   call_stringify (fst r) (snd r))%js.

(** The fields of [cssSelectorBuilder.name1(v1)...nameN(vN)]. *)
Definition chain_fields (calls : list (string * string)) : option selector :=
  match chain calls cssSelectorBuilder initial_heap with
  | Ok (o, h) => fields_of h o
  | _ => None
  end.

(** The value and the heap after a chain of calls on the freshly loaded
    module, for the concrete program states used as examples. *)
Definition chain_ok (calls : list (string * string)) : bool :=
  is_ok (chain calls cssSelectorBuilder initial_heap).
Definition value_after (calls : list (string * string)) : loc :=
  match chain calls cssSelectorBuilder initial_heap with
  | Ok (o, _) => o
  | _ => 0
  end.
Definition heap_after (calls : list (string * string)) : heap :=
  match chain calls cssSelectorBuilder initial_heap with
  | Ok (_, h) => h
  | _ => []
  end.

(** [cssSelectorBuilder.element('div').id('main').class('container')]. *)
Definition sample_calls : list (string * string) :=
  [("element", "div"); ("id", "main"); ("class", "container")].
Definition sample_fields : selector :=
  {| sel_element := Some "div"; sel_id := Some "main";
     sel_classes := Some ["container"]; sel_attributes := None;
     sel_pseudoClasses := None; sel_pseudoElement := None |}.

(** [cssSelectorBuilder.pseudoElement('after')]. *)
Definition after_calls : list (string * string) := [("pseudoElement", "after")].
Definition after_fields : selector :=
  {| sel_element := None; sel_id := None; sel_classes := None;
     sel_attributes := None; sel_pseudoClasses := None;
     sel_pseudoElement := Some "after" |}.

(** [cssSelectorBuilder.attr('href')]. *)
Definition attr_calls : list (string * string) := [("attr", "href")].
Definition attr_fields : selector :=
  {| sel_element := None; sel_id := None; sel_classes := None;
     sel_attributes := Some ["href"]; sel_pseudoClasses := None;
     sel_pseudoElement := None |}.

(** The example of the documentation comment:
    [builder.combine(builder.element('div').id('main').class('container')
    .class('draggable'), '+', builder.combine(builder.element('table')
    .id('data'), '~', builder.combine(builder.element('tr')
    .pseudoClass('nth-of-type(even)'), ' ', builder.element('td')
    .pseudoClass('nth-of-type(even)'))))]. *)
Definition documented_example : M loc :=
  (div <- chain [("element", "div"); ("id", "main"); ("class", "container");
                 ("class", "draggable")] cssSelectorBuilder ;;
   table <- chain [("element", "table"); ("id", "data")] cssSelectorBuilder ;;
   tr <- chain [("element", "tr"); ("pseudoClass", "nth-of-type(even)")]
           cssSelectorBuilder ;;
   td <- chain [("element", "td"); ("pseudoClass", "nth-of-type(even)")]
           cssSelectorBuilder ;;
   inner <- call_combine cssSelectorBuilder tr " " td ;;
   middle <- call_combine cssSelectorBuilder table "~" inner ;;
   call_combine cssSelectorBuilder div "+" middle)%js.

(** [o.name(value); o.stringify()]: the receiver, stringified after the
    call. *)
Definition receiver_after (o : loc) (name value : string) (h : heap)
    : outcome string :=
  (r <~ call o name value h ;; call_stringify o (snd r))%js.

(** The selector with no field set. *)
Definition empty_selector : selector :=
  {| sel_element := None; sel_id := None; sel_classes := None;
     sel_attributes := None; sel_pseudoClasses := None;
     sel_pseudoElement := None |}.

(** *** Well-formed heaps

    What every heap a program can reach satisfies ([reachable_inv]).
    Prototypes are older than the objects that inherit from them; the
    selector fields hold strings and arrays; an array serves one field
    only; the three objects made when the module is loaded are never
    written to. *)
Definition protos_older (h : heap) : Prop :=
  ∀ l p m, h !! l = Some (CObj (Some p) m) → p < l.

(** [heap_le h h']: [h'] has every object of [h] unchanged, and an array
    where [h] has one. *)
Definition heap_le (h h' : heap) : Prop :=
  ∀ l, match h !! l with
       | Some (CObj p m) => h' !! l = Some (CObj p m)
       | Some (CArr _) => ∃ ys, h' !! l = Some (CArr ys)
       | None => True
       end.

Definition string_keys : list string :=
  ["el"; "elID"; "elPseudoElement"].
Definition array_keys : list string :=
  ["elClass"; "elAttrs"; "elPseudoClass"].

(** The object literal built by the constructor. *)
Definition prot_loc : loc := 2.

Definition value_ok (h : heap) (k : string) (v : value) : Prop :=
  (k ∈ string_keys → v = VUndef ∨ ∃ s, v = VStr s) ∧
  (k ∈ array_keys →
     v = VUndef ∨ ∃ a xs, v = VRef a ∧ h !! a = Some (CArr xs)) ∧
  (k = "prot" → v = VRef prot_loc) ∧
  (k = "combined" → ∃ s, v = VStr s ∧ s ≠ "").

Definition typed (h : heap) : Prop :=
  ∀ l p m k v, h !! l = Some (CObj p m) → m !! k = Some v → value_ok h k v.

Definition owns (h : heap) (k : string) (v : value) : Prop :=
  ∃ l p m, h !! l = Some (CObj p m) ∧ m !! k = Some v.

Definition no_alias (h : heap) : Prop :=
  ∀ k1 k2 a, k1 ∈ array_keys → k2 ∈ array_keys →
    owns h k1 (VRef a) → owns h k2 (VRef a) → k1 = k2.

Record heap_inv (h : heap) : Prop := {
  inv_protos : protos_older h;
  inv_typed : typed h;
  inv_alias : no_alias h;
  inv_initial : heap_le initial_heap h;
}.

(** The method names and the functions they are bound to. *)
Definition methods : list (string * fn) :=
  [("element", Felement); ("id", Fid); ("class", Fclass); ("attr", Fattr);
   ("pseudoClass", FpseudoClass); ("pseudoElement", FpseudoElement);
   ("combine", Fcombine); ("stringify", Fstringify)].

Definition has_methods (h : heap) (o : loc) : Prop :=
  ∀ k f, (k, f) ∈ methods → get h o k = VFun f.

(** Property names that no builder call writes on the object it returns. *)
Definition reserved_keys : list string := "combined" :: map fst methods.

(** A selector value of the heap: allocated, with [stringify] in reach,
    and with all the builder methods unless it is a combined selector. *)
Definition value_inv (h : heap) (o : loc) : Prop :=
  o < length h
  ∧ get h o "stringify" = VFun Fstringify
  ∧ (get h o "combined" = VUndef → has_methods h o).

(** What a successful call returns: a fresh selector value in a larger,
    well-formed heap. *)
Definition step_ok (h : heap) (o' : loc) (h' : heap) : Prop :=
  o' = length h ∧ heap_inv h' ∧ heap_le h h' ∧ value_inv h' o'.

End CssSelectorBuilder.

(** ** [Rectangle] *)

Module Rect.

(** What a property of a rectangle object holds: a number (an IEEE 754
    double, as every JavaScript number), or the function made by the
    function expression in the constructor. *)
Inductive rvalue :=
| RNum (x : float)
| RgetArea.

(** [function Rectangle(width, height)], with the object it is applied to:
    the fresh object of [new Rectangle(...)], or whatever [this] is in a
    plain call. *)
Definition Rectangle (this : gmap string rvalue) (width height : float)
    : gmap string rvalue :=
  let this := <["width" := RNum width]> this in
  let this := <["height" := RNum height]> this in
  let this := <["getArea" := RgetArea]> this in
  this.

(** The body of [getArea]: [this.width * this.height], a product of
    doubles; operands that are not numbers would be coerced, which is
    outside the model. *)
Definition getArea (this : gmap string rvalue) : outcome float :=
  match this !! "width", this !! "height" with
  | Some (RNum w), Some (RNum h) => Ok (w * h)%float
  | _, _ => Outside
  end.

(** The method call [o.getArea()]. *)
Definition call_getArea (o : gmap string rvalue) : outcome float :=
  match o !! "getArea" with
  | Some RgetArea => getArea o
  | _ => Throw TypeError
  end.

(** [new Rectangle(width, height)]. *)
Definition new (width height : float) : gmap string rvalue :=
  Rectangle ∅ width height.

End Rect.

(** ** [getJSON] and [fromJSON] *)

Module Json.

#[local] Set Warnings "-register-all".
(** JSON values, as [JSON.parse] returns them and [JSON.stringify] takes
    them.  The members of an object are its own properties in enumeration
    order. *)
Inductive json :=
| JNull
| JBool (b : bool)
| JNum (x : float)
| JStr (s : string)
| JArr (items : list json)
| JObj (members : list (string * json)).
#[local] Set Warnings "register-all".

Definition backslash : string := String (Ascii.ascii_of_nat 92) EmptyString.

Definition hex_digit (n : nat) : string :=
  String.substring n 1 "0123456789abcdef".

(** The quoted form of a string in a JSON text (ECMAScript's
    QuoteJSONString, on the characters below 128). *)
Definition quote_char (c : Ascii.ascii) : string :=
  let n := Ascii.nat_of_ascii c in
  if n =? 34 then backslash +:+ dquote
  else if n =? 92 then backslash +:+ backslash
  else if n =? 8 then backslash +:+ "b"
  else if n =? 9 then backslash +:+ "t"
  else if n =? 10 then backslash +:+ "n"
  else if n =? 12 then backslash +:+ "f"
  else if n =? 13 then backslash +:+ "r"
  else if n <? 32 then backslash +:+ "u00" +:+ hex_digit (n / 16) +:+ hex_digit (n mod 16)
  else String c EmptyString.

Fixpoint quote_chars (s : string) : string :=
  match s with
  | EmptyString => ""
  | String c rest => quote_char c +:+ quote_chars rest
  end.

Definition quote (s : string) : string := dquote +:+ quote_chars s +:+ dquote.

(** The integer [m * 2^e], when it is one. *)
Definition integer_value (m : positive) (e : Z) : option Z :=
  if (0 <=? e)%Z then Some (Z.pos m * 2 ^ e)%Z
  else if (Z.pos m mod 2 ^ (- e) =? 0)%Z then Some (Z.pos m / 2 ^ (- e))%Z
  else None.

(** The text of a number: [null] for an infinity or a NaN, the decimal
    digits for an integer of absolute value at most 2^53. *)
Definition number_text (x : float) : outcome string :=
  match Prim2SF x with
  | S754_nan | S754_infinity _ => Ok "null"
  | S754_zero _ => Ok "0"
  | S754_finite sign m e =>
      match integer_value m e with
      | Some n =>
          if (n <=? 2 ^ 53)%Z
          then Ok ((if sign then "-" else "") +:+ pretty (Z.to_N n))
          else Outside
      | None => Outside
      end
  end.

(** Modelled from the spec: [JSON.stringify], a builtin of the JavaScript
    runtime and no code of this repository ("standard JSON serialization");
    after ECMAScript's SerializeJSONProperty, for values without [toJSON],
    with no replacer and no indentation.  Numbers are printed when they are
    integers of absolute value at most 2^53, whose decimal digits are their
    shortest representation; other finite numbers are outside the model. *)
Fixpoint JSON_stringify (v : json) : outcome string :=
  match v with
  | JNull => Ok "null"
  | JBool b => Ok (if b then "true" else "false")
  | JNum x => number_text x
  | JStr s => Ok (quote s)
  | JArr items =>
      (parts <~ (fix elements (l : list json) : outcome (list string) :=
                   match l with
                   | [] => Ok []
                   | x :: rest =>
                       (s <~ JSON_stringify x ;;
                        ss <~ elements rest ;;
                        Ok (s :: ss))
                   end) items ;;
       Ok ("[" +:+ String.concat "," parts +:+ "]"))%js
  | JObj members =>
      (parts <~ (fix properties (l : list (string * json)) : outcome (list string) :=
                   match l with
                   | [] => Ok []
                   | (k, x) :: rest =>
                       (s <~ JSON_stringify x ;;
                        ss <~ properties rest ;;
                        Ok ((quote k +:+ ":" +:+ s) :: ss))
                   end) members ;;
       Ok ("{" +:+ String.concat "," parts +:+ "}"))%js
  end.

(** [function getJSON(obj) { return JSON.stringify(obj); }]. *)
Definition getJSON (obj : json) : outcome string := JSON_stringify obj.

(** What a property of the object made by [fromJSON] holds: a parsed value,
    [undefined], or a method of the prototype. *)
Inductive pvalue :=
| PJson (v : json)
| PUndef
| PMethod (name : string).

(** A property as an object shows it, through its prototype chain: a data
    property, writable or read-only, or an accessor, with or without a
    setter. *)
Inductive property :=
| Data (v : pvalue) (writable : bool)
| Accessor (setter : bool).

(** An object: the properties it inherits (what is visible through its
    prototype chain), and its own, which are the writable data properties
    that assignments have created. *)
Record object := {
  inherited : gmap string property;
  own : gmap string pvalue;
}.

(** The property that [o.k] resolves to. *)
Definition lookup_property (o : object) (k : string) : option property :=
  match own o !! k with
  | Some v => Some (Data v true)
  | None => inherited o !! k
  end.

(** [Object.create(proto)] for an object [proto], given by the properties
    that are visible on it. *)
Definition Object_create (proto : gmap string property) : object :=
  {| inherited := proto; own := ∅ |}.

(** Whether an assignment to [k] on an object that inherits from [proto]
    and has no own [k] makes an own property: it does unless [k] resolves,
    on the prototype chain, to a read-only data property or to an
    accessor. *)
Definition settable (proto : gmap string property) (k : string) : bool :=
  match proto !! k with
  | None | Some (Data _ true) => true
  | Some (Data _ false) | Some (Accessor _) => false
  end.

(** The decimal index strings ["0"], ["1"], ... below [n]. *)
Definition indices (n : nat) : list string := map (fun i => pretty i) (seq 0 n).

(** [Object.keys(v)]: a [TypeError] on [null], no key for a number or a
    boolean, the indices of a string or an array, the member names of an
    object. *)
Definition Object_keys (v : json) : outcome (list string) :=
  match v with
  | JNull => Throw TypeError
  | JBool _ | JNum _ => Ok []
  | JStr s => Ok (indices (String.length s))
  | JArr items => Ok (indices (length items))
  | JObj members => Ok (map fst members)
  end.

(** The index below [n] that the key [k] denotes, if any. *)
Definition index_of (n : nat) (k : string) : option nat :=
  list_find (fun i => pretty i = k) (seq 0 n) ≫= fun r => Some (snd r).

(** [v[k]] *)
Definition get_member (v : json) (k : string) : pvalue :=
  match v with
  | JObj members =>
      match list_find (fun m => fst m = k) members with
      | Some (_, (_, x)) => PJson x
      | None => PUndef
      end
  | JArr items =>
      match index_of (length items) k ≫= fun i => items !! i with
      | Some x => PJson x
      | None => PUndef
      end
  | JStr s =>
      match index_of (String.length s) k ≫= fun i => String.get i s with
      | Some c => PJson (JStr (String c EmptyString))
      | None => PUndef
      end
  | _ => PUndef
  end.

(** [o[k] = v] in code that is not strict (the module has no
    ['use strict']), after ECMAScript's OrdinarySet.  An own property is
    replaced.  Otherwise the property that [k] resolves to on the prototype
    chain decides: if there is none, or a writable data property, the own
    property is created; if it is a read-only data property or an accessor
    without a setter, the assignment is ignored; if it is an accessor with
    a setter, the setter is called, which is code from outside this module.
    The key ["__proto__"], an accessor of [Object.prototype] whose setter
    changes the prototype, is outside the model as well. *)
Definition assign (o : object) (k : string) (v : pvalue) : outcome object :=
  if decide (k = "__proto__") then Outside
  else
    match own o !! k with
    | Some _ => Ok {| inherited := inherited o; own := <[k := v]> (own o) |}
    | None =>
        match inherited o !! k with
        | None | Some (Data _ true) =>
            Ok {| inherited := inherited o; own := <[k := v]> (own o) |}
        | Some (Data _ false) | Some (Accessor false) => Ok o
        | Some (Accessor true) => Outside
        end
    end.

(** [keys.forEach((key) => { newObj[key] = obj[key]; })] *)
Definition copy_keys (obj : json) (keys : list string) (newObj : object)
    : outcome object :=
  fold_left (fun acc key => (o <~ acc ;; assign o key (get_member obj key))%js)
    keys (Ok newObj).

Section fromJSON.

(** [JSON.parse], a builtin of the runtime: the value a text stands for,
    or [None] when it throws a [SyntaxError]. *)
Variable JSON_parse : string -> option json.

Definition fromJSON (proto : gmap string property) (text : string) : outcome object :=
  match JSON_parse text with
  | None => Throw SyntaxError
  | Some obj =>
      let newObj := Object_create proto in
      (keys <~ Object_keys obj ;;
       copy_keys obj keys newObj)%js
  end.

End fromJSON.

(** The texts of the examples, and what [JSON.parse] does on them: a
    stand-in for the builtin that agrees with it on these four texts, the
    last of which it rejects (the stand-in rejects every other text as
    well, which the builtin does not). *)
Definition radius_text : string :=
  "{" +:+ dquote +:+ "radius" +:+ dquote +:+ ":10}".
Definition shadow_text : string :=
  "{" +:+ dquote +:+ "getArea" +:+ dquote +:+ ":1}".
Definition known_parse (text : string) : option json :=
  if decide (text = "null") then Some JNull
  else if decide (text = radius_text) then Some (JObj [("radius", JNum 10)])
  else if decide (text = shadow_text) then Some (JObj [("getArea", JNum 1)])
  else if decide (text = "{") then None
  else None.

(** A prototype with one capability, a method as a class declares it. *)
Definition circle_proto : gmap string property :=
  {["getArea" := Data (PMethod "getArea") true]}.

(** A prototype on which [radius] is read-only, as on a frozen object. *)
Definition frozen_proto : gmap string property :=
  {["radius" := Data (PJson (JNum 1)) false]}.

End Json.

Import CssSelectorBuilder.

(** Case analysis on the membership of a key in one of the finite lists
    above. *)
Ltac key_cases H :=
  unfold string_keys, array_keys in H;
  rewrite ?elem_of_cons, ?elem_of_nil in H;
  destruct_or! H; try done; simplify_eq.

Ltac method_cases H :=
  unfold methods in H;
  rewrite ?elem_of_cons, ?elem_of_nil in H;
  destruct_or! H; try done; simplify_eq.

(** ** Definitions for the further properties *)

(** The fields after [element], [id] or [pseudoElement] has set the field
    [k] to [v]. *)
Definition with_string (k : string) (v : string) (s : selector) : selector :=
  if decide (k = "el") then
    {| sel_element := Some v; sel_id := sel_id s;
       sel_classes := sel_classes s; sel_attributes := sel_attributes s;
       sel_pseudoClasses := sel_pseudoClasses s;
       sel_pseudoElement := sel_pseudoElement s |}
  else if decide (k = "elID") then
    {| sel_element := sel_element s; sel_id := Some v;
       sel_classes := sel_classes s; sel_attributes := sel_attributes s;
       sel_pseudoClasses := sel_pseudoClasses s;
       sel_pseudoElement := sel_pseudoElement s |}
  else if decide (k = "elPseudoElement") then
    {| sel_element := sel_element s; sel_id := sel_id s;
       sel_classes := sel_classes s; sel_attributes := sel_attributes s;
       sel_pseudoClasses := sel_pseudoClasses s;
       sel_pseudoElement := Some v |}
  else s.

(** The three kinds of selector value.  One that descends from the builder
    without a call of [element] sees the builder's [prot]; one that
    descends from the result of [element] has the element set and sees no
    [prot]; a combined one is the object literal of [combine]. *)
Definition from_builder (h : heap) (o : loc) : Prop :=
  get h o "el" = VUndef ∧ get h o "prot" = VRef prot_loc.

Definition from_element (h : heap) (o : loc) : Prop :=
  (∃ e, get h o "el" = VStr e) ∧ get h o "prot" = VUndef.

Definition combined_cell (c : string) (s1 s2 : loc) : cell :=
  CObj None
    (<["combined" := VStr c]>
       (<["selectors1" := VRef s1]>
          (<["selectors2" := VRef s2]>
             (<["stringify" := VFun Fstringify]> ∅)))).

Definition value_kind (h : heap) (o : loc) : Prop :=
  (get h o "combined" = VUndef ∧ (from_builder h o ∨ from_element h o))
  ∨ (∃ c s1 s2, h !! o = Some (combined_cell c s1 s2)).

(** The property names that a builder call may write on the object it
    returns. *)
Definition field_keys : list string :=
  ["el"; "elID"; "elClass"; "elAttrs"; "elPseudoClass"; "elPseudoElement"].

(** What a program does after a given point: builder calls and [combine]
    on the values it has then and on those it gets. *)
Inductive later (h : heap) (vals : list loc) : heap -> list loc -> Prop :=
| later_now : later h vals h vals
| later_call h1 vals1 o name value o' h' :
    later h vals h1 vals1 ->
    o ∈ vals1 ->
    call o name value h1 = Ok (o', h') ->
    later h vals h' (o' :: vals1)
| later_combine h1 vals1 o s1 combinator s2 o' h' :
    later h vals h1 vals1 ->
    o ∈ vals1 -> s1 ∈ vals1 -> s2 ∈ vals1 ->
    call_combine o s1 combinator s2 h1 = Ok (o', h') ->
    later h vals h' (o' :: vals1).

(** A sequence of an existing selector over time: absent it stays absent,
    present it is extended at its end. *)
Definition grows (before after : option (list string)) : Prop :=
  match before with
  | None => after = None
  | Some xs => ∃ ys, after = Some (xs ++ ys)
  end.

(** The calls that build a selector with given fields, in the order that
    the builder asks for. *)
Definition optional_call (name : string) (field : option string)
    : list (string * string) :=
  match field with
  | Some v => [(name, v)]
  | None => []
  end.

Definition each_call (name : string) (field : option (list string))
    : list (string * string) :=
  map (fun v => (name, v)) (default [] field).

Definition calls_of (s : selector) : list (string * string) :=
  optional_call "element" (sel_element s)
  ++ optional_call "id" (sel_id s)
  ++ each_call "class" (sel_classes s)
  ++ each_call "attr" (sel_attributes s)
  ++ each_call "pseudoClass" (sel_pseudoClasses s)
  ++ optional_call "pseudoElement" (sel_pseudoElement s).

(** No builder call leaves a sequence that is present and empty. *)
Definition proper (s : selector) : Prop :=
  sel_classes s ≠ Some [] ∧ sel_attributes s ≠ Some []
  ∧ sel_pseudoClasses s ≠ Some [].

(** [x.stringify()] for the value [x] that a computation returns. *)
Definition stringify_result (m : M loc) (h : heap) : outcome string :=
  (r <~ m h ;; call_stringify (fst r) (snd r))%js.

(** [combine(combine(a, c1, b), c2, d)] and [combine(a, c1, combine(b, c2, d))]
    on the builder. *)
Definition combine_left (a : loc) (c1 : string) (b : loc) (c2 : string) (d : loc)
    : M loc :=
  (x <- call_combine cssSelectorBuilder a c1 b ;;
   call_combine cssSelectorBuilder x c2 d)%js.

Definition combine_right (a : loc) (c1 : string) (b : loc) (c2 : string) (d : loc)
    : M loc :=
  (y <- call_combine cssSelectorBuilder b c2 d ;;
   call_combine cssSelectorBuilder a c1 y)%js.

(** The fields of an existing selector at a later time: the element, the
    id and the pseudo-element are what they were, the three sequences have
    grown. *)
Definition extends (s s' : selector) : Prop :=
  sel_element s' = sel_element s
  ∧ sel_id s' = sel_id s
  ∧ sel_pseudoElement s' = sel_pseudoElement s
  ∧ grows (sel_classes s) (sel_classes s')
  ∧ grows (sel_attributes s) (sel_attributes s')
  ∧ grows (sel_pseudoClasses s) (sel_pseudoClasses s').

(** The value and the heap that a computation ends with, for the concrete
    program states used as examples. *)
Definition value_of (m : M loc) (h : heap) : loc :=
  match m h with
  | Ok (o, _) => o
  | _ => 0
  end.
Definition heap_of (m : M loc) (h : heap) : heap :=
  match m h with
  | Ok (_, h') => h'
  | _ => []
  end.

(** [const s = cssSelectorBuilder.class('a');
     const c = cssSelectorBuilder.combine(s, '+', cssSelectorBuilder);]
    and then [s.class('b')]. *)
Definition shared_calls : list (string * string) := [("class", "a")].
Definition combine_shared : M loc :=
  call_combine cssSelectorBuilder (value_after shared_calls) "+" cssSelectorBuilder.
Definition combined_value : loc := value_of combine_shared (heap_after shared_calls).
Definition combined_heap : heap := heap_of combine_shared (heap_after shared_calls).
Definition push_shared : M loc := call (value_after shared_calls) "class" "b".
Definition pushed_heap : heap := heap_of push_shared combined_heap.

(** A simple selector value of a heap, with its fields and the values that
    the program has. *)
Definition built (h : heap) (o : loc) (s : selector) : Prop :=
  ∃ vals, reachable h vals ∧ o ∈ vals ∧ fields_of h o = Some s.

(** The fields after a run of [class], [attr] or [pseudoClass] calls. *)
Definition pushed_each (k : string) (xs : list string) (s : selector) : selector :=
  fold_left (fun acc v => pushed k v acc) xs s.

(** A heap [h] that has the cells of [h0] as they were. *)
Definition keeps (h0 h : heap) : Prop :=
  ∀ l, l < length h0 → h !! l = h0 !! l.

(** The arrays that [o] reads its sequences from were made after [h0]. *)
Definition arrays_after (h0 h : heap) (o : loc) : Prop :=
  ∀ k a, k ∈ array_keys → get h o k = VRef a → length h0 ≤ a.

(** A selector with all six fields, and its stringified form. *)
Definition full_fields : selector :=
  {| sel_element := Some "a"; sel_id := Some "top";
     sel_classes := Some ["wide"; "dark"];
     sel_attributes := Some ["href"; "target"];
     sel_pseudoClasses := Some ["hover"; "focus"];
     sel_pseudoElement := Some "after" |}.

(** The six builder methods as one function on fields: what a call does
    to the fields of its receiver, read off the guards and the bodies of
    the methods.  The heap does not appear in it. *)
Definition builder_names : list string :=
  ["element"; "id"; "class"; "attr"; "pseudoClass"; "pseudoElement"].

Definition next_fields (name : string) (v : string) (s : selector)
    : outcome selector :=
  if decide (name = "element") then
    if filled (sel_element s) then Throw DuplicateError
    else if later_than_element s then Throw OrderError
    else if is_set (sel_element s) then Throw TypeError
    else Ok (with_string "el" v empty_selector)
  else if decide (name = "id") then
    if filled (sel_id s) then Throw DuplicateError
    else if later_than_id s then Throw OrderError
    else Ok (with_string "elID" v s)
  else if decide (name = "class") then
    if later_than_class s then Throw OrderError
    else Ok (pushed "elClass" v s)
  else if decide (name = "attr") then
    if later_than_attr s then Throw OrderError
    else Ok (pushed "elAttrs" v s)
  else if decide (name = "pseudoClass") then
    if later_than_pseudoClass s then Throw OrderError
    else Ok (pushed "elPseudoClass" v s)
  else if decide (name = "pseudoElement") then
    if filled (sel_pseudoElement s) then Throw DuplicateError
    else Ok (with_string "elPseudoElement" v s)
  else Outside.

Fixpoint run_fields (calls : list (string * string)) (s : selector)
    : outcome selector :=
  match calls with
  | [] => Ok s
  | (name, v) :: rest => (s' <~ next_fields name v s ;; run_fields rest s')%js
  end.

(** The fields of [o.name1(v1)...nameN(vN)], or the exception thrown on
    the way. *)
Definition chain_outcome (calls : list (string * string)) (o : loc) (h : heap)
    : outcome selector :=
  match chain calls o h with
  | Ok (o', h') =>
      match fields_of h' o' with
      | Some s => Ok s
      | None => Outside
      end
  | Throw e => Throw e
  | Outside => Outside
  end.

(** What a successful call adds to the stringified form. *)
Definition segment (name : string) (v : string) (s : selector) : string :=
  if decide (name = "element") then v
  else if decide (name = "id") then (if decide (v = "") then "" else "#" +:+ v)
  else if decide (name = "class") then "." +:+ v
  else if decide (name = "attr") then
    match sel_attributes s with
    | Some (_ :: _) => ""
    | _ => "[" +:+ v +:+ "]"
    end
  else if decide (name = "pseudoClass") then ":" +:+ v
  else if decide (name = "pseudoElement") then
    (if decide (v = "") then "" else "::" +:+ v)
  else "".

(** The order that the builder asks for: element, id, classes, attributes,
    pseudo-classes, pseudo-element, the first two and the last at most
    once.  [in_order last calls] tells whether [calls] keeps to it after a
    call of rank [last]. *)
Definition rank (name : string) : nat :=
  if decide (name = "element") then 1
  else if decide (name = "id") then 2
  else if decide (name = "class") then 3
  else if decide (name = "attr") then 4
  else if decide (name = "pseudoClass") then 5
  else if decide (name = "pseudoElement") then 6
  else 0.

Definition may_follow (last r : nat) : bool :=
  if (3 <=? r) && (r <=? 5) then last <=? r else last <? r.

Fixpoint in_order (last : nat) (calls : list (string * string)) : bool :=
  match calls with
  | [] => true
  | (name, _) :: rest => may_follow last (rank name) && in_order (rank name) rest
  end.

(** The rank of the last field that is set, for fields whose strings are
    not empty. *)
Definition level_of (s : selector) : nat :=
  if filled (sel_pseudoElement s) then 6
  else if is_set (sel_pseudoClasses s) then 5
  else if is_set (sel_attributes s) then 4
  else if is_set (sel_classes s) then 3
  else if filled (sel_id s) then 2
  else if filled (sel_element s) then 1
  else 0.

Definition no_empty_string (s : selector) : Prop :=
  is_set (sel_element s) = filled (sel_element s)
  ∧ is_set (sel_id s) = filled (sel_id s)
  ∧ is_set (sel_pseudoElement s) = filled (sel_pseudoElement s).

(** The sequence of a selector that is kept under the key [k]. *)
Definition sequence (k : string) (s : selector) : option (list string) :=
  if decide (k = "elClass") then sel_classes s
  else if decide (k = "elAttrs") then sel_attributes s
  else if decide (k = "elPseudoClass") then sel_pseudoClasses s
  else None.

(** The three methods that add to a sequence, with the key of the
    sequence. *)
Definition push_methods : list (string * string) :=
  [("class", "elClass"); ("attr", "elAttrs"); ("pseudoClass", "elPseudoClass")].

(** Membership, and its negation, in one of the finite lists of keys. *)
Ltac key_in :=
  unfold string_keys, array_keys, field_keys, builder_names;
  repeat first [apply list_elem_of_here | apply list_elem_of_further].

Ltac key_out :=
  unfold string_keys, array_keys, field_keys, builder_names;
  rewrite ?not_elem_of_cons; repeat split; first [done | apply not_elem_of_nil].

(** A stand-in for [JSON.parse] on the texts of two more examples, an array
    and a number; it rejects every other text. *)
Definition array_parse (text : string) : option Json.json :=
  if decide (text = "[10,20]") then Some (Json.JArr [Json.JNum 10; Json.JNum 20])
  else if decide (text = "7") then Some (Json.JNum 7)
  else None.

(** Reduction of the field projections of a selector only. *)
Ltac fields_cbn :=
  cbn [sel_element sel_id sel_classes sel_attributes sel_pseudoClasses
       sel_pseudoElement].

(** * Properties *)

(** ** Property lookup *)

Lemma lookup_chain_unfold n h l k :
  lookup_chain (S n) h l k =
  match h !! l with
  | Some (CObj proto props) =>
      match props !! k with
      | Some v => v
      | None => match proto with
                | Some p => lookup_chain n h p k
                | None => VUndef
                end
      end
  | _ => VUndef
  end.
Proof. reflexivity. Qed.

(** More fuel than the location is never used. *)
Lemma lookup_chain_fuel_irrel h :
  protos_older h →
  ∀ n n' l k, l < n → l < n' → lookup_chain n h l k = lookup_chain n' h l k.
Proof.
  intros Hold n. induction n as [|n IH]; intros n' l k Hn Hn'; [lia|].
  destruct n' as [|n']; [lia|].
  rewrite !lookup_chain_unfold.
  destruct (h !! l) as [[[p|] m|xs]|] eqn:Hc; try reflexivity.
  destruct (m !! k); [reflexivity|].
  pose proof (Hold _ _ _ Hc) as Hp.
  apply IH; lia.
Qed.

Lemma lookup_chain_fuel h :
  protos_older h →
  ∀ n l k, l < n → lookup_chain n h l k = get h l k.
Proof.
  intros Hold n l k Hl. unfold get.
  apply lookup_chain_fuel_irrel; [assumption|lia..].
Qed.

Lemma get_unfold h l k :
  protos_older h →
  get h l k =
  match h !! l with
  | Some (CObj proto props) =>
      match props !! k with
      | Some v => v
      | None => match proto with
                | Some p => get h p k
                | None => VUndef
                end
      end
  | _ => VUndef
  end.
Proof.
  intros Hold. unfold get at 1. rewrite lookup_chain_unfold.
  destruct (h !! l) as [[[p|] m|xs]|] eqn:Hc; try reflexivity.
  destruct (m !! k); [reflexivity|].
  apply lookup_chain_fuel; [assumption|]. eapply Hold, Hc.
Qed.

(** ** Heaps that grow *)

Lemma heap_le_refl h : heap_le h h.
Proof. intros l. destruct (h !! l) as [[p m|xs]|]; eauto. Qed.

Lemma heap_le_trans h1 h2 h3 : heap_le h1 h2 → heap_le h2 h3 → heap_le h1 h3.
Proof.
  intros H12 H23 l. specialize (H12 l). specialize (H23 l).
  destruct (h1 !! l) as [[p m|xs]|]; [| |exact I].
  - rewrite H12 in H23. exact H23.
  - destruct H12 as [ys Hys]. rewrite Hys in H23. exact H23.
Qed.

Lemma heap_le_app h t : heap_le h (h ++ t).
Proof.
  intros l. destruct (h !! l) as [[p m|xs]|] eqn:Hl; [| |exact I].
  - by apply lookup_app_l_Some.
  - exists xs. by apply lookup_app_l_Some.
Qed.

Lemma heap_le_push h a xs ys :
  h !! a = Some (CArr xs) → heap_le h (<[a := CArr ys]> h).
Proof.
  intros Ha l. destruct (decide (a = l)) as [->|Hne].
  - rewrite Ha. exists ys. apply list_lookup_insert_eq. by eapply lookup_lt_Some.
  - rewrite list_lookup_insert_ne by done.
    destruct (h !! l) as [[p m|zs]|]; eauto.
Qed.

Lemma heap_le_length h h' : heap_le h h' → length h ≤ length h'.
Proof.
  intros Hle. destruct (decide (length h = 0)) as [|Hn]; [lia|].
  specialize (Hle (length h - 1)).
  destruct (lookup_lt_is_Some_2 h (length h - 1)) as [c Hc]; [lia|].
  rewrite Hc in Hle. destruct c as [p m|xs].
  - apply lookup_lt_Some in Hle. lia.
  - destruct Hle as [ys Hys]. apply lookup_lt_Some in Hys. lia.
Qed.

(** A lookup that starts at an object of [h] reads the same in a larger
    heap. *)
Lemma lookup_chain_le h h' :
  protos_older h → heap_le h h' →
  ∀ n l k, l < length h → lookup_chain n h' l k = lookup_chain n h l k.
Proof.
  intros Hold Hle n. induction n as [|n IH]; intros l k Hl; [reflexivity|].
  rewrite !lookup_chain_unfold.
  pose proof (Hle l) as Hcell.
  destruct (h !! l) as [[[p|] m|xs]|] eqn:Hc.
  - rewrite Hcell. destruct (m !! k); [reflexivity|].
    apply IH. pose proof (Hold _ _ _ Hc). lia.
  - rewrite Hcell. reflexivity.
  - destruct Hcell as [ys ->]. reflexivity.
  - apply lookup_ge_None in Hc. lia.
Qed.

Lemma get_le h h' l k :
  protos_older h → heap_le h h' → l < length h → get h' l k = get h l k.
Proof. intros. unfold get. by apply lookup_chain_le. Qed.

(** The object made by [Object.create(o)] and then given own properties [m]
    reads [m] first and [o] next. *)
Lemma get_child h h' o l m k :
  protos_older h → heap_le h h' → o < length h → length h ≤ l →
  h' !! l = Some (CObj (Some o) m) →
  get h' l k = match m !! k with Some v => v | None => get h o k end.
Proof.
  intros Hold Hle Ho Hl Hc. unfold get at 1.
  rewrite lookup_chain_unfold, Hc. destruct (m !! k); [reflexivity|].
  rewrite (lookup_chain_le h h') by assumption.
  apply lookup_chain_fuel; [assumption|lia].
Qed.

Lemma get_orphan h l m k :
  h !! l = Some (CObj None m) →
  get h l k = match m !! k with Some v => v | None => VUndef end.
Proof. intros Hc. unfold get. by rewrite lookup_chain_unfold, Hc. Qed.

(** What a lookup finds is an own property of some object. *)
Lemma lookup_chain_owns h n l k :
  lookup_chain n h l k ≠ VUndef → owns h k (lookup_chain n h l k).
Proof.
  revert l. induction n as [|n IH]; intros l; [done|].
  rewrite lookup_chain_unfold.
  destruct (h !! l) as [[p m|xs]|] eqn:Hc; try done.
  destruct (m !! k) as [v|] eqn:Hk.
  - intros _. by exists l, p, m.
  - destruct p as [p|]; [apply IH|done].
Qed.

Lemma get_owns h l k : get h l k ≠ VUndef → owns h k (get h l k).
Proof. apply lookup_chain_owns. Qed.

Lemma get_ok h l k :
  typed h → get h l k = VUndef ∨ value_ok h k (get h l k).
Proof.
  intros Hty. destruct (decide (get h l k = VUndef)) as [|Hne]; [by left|].
  right. destruct (get_owns h l k Hne) as (l' & p & m & Hc & Hk).
  eapply Hty; eassumption.
Qed.

(** ** The heap after the module is loaded *)

Lemma module_load_eq : module_load = Ok (cssSelectorBuilder, initial_heap).
Proof. reflexivity. Qed.

Lemma initial_heap_eq : initial_heap = [prototype_cell; builder_cell; prot_cell].
Proof. vm_compute. reflexivity. Qed.

Lemma keys_disjoint k : k ∈ array_keys → k ∈ string_keys → False.
Proof. intros Ha Hs. key_cases Ha; key_cases Hs. Qed.

Lemma array_key_not_prot k : k ∈ array_keys → k ≠ "prot".
Proof. intros Ha. key_cases Ha; discriminate. Qed.

Lemma value_ok_le h h' k v : heap_le h h' → value_ok h k v → value_ok h' k v.
Proof.
  intros Hle (Hs & Ha & Hp). split; [exact Hs|]. split; [|exact Hp].
  intros Hk. destruct (Ha Hk) as [->|(a & xs & -> & Hc)]; [by left|right].
  specialize (Hle a). rewrite Hc in Hle. destruct Hle as [ys Hys]. eauto.
Qed.

Lemma value_ok_str h k s : k ∈ string_keys → value_ok h k (VStr s).
Proof.
  intros Hk. split; [eauto|]. split; [|split].
  - intros Ha. destruct (keys_disjoint _ Ha Hk).
  - intros ->. key_cases Hk.
  - intros ->. key_cases Hk.
Qed.

Lemma initial_heap_inv : heap_inv initial_heap.
Proof.
  rewrite initial_heap_eq. split.
  - intros [|[|[|l]]] p m Hl; simpl in Hl; inversion Hl; subst.
    unfold prototype. lia.
  - intros [|[|[|l]]] p m k v Hl Hk; simpl in Hl; inversion Hl; subst; clear Hl.
    + repeat split; intros Hin; [key_cases Hin|key_cases Hin|subst k|subst k];
        vm_compute in Hk; discriminate.
    + repeat split; intros Hin; [key_cases Hin|key_cases Hin|subst k|subst k];
        vm_compute in Hk; try discriminate. by inversion Hk.
    + repeat split; intros Hin; [key_cases Hin|key_cases Hin|subst k|subst k];
        vm_compute in Hk; inversion Hk; auto.
  - intros k1 k2 a Hk1 _ (l & p & m & Hl & Hk) _.
    destruct l as [|[|[|l]]]; simpl in Hl; inversion Hl; subst; clear Hl;
      key_cases Hk1; vm_compute in Hk; discriminate.
  - apply heap_le_refl.
Qed.

(** ** What each operation does to the heap *)

Lemma set_own_middle h p m t k v :
  set_own (length h) k v (h ++ CObj p m :: t)
  = Ok (tt, h ++ CObj p (<[k := v]> m) :: t).
Proof.
  unfold set_own. rewrite list_lookup_middle by done.
  rewrite insert_app_r_alt by lia. by rewrite Nat.sub_diag.
Qed.

Lemma create_set_inv v k x h o' h' :
  (obj <- Object_create v ;; set_own obj k x ;;; ret obj)%js h = Ok (o', h') →
  ∃ p, v = VRef p ∧ o' = length h
       ∧ h' = h ++ [CObj (Some p) (<[k := x]> ∅)].
Proof.
  unfold bind. destruct v as [|s|p|f]; try discriminate. simpl.
  unfold alloc. rewrite set_own_middle. unfold ret.
  intros [= <- <-]. eauto.
Qed.

Lemma push_or_create_inv this k value h o' h' :
  push_or_create this k value h = Ok (o', h') →
  o' = length h ∧
  ((∃ a xs, get (h ++ [CObj (Some this) ∅]) (length h) k = VRef a
            ∧ (h ++ [CObj (Some this) ∅]) !! a = Some (CArr xs)
            ∧ h' = <[a := CArr (xs ++ [value])]> (h ++ [CObj (Some this) ∅]))
   ∨ (truthy (get (h ++ [CObj (Some this) ∅]) (length h) k) = false
      ∧ h' = h ++ [CObj (Some this) (<[k := VRef (S (length h))]> ∅);
                   CArr [value]])).
Proof.
  unfold push_or_create, bind. simpl. unfold gets, alloc, ret.
  destruct (truthy (get (h ++ [CObj (Some this) ∅]) (length h) k)) eqn:Ht.
  - unfold Array_push.
    destruct (get (h ++ [CObj (Some this) ∅]) (length h) k) as [|s|a|f];
      try discriminate.
    destruct ((h ++ [CObj (Some this) ∅]) !! a) as [[p m|xs]|] eqn:Ha;
      try discriminate.
    intros [= <- <-]. split; [done|]. left. eauto.
  - rewrite <- app_assoc. simpl. rewrite set_own_middle.
    rewrite length_app. simpl. rewrite Nat.add_1_r.
    intros [= <- <-]. split; [done|]. by right.
Qed.

(** ** The invariant is kept *)

Lemma owns_snoc h p m k v :
  owns (h ++ [CObj p m]) k v → owns h k v ∨ m !! k = Some v.
Proof.
  intros (l & p' & m' & Hl & Hk). apply lookup_snoc_Some in Hl as [[_ Hl]|[_ Heq]].
  - left. by exists l, p', m'.
  - right. by inversion Heq; subst.
Qed.

Lemma owns_snoc_array h xs k v : owns (h ++ [CArr xs]) k v → owns h k v.
Proof.
  intros (l & p' & m' & Hl & Hk). apply lookup_snoc_Some in Hl as [[_ Hl]|[_ Heq]].
  - by exists l, p', m'.
  - discriminate.
Qed.

Lemma owns_push h a xs ys k v :
  h !! a = Some (CArr xs) → owns (<[a := CArr ys]> h) k v → owns h k v.
Proof.
  intros Ha (l & p & m & Hl & Hk).
  apply list_lookup_insert_Some in Hl as [(_ & Heq & _)|[_ Hl]]; [discriminate|].
  by exists l, p, m.
Qed.

Lemma owned_array_allocated h k a :
  typed h → k ∈ array_keys → owns h k (VRef a) → a < length h.
Proof.
  intros Hty Hk (l & p & m & Hl & Hm).
  destruct (Hty _ _ _ _ _ Hl Hm) as (_ & Ha & _).
  destruct (Ha Hk) as [|(a' & xs & [= <-] & Hc)]; [discriminate|].
  by eapply lookup_lt_Some.
Qed.

(** A new object whose own properties hold no array. *)
Lemma heap_inv_alloc_obj h p m :
  heap_inv h →
  (∀ q, p = Some q → q < length h) →
  (∀ k v, m !! k = Some v → value_ok h k v ∧ (k ∈ array_keys → v = VUndef)) →
  heap_inv (h ++ [CObj p m]).
Proof.
  intros [Hold Hty Hal Hin] Hp Hm. split.
  - intros l q m' Hl. apply lookup_snoc_Some in Hl as [[_ Hl]|[-> Heq]].
    + by eapply Hold.
    + inversion Heq; subst. by apply Hp.
  - intros l q m' k v Hl Hk. apply (value_ok_le h); [apply heap_le_app|].
    apply lookup_snoc_Some in Hl as [[_ Hl]|[-> Heq]].
    + by eapply Hty.
    + inversion Heq; subst. by apply Hm.
  - intros k1 k2 a Hk1 Hk2 H1 H2.
    apply owns_snoc in H1 as [H1|H1];
      [|destruct (Hm _ _ H1) as [_ Hu]; by specialize (Hu Hk1)].
    apply owns_snoc in H2 as [H2|H2];
      [|destruct (Hm _ _ H2) as [_ Hu]; by specialize (Hu Hk2)].
    by eapply Hal.
  - eapply heap_le_trans; [exact Hin|apply heap_le_app].
Qed.

(** An array that grows. *)
Lemma heap_inv_push h a xs ys :
  heap_inv h → h !! a = Some (CArr xs) → heap_inv (<[a := CArr ys]> h).
Proof.
  intros [Hold Hty Hal Hin] Ha. split.
  - intros l q m Hl.
    apply list_lookup_insert_Some in Hl as [(_ & Heq & _)|[_ Hl]]; [discriminate|].
    by eapply Hold.
  - intros l q m k v Hl Hk.
    apply list_lookup_insert_Some in Hl as [(_ & Heq & _)|[_ Hl]]; [discriminate|].
    apply (value_ok_le h); [by eapply heap_le_push|]. by eapply Hty.
  - intros k1 k2 b Hk1 Hk2 H1 H2. eapply Hal; eauto using owns_push.
  - eapply heap_le_trans; [exact Hin|by eapply heap_le_push].
Qed.

(** A new object with a new array as its own property [k]. *)
Lemma heap_inv_alloc_obj_arr h o k xs :
  heap_inv h → o < length h → k ∈ array_keys →
  heap_inv (h ++ [CObj (Some o) (<[k := VRef (S (length h))]> ∅); CArr xs]).
Proof.
  intros [Hold Hty Hal Hin] Ho Hk.
  assert (Hle : heap_le h
            (h ++ [CObj (Some o) (<[k := VRef (S (length h))]> ∅); CArr xs]))
    by apply heap_le_app.
  assert (Harr : (h ++ [CObj (Some o) (<[k := VRef (S (length h))]> ∅); CArr xs])
                   !! S (length h) = Some (CArr xs)).
  { rewrite lookup_app_r by lia. by replace (S (length h) - length h) with 1 by lia. }
  assert (Hcases : ∀ l c,
            (h ++ [CObj (Some o) (<[k := VRef (S (length h))]> ∅); CArr xs]) !! l
              = Some c →
            h !! l = Some c
            ∨ c = CObj (Some o) (<[k := VRef (S (length h))]> ∅) ∧ l = length h
            ∨ c = CArr xs).
  { intros l c Hl. apply lookup_app_Some in Hl as [Hl|[Hge Hl]]; [by left|right].
    destruct (l - length h) as [|[|n]] eqn:Hd; simpl in Hl; inversion Hl; subst.
    - left. split; [done|lia].
    - by right. }
  assert (Hown : ∀ k' v,
            owns (h ++ [CObj (Some o) (<[k := VRef (S (length h))]> ∅); CArr xs]) k' v →
            owns h k' v ∨ k' = k ∧ v = VRef (S (length h))).
  { intros k' v (l & p & m & Hl & Hm).
    destruct (Hcases _ _ Hl) as [Hl'|[[Heq _]|Heq]]; [|inversion Heq; subst|done].
    - left. by exists l, p, m.
    - right. apply lookup_insert_Some in Hm as [[<- <-]|[_ Hm]]; [done|].
      by rewrite lookup_empty in Hm. }
  split.
  - intros l q m Hl.
    destruct (Hcases _ _ Hl) as [Hl'|[[Heq ->]|Heq]]; [|inversion Heq; subst|done].
    + by eapply Hold.
    + done.
  - intros l q m k' v Hl Hm.
    destruct (Hcases _ _ Hl) as [Hl'|[[Heq ->]|Heq]]; [|inversion Heq; subst|done].
    + eapply value_ok_le; [exact Hle|]. by eapply Hty.
    + apply lookup_insert_Some in Hm as [[<- <-]|[_ Hm]];
        [|by rewrite lookup_empty in Hm].
      split; [intros Hs; destruct (keys_disjoint _ Hk Hs)|]. split; [|split].
      * intros _. right. eauto.
      * intros ->. by destruct (array_key_not_prot _ Hk).
      * intros ->. key_cases Hk.
  - intros k1 k2 a Hk1 Hk2 H1 H2.
    apply Hown in H1 as [H1|[E1 V1]]; apply Hown in H2 as [H2|[E2 V2]].
    + by eapply Hal.
    + pose proof (owned_array_allocated _ _ _ Hty Hk1 H1). inversion V2. lia.
    + pose proof (owned_array_allocated _ _ _ Hty Hk2 H2). inversion V1. lia.
    + congruence.
  - eapply heap_le_trans; [exact Hin|exact Hle].
Qed.

Lemma value_inv_le h h' o :
  protos_older h → heap_le h h' → value_inv h o → value_inv h' o.
Proof.
  intros Hold Hle (Ho & Hs & Hm). split; [|split].
  - pose proof (heap_le_length _ _ Hle). lia.
  - by rewrite (get_le h h').
  - rewrite (get_le h h') by done. intros Hc k f Hk.
    rewrite (get_le h h') by done. by apply Hm.
Qed.

Lemma initial_cells h :
  heap_le initial_heap h →
  h !! prototype = Some prototype_cell
  ∧ h !! cssSelectorBuilder = Some builder_cell
  ∧ h !! prot_loc = Some prot_cell.
Proof.
  intros Hle. rewrite initial_heap_eq in Hle.
  pose proof (Hle 0) as H0. pose proof (Hle 1) as H1. pose proof (Hle 2) as H2.
  simpl in *. done.
Qed.

Lemma initial_value_inv l :
  l = cssSelectorBuilder ∨ l = prot_loc → value_inv initial_heap l.
Proof.
  intros [->| ->]; (split; [rewrite initial_heap_eq; vm_compute; lia|]);
    (split; [vm_compute; reflexivity|]);
    intros _ k f Hk; method_cases Hk; vm_compute; reflexivity.
Qed.

Lemma reserved_not_field k :
  k ∈ string_keys ∨ k ∈ array_keys → ∀ q, q ∈ reserved_keys → k ≠ q.
Proof.
  intros [Hk|Hk] q Hq ->; key_cases Hk;
    unfold reserved_keys, methods in Hq; simpl in Hq;
    rewrite ?elem_of_cons, ?elem_of_nil in Hq;
    destruct_or! Hq; done.
Qed.

Lemma method_reserved k f : (k, f) ∈ methods → k ∈ reserved_keys.
Proof.
  intros Hk. unfold reserved_keys. apply elem_of_cons. right.
  apply list_elem_of_fmap. by exists (k, f).
Qed.

(** An object that inherits from a selector value and has no reserved own
    property is a selector value. *)
Lemma value_inv_child h h' this l m :
  protos_older h → heap_le h h' → value_inv h this →
  length h ≤ l → h' !! l = Some (CObj (Some this) m) →
  (∀ q, q ∈ reserved_keys → m !! q = None) →
  value_inv h' l.
Proof.
  intros Hold Hle (Hthis & Hstr & Hm) Hl Hcell Hres.
  assert (Hget : ∀ q, q ∈ reserved_keys → get h' l q = get h this q).
  { intros q Hq. rewrite (get_child h h' this l m) by done. by rewrite Hres. }
  split; [by eapply lookup_lt_Some|]. split.
  - rewrite Hget; [done|].
    apply (method_reserved _ Fstringify). unfold methods. set_solver.
  - rewrite Hget by (unfold reserved_keys; set_solver).
    intros Hc k f Hk. rewrite Hget by (by eapply method_reserved). by apply Hm.
Qed.

Lemma create_set_step this k s h :
  heap_inv h → value_inv h this → k ∈ string_keys →
  step_ok h (length h) (h ++ [CObj (Some this) (<[k := VStr s]> ∅)]).
Proof.
  intros Hinv Hval Hk.
  split; [done|]. split; [|split; [apply heap_le_app|]].
  - apply heap_inv_alloc_obj; [done|intros q [= <-]; apply Hval|].
    intros k' v Hm. apply lookup_insert_Some in Hm as [[<- <-]|[_ Hm]];
      [|by rewrite lookup_empty in Hm].
    split; [by apply value_ok_str|].
    intros Ha. destruct (keys_disjoint _ Ha Hk).
  - eapply (value_inv_child h _ this);
      [apply Hinv|apply heap_le_app|done|done|by apply list_lookup_middle|].
    intros q Hq. rewrite lookup_insert_ne, lookup_empty; [done|].
    apply reserved_not_field; auto.
Qed.

Lemma prot_value_inv h : heap_inv h → value_inv h prot_loc.
Proof.
  intros Hinv. eapply value_inv_le;
    [apply initial_heap_inv|apply Hinv|apply initial_value_inv; by right].
Qed.

Lemma element_step this value h o' h' :
  heap_inv h → element this value h = Ok (o', h') → step_ok h o' h'.
Proof.
  intros Hinv. unfold element.
  destruct (truthy (get h this "el")); [discriminate|].
  destruct (_ || _); [discriminate|].
  intros (p & Hprot & -> & ->)%create_set_inv.
  destruct (get_ok h this "prot" (inv_typed _ Hinv)) as [Hu|(_ & _ & Hp & _)];
    [congruence|].
  rewrite Hprot in Hp. specialize (Hp eq_refl). injection Hp as ->.
  apply create_set_step;
    [done|by apply prot_value_inv|unfold string_keys; set_solver].
Qed.

Lemma push_or_create_step this k value h o' h' :
  heap_inv h → value_inv h this → k ∈ array_keys →
  push_or_create this k value h = Ok (o', h') → step_ok h o' h'.
Proof.
  intros Hinv Hval Hk (-> & Hshape)%push_or_create_inv.
  assert (Hthis : this < length h) by apply Hval.
  split; [done|].
  destruct Hshape as [(a & xs & _ & Ha & ->)|[_ ->]].
  - assert (Hinv1 : heap_inv (h ++ [CObj (Some this) ∅])).
    { apply heap_inv_alloc_obj; [done|by intros q [= <-]|].
      intros k' v Hm. by rewrite lookup_empty in Hm. }
    assert (Hle : heap_le h (<[a := CArr (xs ++ [value])]> (h ++ [CObj (Some this) ∅]))).
    { eapply heap_le_trans; [apply heap_le_app|by eapply heap_le_push]. }
    split; [by eapply heap_inv_push|]. split; [done|].
    eapply (value_inv_child h _ this _ ∅); [apply Hinv|done|done|done| |done].
    rewrite list_lookup_insert_ne; [by apply list_lookup_middle|].
    intros ->. rewrite list_lookup_middle in Ha by done. discriminate.
  - split; [by apply heap_inv_alloc_obj_arr|].
    split; [apply heap_le_app|].
    eapply (value_inv_child h _ this);
      [apply Hinv|apply heap_le_app|done|done|by apply list_lookup_middle|].
    intros q Hq. rewrite lookup_insert_ne, lookup_empty; [done|].
    apply reserved_not_field; auto.
Qed.

Lemma call_step o name value h o' h' :
  heap_inv h → value_inv h o → call o name value h = Ok (o', h') →
  step_ok h o' h'.
Proof.
  intros Hinv Hval. unfold call.
  destruct (get h o name) as [|s|l|[]]; try discriminate.
  - by apply element_step.
  - unfold id. destruct (truthy _); [discriminate|].
    destruct (_ || _); [discriminate|].
    intros (p & [= <-] & -> & ->)%create_set_inv.
    apply create_set_step; [done..|unfold string_keys; set_solver].
  - unfold class. destruct (_ || _); [discriminate|].
    apply push_or_create_step; [done..|unfold array_keys; set_solver].
  - unfold attr. destruct (_ || _); [discriminate|].
    apply push_or_create_step; [done..|unfold array_keys; set_solver].
  - unfold pseudoClass. destruct (truthy _); [discriminate|].
    apply push_or_create_step; [done..|unfold array_keys; set_solver].
  - unfold pseudoElement. destruct (truthy _); [discriminate|].
    intros (p & [= <-] & -> & ->)%create_set_inv.
    apply create_set_step; [done..|unfold string_keys; set_solver].
Qed.

Lemma combined_nonempty a c b : (a +:+ (" " +:+ c) +:+ " ") +:+ b ≠ "".
Proof. destruct a; simpl; discriminate. Qed.

Lemma combine_inv this s1 c s2 h o' h' :
  combine this s1 c s2 h = Ok (o', h') →
  ∃ a b, call_stringify s1 h = Ok a ∧ call_stringify s2 h = Ok b
         ∧ o' = length h
         ∧ h' = h ++ [CObj None
                        (<["combined" := VStr ((a +:+ (" " +:+ c) +:+ " ") +:+ b)]>
                           (<["selectors1" := VRef s1]>
                              (<["selectors2" := VRef s2]>
                                 (<["stringify" := get h this "stringify"]> ∅))))].
Proof.
  unfold combine, bind, lift, gets, alloc.
  destruct (call_stringify s1 h) as [a| |]; try discriminate. simpl.
  destruct (call_stringify s2 h) as [b| |]; try discriminate. simpl.
  intros [= <- <-]. eauto 10.
Qed.

Lemma combine_step this s1 c s2 h o' h' :
  heap_inv h → value_inv h this → combine this s1 c s2 h = Ok (o', h') →
  step_ok h o' h'.
Proof.
  intros Hinv (Hthis & Hstr & _) (a & b & _ & _ & -> & ->)%combine_inv.
  split; [done|]. split; [|split; [apply heap_le_app|]].
  - apply heap_inv_alloc_obj; [done|done|].
    intros k v Hm. split.
    + repeat split; intros Hk; [key_cases Hk|key_cases Hk|subst k|subst k];
        simplify_map_eq; eauto using combined_nonempty.
    + intros Hk. key_cases Hk; simplify_map_eq.
  - split; [rewrite length_app; simpl; lia|]. split.
    + erewrite get_orphan by (by apply list_lookup_middle). by simplify_map_eq.
    + erewrite get_orphan by (by apply list_lookup_middle). by simplify_map_eq.
Qed.

Theorem reachable_inv h vals :
  reachable h vals → heap_inv h ∧ ∀ o, o ∈ vals → value_inv h o.
Proof.
  induction 1 as [|h vals o name value o' h' _ [Hinv Hvals] Ho Hcall
                  |h vals o s1 c s2 o' h' _ [Hinv Hvals] Ho Hs1 Hs2 Hcall].
  - split; [apply initial_heap_inv|].
    intros o ->%list_elem_of_singleton. apply initial_value_inv. by left.
  - destruct (call_step _ _ _ _ _ _ Hinv (Hvals _ Ho) Hcall) as (_ & Hinv' & Hle & Hv).
    split; [done|]. intros x [->|Hx]%elem_of_cons; [done|].
    eapply value_inv_le; [apply Hinv|done|by apply Hvals].
  - assert (Hc : combine o s1 c s2 h = Ok (o', h')).
    { unfold call_combine in Hcall.
      by destruct (get h o "combine") as [|?|?|[]]. }
    destruct (combine_step _ _ _ _ _ _ _ Hinv (Hvals _ Ho) Hc) as (_ & Hinv' & Hle & Hv).
    split; [done|]. intros x [->|Hx]%elem_of_cons; [done|].
    eapply value_inv_le; [apply Hinv|done|by apply Hvals].
Qed.

(** ** Strings *)

Lemma append_assoc (a b c : string) : (a +:+ b) +:+ c = a +:+ (b +:+ c).
Proof.
  induction a as [|x a IH]; [reflexivity|].
  change (String x ((a +:+ b) +:+ c) = String x (a +:+ (b +:+ c))).
  by f_equal.
Qed.

Lemma append_empty_r (a : string) : a +:+ "" = a.
Proof.
  induction a as [|x a IH]; [reflexivity|].
  change (String x (a +:+ "") = String x a). by f_equal.
Qed.

Lemma forEach_concat_spec sep xs r :
  forEach_concat sep xs r
  = r +:+ String.concat "" (map (fun s => sep +:+ s) xs).
Proof.
  unfold forEach_concat. revert r.
  induction xs as [|x xs IH]; intros r; simpl.
  - by rewrite append_empty_r.
  - rewrite IH, !append_assoc. f_equal. f_equal.
    destruct xs; simpl; [by rewrite append_empty_r|reflexivity].
Qed.

(** ** Fields and the stringified form *)

Lemma fields_of_Some h o s :
  fields_of h o = Some s ↔
  get h o "combined" = VUndef
  ∧ string_field (get h o "el") = Some (sel_element s)
  ∧ string_field (get h o "elID") = Some (sel_id s)
  ∧ array_field h (get h o "elClass") = Some (sel_classes s)
  ∧ array_field h (get h o "elAttrs") = Some (sel_attributes s)
  ∧ array_field h (get h o "elPseudoClass") = Some (sel_pseudoClasses s)
  ∧ string_field (get h o "elPseudoElement") = Some (sel_pseudoElement s).
Proof.
  unfold fields_of.
  destruct (get h o "combined");
    try (split; [discriminate|intros [? _]; discriminate]).
  destruct (string_field (get h o "el")) as [e|]; simpl;
    [|split; [discriminate|intros (_ & ? & _); discriminate]].
  destruct (string_field (get h o "elID")) as [i|]; simpl;
    [|split; [discriminate|intros (_ & _ & ? & _); discriminate]].
  destruct (array_field h (get h o "elClass")) as [cs|]; simpl;
    [|split; [discriminate|intros (_ & _ & _ & ? & _); discriminate]].
  destruct (array_field h (get h o "elAttrs")) as [ats|]; simpl;
    [|split; [discriminate|intros (_ & _ & _ & _ & ? & _); discriminate]].
  destruct (array_field h (get h o "elPseudoClass")) as [pcs|]; simpl;
    [|split; [discriminate|intros (_ & _ & _ & _ & _ & ? & _); discriminate]].
  destruct (string_field (get h o "elPseudoElement")) as [pe|]; simpl;
    [|split; [discriminate|intros (_ & _ & _ & _ & _ & _ & ?); discriminate]].
  split.
  - intros [= <-]. simpl. done.
  - destruct s as [e' i' cs' ats' pcs' pe']. simpl.
    intros (_ & [= ->] & [= ->] & [= ->] & [= ->] & [= ->] & [= ->]). done.
Qed.

Lemma string_field_truthy v f :
  string_field v = Some f → truthy v = filled f.
Proof. destruct v as [|[|]| |]; intros [= <-]; reflexivity. Qed.

Lemma array_field_truthy h v f :
  array_field h v = Some f → truthy v = is_set f.
Proof.
  destruct v as [| |a|]; simpl; try discriminate.
  - by intros [= <-].
  - destruct (h !! a) as [[|xs]|]; try discriminate. by intros [= <-].
Qed.

(** The guards of the six builder methods, read off the fields. *)
Lemma guards_of_fields h o s :
  fields_of h o = Some s →
  truthy (get h o "el") = filled (sel_element s)
  ∧ truthy (get h o "elID") = filled (sel_id s)
  ∧ truthy (get h o "elClass") = is_set (sel_classes s)
  ∧ truthy (get h o "elAttrs") = is_set (sel_attributes s)
  ∧ truthy (get h o "elPseudoClass") = is_set (sel_pseudoClasses s)
  ∧ truthy (get h o "elPseudoElement") = filled (sel_pseudoElement s).
Proof.
  intros (_ & He & Hi & Hc & Ha & Hp & Hpe)%fields_of_Some.
  repeat split;
    first [by apply string_field_truthy | by eapply array_field_truthy].
Qed.

Lemma string_segment r prefix v f :
  string_field v = Some f →
  (if truthy v then concat (r +:+ prefix) v else Ok r)
  = Ok (r +:+ prefixed prefix (nonempty f)).
Proof.
  destruct v as [|[|c t]| |]; intros [= <-]; simpl;
    rewrite ?append_empty_r, ?append_assoc; reflexivity.
Qed.

Lemma first_segment v f :
  string_field v = Some f →
  (if truthy v then concat "" v else Ok "") = Ok (prefixed "" (nonempty f)).
Proof. destruct v as [|[|c t]| |]; intros [= <-]; reflexivity. Qed.

Lemma array_segment h v f :
  array_field h v = Some f →
  nonempty_array h v
  = Ok (match f with Some (x :: xs) => Some (x :: xs) | _ => None end).
Proof.
  destruct v as [| |a|]; simpl; try discriminate.
  - by intros [= <-].
  - destruct (h !! a) as [[|[|x xs]]|]; try discriminate; by intros [= <-].
Qed.

Lemma each_segment sep f r :
  match match f with Some (x :: xs) => Some (x :: xs) | _ => None end with
  | Some xs => forEach_concat sep xs r
  | None => r
  end = r +:+ each_prefixed sep f.
Proof.
  destruct f as [[|x xs]|]; simpl; rewrite ?append_empty_r; try reflexivity.
  apply (forEach_concat_spec sep (x :: xs)).
Qed.

Lemma bracket_segment f r :
  match match f with Some (x :: xs) => Some (x :: xs) | _ => None end with
  | Some xs => ((r +:+ "[") +:+ hd "undefined" xs) +:+ "]"
  | None => r
  end = r +:+ first_bracketed f.
Proof.
  destruct f as [[|x xs]|]; simpl; rewrite ?append_empty_r; try reflexivity.
  by rewrite !append_assoc.
Qed.

Lemma stringify_fields_correct h o s :
  fields_of h o = Some s → stringify o h = Ok (stringify_fields s).
Proof.
  intros (Hcomb & He & Hi & Hc & Ha & Hp & Hpe)%fields_of_Some.
  unfold stringify. rewrite Hcomb. simpl truthy. cbv iota.
  rewrite (first_segment _ _ He). cbn [obind].
  rewrite (string_segment _ "#" _ _ Hi). cbn [obind].
  rewrite (array_segment _ _ _ Hc). cbn [obind]. rewrite each_segment.
  rewrite (array_segment _ _ _ Ha). cbn [obind]. rewrite bracket_segment.
  rewrite (array_segment _ _ _ Hp). cbn [obind]. rewrite each_segment.
  rewrite (string_segment _ "::" _ _ Hpe).
  unfold stringify_fields. by rewrite !append_assoc.
Qed.

(** ** Every selector value is simple or combined, and stringifies *)

Lemma typed_string_field h o k :
  typed h → k ∈ string_keys → ∃ f, string_field (get h o k) = Some f.
Proof.
  intros Hty Hk. destruct (get_ok h o k Hty) as [->|(Hs & _)]; [by eexists|].
  destruct (Hs Hk) as [->|[s ->]]; by eexists.
Qed.

Lemma typed_array_field h o k :
  typed h → k ∈ array_keys → ∃ f, array_field h (get h o k) = Some f.
Proof.
  intros Hty Hk. destruct (get_ok h o k Hty) as [->|(_ & Ha & _)]; [by eexists|].
  destruct (Ha Hk) as [->|(a & xs & -> & Hc)]; [by eexists|].
  simpl. rewrite Hc. by eexists.
Qed.

Lemma value_shape h o :
  typed h →
  (∃ s, fields_of h o = Some s)
  ∨ (∃ c, get h o "combined" = VStr c ∧ c ≠ "").
Proof.
  intros Hty.
  destruct (get_ok h o "combined" Hty) as [Hc|(_ & _ & _ & Hc)].
  - left.
    destruct (typed_string_field h o "el" Hty) as [e He];
      [unfold string_keys; set_solver|].
    destruct (typed_string_field h o "elID" Hty) as [i Hi];
      [unfold string_keys; set_solver|].
    destruct (typed_string_field h o "elPseudoElement" Hty) as [pe Hpe];
      [unfold string_keys; set_solver|].
    destruct (typed_array_field h o "elClass" Hty) as [cs Hcs];
      [unfold array_keys; set_solver|].
    destruct (typed_array_field h o "elAttrs" Hty) as [ats Hats];
      [unfold array_keys; set_solver|].
    destruct (typed_array_field h o "elPseudoClass" Hty) as [pcs Hpcs];
      [unfold array_keys; set_solver|].
    exists {| sel_element := e; sel_id := i; sel_classes := cs;
              sel_attributes := ats; sel_pseudoClasses := pcs;
              sel_pseudoElement := pe |}.
    apply fields_of_Some. simpl. done.
  - right. destruct (Hc eq_refl) as (c & -> & Hne). eauto.
Qed.

Lemma stringify_combined h o c :
  get h o "combined" = VStr c → c ≠ "" → stringify o h = Ok c.
Proof.
  intros Hc Hne. unfold stringify. rewrite Hc.
  destruct c; [done|reflexivity].
Qed.

Lemma stringify_total h o : typed h → ∃ r, stringify o h = Ok r.
Proof.
  intros Hty. destruct (value_shape h o Hty) as [[s Hs]|(c & Hc & Hne)].
  - eauto using stringify_fields_correct.
  - eauto using stringify_combined.
Qed.

Lemma call_stringify_value h o :
  value_inv h o → call_stringify o h = stringify o h.
Proof. intros (_ & Hs & _). unfold call_stringify. by rewrite Hs. Qed.

(** ** The fields after [class], [attr] and [pseudoClass] *)

Lemma array_field_stable h h' v :
  (∀ a, v = VRef a → h' !! a = h !! a) → array_field h' v = array_field h v.
Proof. destruct v as [| |a|]; simpl; try done. intros Ha. by rewrite Ha. Qed.

Lemma push_or_create_shape h o k v f :
  protos_older h → o < length h →
  array_field h (get h o k) = Some f →
  ∃ h', push_or_create o k v h = Ok (length h, h')
        ∧ heap_le h h'
        ∧ (∀ k', k' ≠ k → get h' (length h) k' = get h o k')
        ∧ array_field h' (get h' (length h) k) = Some (append_field f v)
        ∧ (∀ a, a < length h → get h o k ≠ VRef a → h' !! a = h !! a)
        ∧ (∀ a xs, get h o k = VRef a → h !! a = Some (CArr xs) →
             h' !! a = Some (CArr (xs ++ [v]))).
Proof.
  intros Hold Ho Hf.
  assert (Hcur : get (h ++ [CObj (Some o) ∅]) (length h) k = get h o k).
  { rewrite (get_child h _ o (length h) ∅);
      [by rewrite lookup_empty|done|apply heap_le_app|done|done|].
    by apply list_lookup_middle. }
  unfold push_or_create, bind. simpl. unfold gets, alloc, ret. rewrite Hcur.
  destruct (get h o k) as [| |a|] eqn:Hk; simpl in Hf; try discriminate.
  - (* the sequence is absent: a new array *)
    injection Hf as <-. simpl.
    rewrite <- app_assoc. simpl. rewrite set_own_middle.
    eexists. split; [reflexivity|].
    assert (Hcell : (h ++ [CObj (Some o) (<[k := VRef (length (h ++ [CObj (Some o) ∅]))]> ∅);
                           CArr [v]]) !! length h
                    = Some (CObj (Some o) (<[k := VRef (length (h ++ [CObj (Some o) ∅]))]> ∅)))
      by (by apply list_lookup_middle).
    split; [apply heap_le_app|]. split; [|split; [|split]].
    + intros k' Hne.
      rewrite (get_child h _ o (length h) _ k' Hold (heap_le_app _ _) Ho (le_n _) Hcell).
      rewrite lookup_insert_ne, lookup_empty by done. reflexivity.
    + rewrite (get_child h _ o (length h) _ k Hold (heap_le_app _ _) Ho (le_n _) Hcell).
      rewrite lookup_insert_eq. simpl.
      rewrite lookup_app_r by (rewrite length_app; simpl; lia).
      rewrite length_app. simpl.
      replace (length h + 1 - length h) with 1 by lia. reflexivity.
    + intros a Ha _. by rewrite lookup_app_l.
    + intros a xs [=].
  - (* the sequence is there: push *)
    destruct (h !! a) as [[|xs]|] eqn:Ha; try discriminate.
    injection Hf as <-. simpl.
    assert (Hlt : a < length h) by (by eapply lookup_lt_Some).
    rewrite lookup_app_l, Ha by done.
    eexists. split; [reflexivity|].
    assert (Hle : heap_le h (<[a := CArr (xs ++ [v])]> (h ++ [CObj (Some o) ∅]))).
    { eapply heap_le_trans; [apply heap_le_app|].
      eapply heap_le_push. by apply lookup_app_l_Some. }
    assert (Hcell : (<[a := CArr (xs ++ [v])]> (h ++ [CObj (Some o) ∅])) !! length h
                    = Some (CObj (Some o) ∅)).
    { rewrite list_lookup_insert_ne by lia. by apply list_lookup_middle. }
    split; [done|]. split; [|split; [|split]].
    + intros k' _.
      rewrite (get_child h _ o (length h) _ k' Hold Hle Ho (le_n _) Hcell).
      by rewrite lookup_empty.
    + rewrite (get_child h _ o (length h) _ k Hold Hle Ho (le_n _) Hcell).
      rewrite lookup_empty, Hk. simpl.
      rewrite list_lookup_insert_eq by (rewrite length_app; lia). reflexivity.
    + intros b Hb Hne. rewrite list_lookup_insert_ne by congruence.
      by rewrite lookup_app_l.
    + intros b ys [= <-] Hb. rewrite Ha in Hb. injection Hb as <-.
      apply list_lookup_insert_eq. rewrite length_app. lia.
Qed.

Lemma other_array h o k k' a :
  heap_inv h → k ∈ array_keys → k' ∈ array_keys → k' ≠ k →
  get h o k' = VRef a → a < length h ∧ get h o k ≠ VRef a.
Proof.
  intros Hinv Hk Hk' Hne Hget.
  assert (Hown : owns h k' (VRef a)) by (rewrite <- Hget; apply get_owns; by rewrite Hget).
  split; [by eapply owned_array_allocated; [apply Hinv|..]|].
  intros Hget'. apply Hne. eapply (inv_alias _ Hinv); [done..|].
  rewrite <- Hget'. apply get_owns. by rewrite Hget'.
Qed.

Lemma push_or_create_fields h o k v s :
  heap_inv h → o < length h → fields_of h o = Some s → k ∈ array_keys →
  ∃ h', push_or_create o k v h = Ok (length h, h')
        ∧ fields_of h' (length h) = Some (pushed k v s).
Proof.
  intros Hinv Ho (Hcomb & He & Hi & Hc & Ha & Hp & Hpe)%fields_of_Some Hk.
  assert (Hother : ∀ h' k' f,
    k' ∈ array_keys → k' ≠ k →
    (∀ a, a < length h → get h o k ≠ VRef a → h' !! a = h !! a) →
    array_field h (get h o k') = Some f →
    array_field h' (get h o k') = Some f).
  { intros h' k' f Hk' Hne Hsame <-.
    apply array_field_stable. intros a Hka.
    destruct (other_array h o k k' a Hinv Hk Hk' Hne Hka). by apply Hsame. }
  key_cases Hk.
  - destruct (push_or_create_shape h o "elClass" v _ (inv_protos _ Hinv) Ho Hc)
      as (h' & Hrun & _ & Hget & Hnew & Hsame & _).
    exists h'. split; [done|]. apply fields_of_Some. simpl.
    rewrite (Hget "combined"), (Hget "el"), (Hget "elID"), (Hget "elAttrs"), (Hget "elPseudoClass"), (Hget "elPseudoElement") by done.
    repeat split; try done.
    + apply Hother; [unfold array_keys; set_solver|done..].
    + apply Hother; [unfold array_keys; set_solver|done..].
  - destruct (push_or_create_shape h o "elAttrs" v _ (inv_protos _ Hinv) Ho Ha)
      as (h' & Hrun & _ & Hget & Hnew & Hsame & _).
    exists h'. split; [done|]. apply fields_of_Some. simpl.
    rewrite (Hget "combined"), (Hget "el"), (Hget "elID"), (Hget "elClass"), (Hget "elPseudoClass"), (Hget "elPseudoElement") by done.
    repeat split; try done.
    + apply Hother; [unfold array_keys; set_solver|done..].
    + apply Hother; [unfold array_keys; set_solver|done..].
  - destruct (push_or_create_shape h o "elPseudoClass" v _ (inv_protos _ Hinv) Ho Hp)
      as (h' & Hrun & _ & Hget & Hnew & Hsame & _).
    exists h'. split; [done|]. apply fields_of_Some. simpl.
    rewrite (Hget "combined"), (Hget "el"), (Hget "elID"), (Hget "elClass"), (Hget "elAttrs"), (Hget "elPseudoElement") by done.
    repeat split; try done.
    + apply Hother; [unfold array_keys; set_solver|done..].
    + apply Hother; [unfold array_keys; set_solver|done..].
Qed.

(** ** Chains of calls stay within the reachable heaps *)

Lemma is_ok_inv {A} (x : outcome A) : is_ok x = true → ∃ r, x = Ok r.
Proof. destruct x; [eauto|discriminate..]. Qed.

Lemma reachable_chain calls : ∀ h vals o o' h',
  reachable h vals → o ∈ vals → chain calls o h = Ok (o', h') →
  ∃ vals', reachable h' vals' ∧ o' ∈ vals' ∧ ∀ x, x ∈ vals → x ∈ vals'.
Proof.
  induction calls as [|[name value] calls IH]; intros h vals o o' h' Hr Ho Hrun.
  - injection Hrun as <- <-. eauto.
  - simpl in Hrun. unfold bind in Hrun.
    destruct (call o name value h) as [[o1 h1]| |] eqn:Hcall; try discriminate.
    destruct (IH h1 (o1 :: vals) o1 o' h') as (vals' & Hr' & Ho' & Hsub);
      [by eapply reachable_call|set_solver|done|].
    exists vals'. split; [done|]. split; [done|]. intros x Hx. apply Hsub. set_solver.
Qed.

Lemma builder_get h k :
  heap_inv h → get h cssSelectorBuilder k = get initial_heap cssSelectorBuilder k.
Proof.
  intros Hinv. apply get_le; [apply initial_heap_inv|apply Hinv|].
  rewrite initial_heap_eq. unfold cssSelectorBuilder. simpl. lia.
Qed.

Lemma builder_fields h :
  heap_inv h → fields_of h cssSelectorBuilder = Some empty_selector.
Proof.
  intros Hinv. apply fields_of_Some. rewrite !(builder_get h) by done.
  vm_compute. done.
Qed.

Lemma after_reachable calls :
  chain_ok calls = true →
  ∃ vals, reachable (heap_after calls) vals
          ∧ value_after calls ∈ vals ∧ cssSelectorBuilder ∈ vals.
Proof.
  unfold chain_ok, is_ok, heap_after, value_after.
  destruct (chain calls cssSelectorBuilder initial_heap) as [[o h]| |] eqn:Hrun;
    try discriminate.
  intros _.
  destruct (reachable_chain calls initial_heap [cssSelectorBuilder]
              cssSelectorBuilder o h)
    as (vals & Hr & Ho & Hsub); [apply reachable_load|set_solver|done|].
  exists vals. split; [done|]. split; [done|]. apply Hsub. set_solver.
Qed.

(** ** The effect of a push on the selectors that are already there *)

Lemma array_field_after_push h h' o k v o2 k' f2 :
  heap_inv h → k ∈ array_keys → k' ∈ array_keys →
  (∀ a, a < length h → get h o k ≠ VRef a → h' !! a = h !! a) →
  (∀ a xs, get h o k = VRef a → h !! a = Some (CArr xs) →
     h' !! a = Some (CArr (xs ++ [v]))) →
  array_field h (get h o2 k') = Some f2 →
  array_field h' (get h o2 k')
  = Some (if decide (k' = k ∧ get h o2 k = get h o k ∧ get h o k ≠ VUndef)
          then append_field f2 v else f2).
Proof.
  intros Hinv Hk Hk' Hsame Hpush Hf.
  destruct (get h o2 k') as [| |a|] eqn:Hget; simpl in Hf; try discriminate.
  - injection Hf as <-. simpl. case_decide as Hd; [|done].
    destruct Hd as (-> & Heq & Hne). congruence.
  - destruct (h !! a) as [[|ys]|] eqn:Ha; try discriminate.
    injection Hf as <-. simpl.
    destruct (decide (get h o k = VRef a)) as [Hshared|Hnot].
    + assert (k' = k) as ->.
      { eapply (inv_alias _ Hinv _ _ a); [done..| |].
        - rewrite <- Hget. apply get_owns. by rewrite Hget.
        - rewrite <- Hshared. apply get_owns. by rewrite Hshared. }
      rewrite (Hpush _ _ Hshared Ha).
      rewrite decide_True; [done|]. split; [done|]. split; congruence.
    + rewrite Hsame, Ha; [|by eapply lookup_lt_Some|done].
      rewrite decide_False; [done|]. intros (-> & Heq & _). congruence.
Qed.

Lemma push_or_create_others h o k v s h' o' o2 s2 :
  heap_inv h → o < length h → o2 < length h →
  fields_of h o = Some s → fields_of h o2 = Some s2 → k ∈ array_keys →
  push_or_create o k v h = Ok (o', h') →
  fields_of h' o2
  = Some (if decide (get h o2 k = get h o k ∧ get h o k ≠ VUndef)
          then pushed k v s2 else s2).
Proof.
  intros Hinv Ho Ho2 Hs (Hcomb & He & Hi & Hc & Ha & Hp & Hpe)%fields_of_Some
    Hk Hrun.
  assert (Hf : ∃ f, array_field h (get h o k) = Some f).
  { apply fields_of_Some in Hs as (_ & _ & _ & Hc' & Ha' & Hp' & _).
    key_cases Hk; eauto. }
  destruct Hf as [f Hf].
  destruct (push_or_create_shape h o k v f (inv_protos _ Hinv) Ho Hf)
    as (h'' & Hrun' & Hle & _ & _ & Hsame & Hpush).
  rewrite Hrun in Hrun'. injection Hrun' as -> <-.
  assert (Hget : ∀ q, get h' o2 q = get h o2 q)
    by (intros q; apply get_le; [apply Hinv|done..]).
  pose proof (λ k' f2 Hk', array_field_after_push h h' o k v o2 k' f2
                Hinv Hk Hk' Hsame Hpush) as Harr.
  apply fields_of_Some. rewrite !Hget.
  key_cases Hk.
  - pose proof (Harr "elClass" (sel_classes s2)
                  ltac:(unfold array_keys; set_solver) Hc) as Hc'.
    pose proof (Harr "elAttrs" (sel_attributes s2)
                  ltac:(unfold array_keys; set_solver) Ha) as Ha'.
    pose proof (Harr "elPseudoClass" (sel_pseudoClasses s2)
                  ltac:(unfold array_keys; set_solver) Hp) as Hp'.
    rewrite decide_False in Ha' by (by intros [? _]).
    rewrite decide_False in Hp' by (by intros [? _]).
    destruct (decide (get h o2 "elClass" = get h o "elClass"
                      ∧ get h o "elClass" ≠ VUndef)) as [Hd|Hd].
    + rewrite decide_True in Hc' by done. done.
    + rewrite decide_False in Hc' by (by intros [_ ?]). done.
  - pose proof (Harr "elClass" (sel_classes s2)
                  ltac:(unfold array_keys; set_solver) Hc) as Hc'.
    pose proof (Harr "elAttrs" (sel_attributes s2)
                  ltac:(unfold array_keys; set_solver) Ha) as Ha'.
    pose proof (Harr "elPseudoClass" (sel_pseudoClasses s2)
                  ltac:(unfold array_keys; set_solver) Hp) as Hp'.
    rewrite decide_False in Hc' by (by intros [? _]).
    rewrite decide_False in Hp' by (by intros [? _]).
    destruct (decide (get h o2 "elAttrs" = get h o "elAttrs"
                      ∧ get h o "elAttrs" ≠ VUndef)) as [Hd|Hd].
    + rewrite decide_True in Ha' by done. done.
    + rewrite decide_False in Ha' by (by intros [_ ?]). done.
  - pose proof (Harr "elClass" (sel_classes s2)
                  ltac:(unfold array_keys; set_solver) Hc) as Hc'.
    pose proof (Harr "elAttrs" (sel_attributes s2)
                  ltac:(unfold array_keys; set_solver) Ha) as Ha'.
    pose proof (Harr "elPseudoClass" (sel_pseudoClasses s2)
                  ltac:(unfold array_keys; set_solver) Hp) as Hp'.
    rewrite decide_False in Hc' by (by intros [? _]).
    rewrite decide_False in Ha' by (by intros [? _]).
    destruct (decide (get h o2 "elPseudoClass" = get h o "elPseudoClass"
                      ∧ get h o "elPseudoClass" ≠ VUndef)) as [Hd|Hd].
    + rewrite decide_True in Hp' by done. done.
    + rewrite decide_False in Hp' by (by intros [_ ?]). done.
Qed.

(** ** Stringifying in a heap that has grown by allocation *)

Lemma nonempty_array_app h t o k :
  typed h → k ∈ array_keys →
  nonempty_array (h ++ t) (get h o k) = nonempty_array h (get h o k).
Proof.
  intros Hty Hk. destruct (get_ok h o k Hty) as [->|(_ & Ha & _)]; [done|].
  destruct (Ha Hk) as [->|(a & xs & -> & Hc)]; [done|].
  simpl. by rewrite (lookup_app_l_Some _ _ _ _ Hc), Hc.
Qed.

Lemma stringify_app h t o :
  heap_inv h → o < length h → stringify o (h ++ t) = stringify o h.
Proof.
  intros Hinv Ho. unfold stringify.
  rewrite !(get_le h (h ++ t)) by (try apply Hinv; try apply heap_le_app; done).
  rewrite !nonempty_array_app
    by (try apply Hinv; unfold array_keys; set_solver).
  reflexivity.
Qed.

Lemma call_stringify_app h t o :
  heap_inv h → o < length h → call_stringify o (h ++ t) = call_stringify o h.
Proof.
  intros Hinv Ho. unfold call_stringify.
  rewrite (get_le h (h ++ t)) by (try apply Hinv; try apply heap_le_app; done).
  by rewrite stringify_app.
Qed.

Lemma combine_run this s1 c s2 h a b :
  call_stringify s1 h = Ok a → call_stringify s2 h = Ok b →
  combine this s1 c s2 h
  = Ok (length h,
        h ++ [CObj None
                (<["combined" := VStr ((a +:+ (" " +:+ c) +:+ " ") +:+ b)]>
                   (<["selectors1" := VRef s1]>
                      (<["selectors2" := VRef s2]>
                         (<["stringify" := get h this "stringify"]> ∅))))]).
Proof.
  intros Ha Hb. unfold combine, bind, lift, gets, alloc.
  rewrite Ha. simpl. rewrite Hb. reflexivity.
Qed.

(** ** The example of the documentation comment *)

Example documented_example_stringify :
  (r <~ documented_example initial_heap ;; call_stringify (fst r) (snd r))%js
  = Ok "div#main.container.draggable + table#data ~ tr:nth-of-type(even)   td:nth-of-type(even)".
Proof. vm_compute. reflexivity. Qed.

(** ** Calls on simple selector values *)

(** On a simple selector value the six builder names are bound to the six
    builder methods. *)
Lemma simple_has_methods h o s :
  value_inv h o → fields_of h o = Some s → has_methods h o.
Proof. intros (_ & _ & Hm) [Hc _]%fields_of_Some. by apply Hm. Qed.

Lemma call_simple h o s v :
  value_inv h o → fields_of h o = Some s →
  call o "element" v h = element o v h
  ∧ call o "id" v h = id o v h
  ∧ call o "class" v h = class o v h
  ∧ call o "attr" v h = attr o v h
  ∧ call o "pseudoClass" v h = pseudoClass o v h
  ∧ call o "pseudoElement" v h = pseudoElement o v h.
Proof.
  intros Hval Hs. pose proof (simple_has_methods _ _ _ Hval Hs) as Hm.
  unfold call.
  rewrite (Hm "element" Felement), (Hm "id" Fid), (Hm "class" Fclass),
    (Hm "attr" Fattr), (Hm "pseudoClass" FpseudoClass),
    (Hm "pseudoElement" FpseudoElement) by (unfold methods; set_solver).
  done.
Qed.

Lemma later_than_attr_guard h o s :
  fields_of h o = Some s →
  truthy (get h o "elPseudoClass") || truthy (get h o "elPseudoElement")
  = later_than_attr s.
Proof.
  intros (_ & _ & _ & _ & Hp & Hpe)%guards_of_fields. by rewrite Hp, Hpe.
Qed.

Lemma later_than_class_guard h o s :
  fields_of h o = Some s →
  truthy (get h o "elAttrs") || truthy (get h o "elPseudoClass")
  || truthy (get h o "elPseudoElement")
  = later_than_class s.
Proof.
  intros (_ & _ & _ & Ha & Hp & Hpe)%guards_of_fields. by rewrite Ha, Hp, Hpe.
Qed.

(** A push on a simple selector value with the guard passed: the call
    succeeds, and the new value has the receiver's fields with [v] added to
    the sequence [k]. *)
Lemma push_call h vals o s k v :
  reachable h vals → o ∈ vals → fields_of h o = Some s → k ∈ array_keys →
  ∃ h', push_or_create o k v h = Ok (length h, h')
        ∧ fields_of h' (length h) = Some (pushed k v s)
        ∧ value_inv h' (length h)
        ∧ value_inv h' o
        ∧ fields_of h' o
          = Some (if decide (get h o k ≠ VUndef) then pushed k v s else s).
Proof.
  intros [Hinv Hvals]%reachable_inv Ho Hs Hk.
  pose proof (Hvals _ Ho) as Hval. assert (Hlt : o < length h) by apply Hval.
  destruct (push_or_create_fields h o k v s Hinv Hlt Hs Hk) as (h' & Hrun & Hnew).
  exists h'. split; [done|]. split; [done|].
  destruct (push_or_create_step o k v h _ _ Hinv Hval Hk Hrun)
    as (_ & Hinv' & Hle & Hval').
  split; [done|]. split; [by eapply value_inv_le; [apply Hinv|..]|].
  rewrite (push_or_create_others h o k v s h' _ o s Hinv Hlt Hlt Hs Hs Hk Hrun).
  f_equal. destruct (decide (get h o k ≠ VUndef)) as [Hne|He].
  - by rewrite decide_True.
  - rewrite decide_False; [done|]. by intros [_ ?].
Qed.

(** ** The claims about the selector builder *)

(** C1, on the code.  [const s = cssSelectorBuilder.class('a')] stringifies
    to ['.a']; after [s.class('b')] the same [s] stringifies to ['.a.b']:
    the call pushed onto the array that [s] reads its classes from.  The
    same happens with [pseudoClass]. *)
Theorem class_mutates_receiver :
  call_stringify (value_after [("class", "a")]) (heap_after [("class", "a")])
  = Ok ".a"
  ∧ receiver_after (value_after [("class", "a")]) "class" "b"
      (heap_after [("class", "a")])
    = Ok ".a.b"
  ∧ call_stringify (value_after [("pseudoClass", "hover")])
      (heap_after [("pseudoClass", "hover")])
    = Ok ":hover"
  ∧ receiver_after (value_after [("pseudoClass", "hover")]) "pseudoClass" "focus"
      (heap_after [("pseudoClass", "hover")])
    = Ok ":hover:focus".
Proof. repeat split; vm_compute; reflexivity. Qed.

(** C2, as amended.  For every simple selector value, [stringify()] returns
    the concatenation, in this order, of: the element, if set; ['#'] and the id, if
    the id is set to a non-empty string; each class in the order of its
    array, prefixed with ['.']; the first attribute only, in brackets; each
    pseudo-class, prefixed with [':']; ['::'] and the pseudo-element, if it
    is set to a non-empty string.  The two examples of the specification
    evaluate as stated. *)
Theorem simple_selector_stringify :
  (∀ h vals o s,
     reachable h vals → o ∈ vals → fields_of h o = Some s →
     call_stringify o h = Ok (stringify_fields s))
  ∧ chain_stringify [("id", "main"); ("class", "container"); ("class", "editable")]
    = Ok "#main.container.editable"
  ∧ chain_stringify
      [("element", "a"); ("attr", "href$=" +:+ dquote +:+ ".png" +:+ dquote);
       ("pseudoClass", "focus")]
    = Ok ("a[href$=" +:+ dquote +:+ ".png" +:+ dquote +:+ "]:focus").
Proof.
  split; [|split; vm_compute; reflexivity].
  intros h vals o s [Hinv Hvals]%reachable_inv Ho Hs.
  rewrite call_stringify_value by auto. by apply stringify_fields_correct.
Qed.

Lemma simple_selector_stringify_witness :
  fields_of (heap_after sample_calls) (value_after sample_calls)
  = Some sample_fields
  ∧ call_stringify (value_after sample_calls) (heap_after sample_calls)
    = Ok "div#main.container".
Proof.
  split; [vm_compute; reflexivity|].
  destruct (after_reachable sample_calls eq_refl) as (vals & Hr & Ho & _).
  apply (proj1 simple_selector_stringify _ _ _ sample_fields Hr Ho).
  vm_compute. reflexivity.
Defined.

(** C2 as stated fails on [cssSelectorBuilder.id('')]: the id is set (to the
    empty string), the stated form is ['#'], and [stringify()] returns the
    empty string. *)
Lemma empty_id_not_rendered :
  ∃ s, chain_fields [("id", "")] = Some s
       ∧ sel_id s = Some ""
       ∧ stringify_as_specified s = "#"
       ∧ chain_stringify [("id", "")] = Ok ""
       ∧ chain_stringify [("id", "")] ≠ Ok (stringify_as_specified s).
Proof.
  eexists. split; [vm_compute; reflexivity|].
  repeat split; try (vm_compute; reflexivity).
  vm_compute. discriminate.
Qed.

(** C3, as amended.  On a simple selector value, setting an earlier-order
    field after a later-order one fails with OrderError, a string field
    counting as set when it holds a non-empty string: [class(v)] fails if an
    attribute, a pseudo-class or a pseudo-element is set, [attr(v)] if a
    pseudo-class or a pseudo-element is, [pseudoClass(v)] if a
    pseudo-element is; [element(v)] and [id(v)] fail with OrderError if a
    later field is set and the field itself is not (when it is, the
    duplicate check comes first).  [.class('x').element('a')] fails with
    OrderError. *)
Theorem order_guards :
  (∀ h vals o s v,
     reachable h vals → o ∈ vals → fields_of h o = Some s →
     (filled (sel_element s) = false → later_than_element s = true →
      call o "element" v h = Throw OrderError)
     ∧ (filled (sel_id s) = false → later_than_id s = true →
        call o "id" v h = Throw OrderError)
     ∧ (later_than_class s = true → call o "class" v h = Throw OrderError)
     ∧ (later_than_attr s = true → call o "attr" v h = Throw OrderError)
     ∧ (later_than_pseudoClass s = true →
        call o "pseudoClass" v h = Throw OrderError))
  ∧ chain [("class", "x"); ("element", "a")] cssSelectorBuilder initial_heap
    = Throw OrderError.
Proof.
  split; [|vm_compute; reflexivity].
  intros h vals o s v [Hinv Hvals]%reachable_inv Ho Hs.
  destruct (call_simple h o s v (Hvals _ Ho) Hs) as (-> & -> & -> & -> & -> & _).
  destruct (guards_of_fields h o s Hs) as (He & Hi & Hc & Ha & Hp & Hpe).
  unfold element, id, class, attr, pseudoClass.
  rewrite He, Hi, Hc, Ha, Hp, Hpe.
  unfold later_than_element, later_than_id, later_than_class, later_than_attr,
    later_than_pseudoClass.
  repeat split.
  - intros -> Hl.
    destruct (filled (sel_id s)), (is_set (sel_classes s)),
      (is_set (sel_attributes s)), (is_set (sel_pseudoClasses s)),
      (filled (sel_pseudoElement s)); done.
  - intros -> Hl.
    destruct (is_set (sel_classes s)),
      (is_set (sel_attributes s)), (is_set (sel_pseudoClasses s)),
      (filled (sel_pseudoElement s)); done.
  - by intros ->.
  - by intros ->.
  - by intros ->.
Qed.

Lemma order_guards_witness :
  fields_of (heap_after after_calls) (value_after after_calls) = Some after_fields
  ∧ call (value_after after_calls) "element" "a" (heap_after after_calls)
    = Throw OrderError
  ∧ call (value_after after_calls) "id" "x" (heap_after after_calls)
    = Throw OrderError
  ∧ call (value_after after_calls) "class" "c" (heap_after after_calls)
    = Throw OrderError
  ∧ call (value_after after_calls) "attr" "href" (heap_after after_calls)
    = Throw OrderError
  ∧ call (value_after after_calls) "pseudoClass" "focus" (heap_after after_calls)
    = Throw OrderError.
Proof.
  assert (Hs : fields_of (heap_after after_calls) (value_after after_calls)
               = Some after_fields) by (vm_compute; reflexivity).
  destruct (after_reachable after_calls eq_refl) as (vals & Hr & Ho & _).
  split; [exact Hs|].
  split; [exact (proj1 (proj1 order_guards _ _ _ _ "a" Hr Ho Hs) eq_refl eq_refl)|].
  split; [exact (proj1 (proj2 (proj1 order_guards _ _ _ _ "x" Hr Ho Hs))
                   eq_refl eq_refl)|].
  split; [exact (proj1 (proj2 (proj2 (proj1 order_guards _ _ _ _ "c" Hr Ho Hs)))
                   eq_refl)|].
  split; [exact (proj1 (proj2 (proj2 (proj2
                   (proj1 order_guards _ _ _ _ "href" Hr Ho Hs)))) eq_refl)|].
  exact (proj2 (proj2 (proj2 (proj2
           (proj1 order_guards _ _ _ _ "focus" Hr Ho Hs)))) eq_refl).
Defined.

(** C3 as stated fails: after [element('a').id('x')], where the id is set,
    [element('b')] fails with DuplicateError, not OrderError; and after
    [id('')], where the id is set to the empty string, [element('a')]
    does not fail at all. *)
Lemma order_after_duplicate :
  (∃ s, chain_fields [("element", "a"); ("id", "x")] = Some s
        ∧ is_set (sel_id s) = true)
  ∧ chain [("element", "a"); ("id", "x"); ("element", "b")]
      cssSelectorBuilder initial_heap = Throw DuplicateError
  ∧ DuplicateError ≠ OrderError
  ∧ (∃ s, chain_fields [("id", "")] = Some s ∧ is_set (sel_id s) = true)
  ∧ chain_ok [("id", ""); ("element", "a")] = true.
Proof.
  split; [eexists; split; vm_compute; reflexivity|].
  split; [vm_compute; reflexivity|].
  split; [discriminate|].
  split; [eexists; split; vm_compute; reflexivity|].
  vm_compute. reflexivity.
Qed.

(** C4, as amended.  On a simple selector value, [element(v)], [id(v)] and
    [pseudoElement(v)] fail with DuplicateError when the field is already
    set to a non-empty string.  [class(v)], [attr(v)] and [pseudoClass(v)]
    never fail with DuplicateError: whenever no later-order field is set
    they succeed, whether or not the sequence is there already, and the
    value they return has [v] at the end of that sequence.
    [.id('x').id('y')] fails with DuplicateError. *)
Theorem duplicate_guards :
  (∀ h vals o s v,
     reachable h vals → o ∈ vals → fields_of h o = Some s →
     (filled (sel_element s) = true →
      call o "element" v h = Throw DuplicateError)
     ∧ (filled (sel_id s) = true → call o "id" v h = Throw DuplicateError)
     ∧ (filled (sel_pseudoElement s) = true →
        call o "pseudoElement" v h = Throw DuplicateError)
     ∧ (later_than_class s = false →
        ∃ h', call o "class" v h = Ok (length h, h')
              ∧ fields_of h' (length h) = Some (pushed "elClass" v s))
     ∧ (later_than_attr s = false →
        ∃ h', call o "attr" v h = Ok (length h, h')
              ∧ fields_of h' (length h) = Some (pushed "elAttrs" v s))
     ∧ (later_than_pseudoClass s = false →
        ∃ h', call o "pseudoClass" v h = Ok (length h, h')
              ∧ fields_of h' (length h) = Some (pushed "elPseudoClass" v s))
     ∧ call o "class" v h ≠ Throw DuplicateError
     ∧ call o "attr" v h ≠ Throw DuplicateError
     ∧ call o "pseudoClass" v h ≠ Throw DuplicateError)
  ∧ chain [("id", "x"); ("id", "y")] cssSelectorBuilder initial_heap
    = Throw DuplicateError.
Proof.
  split; [|vm_compute; reflexivity].
  intros h vals o s v Hr Ho Hs.
  destruct (reachable_inv _ _ Hr) as [Hinv Hvals].
  destruct (call_simple h o s v (Hvals _ Ho) Hs) as (-> & -> & -> & -> & -> & ->).
  destruct (guards_of_fields h o s Hs) as (He & Hi & _ & _ & _ & Hpe).
  destruct (push_call h vals o s "elClass" v Hr Ho Hs)
    as (hc & Hclass & Hfc & _); [unfold array_keys; set_solver|].
  destruct (push_call h vals o s "elAttrs" v Hr Ho Hs)
    as (ha & Hattr & Hfa & _); [unfold array_keys; set_solver|].
  destruct (push_call h vals o s "elPseudoClass" v Hr Ho Hs)
    as (hp & Hpc & Hfp & _); [unfold array_keys; set_solver|].
  unfold element, id, pseudoElement, class, attr, pseudoClass.
  rewrite (later_than_class_guard h o s Hs), (later_than_attr_guard h o s Hs),
    He, Hi, Hpe.
  unfold later_than_pseudoClass.
  repeat split.
  - by intros ->.
  - by intros ->.
  - by intros ->.
  - intros ->. eauto.
  - intros ->. eauto.
  - intros ->. eauto.
  - destruct (later_than_class s); [discriminate|]. by rewrite Hclass.
  - destruct (later_than_attr s); [discriminate|]. by rewrite Hattr.
  - destruct (filled (sel_pseudoElement s)); [discriminate|]. by rewrite Hpc.
Qed.

Lemma duplicate_guards_witness :
  (fields_of (heap_after sample_calls) (value_after sample_calls)
   = Some sample_fields
   ∧ call (value_after sample_calls) "element" "p" (heap_after sample_calls)
     = Throw DuplicateError
   ∧ call (value_after sample_calls) "id" "top" (heap_after sample_calls)
     = Throw DuplicateError
   ∧ (∃ h', call (value_after sample_calls) "class" "wide" (heap_after sample_calls)
            = Ok (length (heap_after sample_calls), h')
            ∧ fields_of h' (length (heap_after sample_calls))
              = Some (pushed "elClass" "wide" sample_fields))
   ∧ (∃ h', call (value_after sample_calls) "attr" "wide" (heap_after sample_calls)
            = Ok (length (heap_after sample_calls), h')
            ∧ fields_of h' (length (heap_after sample_calls))
              = Some (pushed "elAttrs" "wide" sample_fields))
   ∧ (∃ h', call (value_after sample_calls) "pseudoClass" "wide"
              (heap_after sample_calls)
            = Ok (length (heap_after sample_calls), h')
            ∧ fields_of h' (length (heap_after sample_calls))
              = Some (pushed "elPseudoClass" "wide" sample_fields)))
  ∧ (fields_of (heap_after after_calls) (value_after after_calls)
     = Some after_fields
     ∧ call (value_after after_calls) "pseudoElement" "before"
         (heap_after after_calls)
       = Throw DuplicateError).
Proof.
  assert (Hs : fields_of (heap_after sample_calls) (value_after sample_calls)
               = Some sample_fields) by (vm_compute; reflexivity).
  assert (Ha : fields_of (heap_after after_calls) (value_after after_calls)
               = Some after_fields) by (vm_compute; reflexivity).
  destruct (after_reachable sample_calls eq_refl) as (vals & Hr & Ho & _).
  destruct (after_reachable after_calls eq_refl) as (vals' & Hr' & Ho' & _).
  split.
  - split; [exact Hs|].
    split; [exact (proj1 (proj1 duplicate_guards _ _ _ _ "p" Hr Ho Hs) eq_refl)|].
    split; [exact (proj1 (proj2 (proj1 duplicate_guards _ _ _ _ "top" Hr Ho Hs))
                     eq_refl)|].
    pose proof (proj1 duplicate_guards _ _ _ _ "wide" Hr Ho Hs)
      as (_ & _ & _ & Hc & Hat & Hpc & _).
    split; [exact (Hc eq_refl)|]. split; [exact (Hat eq_refl)|exact (Hpc eq_refl)].
  - split; [exact Ha|].
    exact (proj1 (proj2 (proj2 (proj1 duplicate_guards _ _ _ _ "before" Hr' Ho' Ha)))
             eq_refl).
Defined.

(** C4 as stated fails when the field is set to the empty string:
    [.id('').id('y')] and [.pseudoElement('').pseudoElement('x')] succeed,
    and [.element('').element('a')] fails with a TypeError (the object made
    by [element] has no [prot] to create the next one from). *)
Lemma empty_field_set_twice :
  (∃ s, chain_fields [("id", "")] = Some s ∧ is_set (sel_id s) = true)
  ∧ chain_ok [("id", ""); ("id", "y")] = true
  ∧ (∃ s, chain_fields [("pseudoElement", "")] = Some s
          ∧ is_set (sel_pseudoElement s) = true)
  ∧ chain_ok [("pseudoElement", ""); ("pseudoElement", "x")] = true
  ∧ (∃ s, chain_fields [("element", "")] = Some s
          ∧ is_set (sel_element s) = true)
  ∧ chain [("element", ""); ("element", "a")] cssSelectorBuilder initial_heap
    = Throw TypeError.
Proof.
  split; [eexists; split; vm_compute; reflexivity|].
  split; [vm_compute; reflexivity|].
  split; [eexists; split; vm_compute; reflexivity|].
  split; [vm_compute; reflexivity|].
  split; [eexists; split; vm_compute; reflexivity|].
  vm_compute. reflexivity.
Qed.

(** C5.  For every two selector values [a] and [b] of a reachable heap,
    simple or combined, and every string [c], both stringify, and
    [cssSelectorBuilder.combine(a, c, b)] returns a new value whose
    [stringify()] is [a.stringify() + ' ' + c + ' ' + b.stringify()]; the
    combinator is not inspected.  [a] and [b] stringify as before after the
    call. *)
Theorem combine_stringify h vals a b c :
  reachable h vals → a ∈ vals → b ∈ vals →
  ∃ sa sb h',
    call_stringify a h = Ok sa ∧ call_stringify b h = Ok sb
    ∧ call_combine cssSelectorBuilder a c b h = Ok (length h, h')
    ∧ call_stringify (length h) h' = Ok (sa +:+ " " +:+ c +:+ " " +:+ sb)
    ∧ call_stringify a h' = Ok sa ∧ call_stringify b h' = Ok sb.
Proof.
  intros [Hinv Hvals]%reachable_inv Ha Hb.
  destruct (stringify_total h a (inv_typed _ Hinv)) as [sa Hsa].
  destruct (stringify_total h b (inv_typed _ Hinv)) as [sb Hsb].
  rewrite <- (call_stringify_value h a) in Hsa by auto.
  rewrite <- (call_stringify_value h b) in Hsb by auto.
  exists sa, sb. eexists. split; [done|]. split; [done|].
  assert (Hstr : get h cssSelectorBuilder "stringify" = VFun Fstringify)
    by (by rewrite builder_get).
  split; [|split; [|split]].
  - unfold call_combine. rewrite builder_get by done.
    change (get initial_heap cssSelectorBuilder "combine") with (VFun Fcombine).
    cbv iota. by apply combine_run.
  - unfold call_stringify.
    erewrite get_orphan by (by apply list_lookup_middle).
    rewrite lookup_insert_ne, lookup_insert_ne, lookup_insert_ne,
      lookup_insert_eq, Hstr by done.
    erewrite stringify_combined;
      [|erewrite get_orphan by (by apply list_lookup_middle);
        by rewrite lookup_insert_eq
       |apply combined_nonempty].
    by rewrite !append_assoc.
  - rewrite call_stringify_app; [done..|]. by apply Hvals.
  - rewrite call_stringify_app; [done..|]. by apply Hvals.
Qed.

Lemma combine_stringify_witness :
  ∃ sa sb h',
    call_stringify (value_after sample_calls) (heap_after sample_calls) = Ok sa
    ∧ call_stringify cssSelectorBuilder (heap_after sample_calls) = Ok sb
    ∧ call_combine cssSelectorBuilder (value_after sample_calls) "+"
        cssSelectorBuilder (heap_after sample_calls)
      = Ok (length (heap_after sample_calls), h')
    ∧ call_stringify (length (heap_after sample_calls)) h'
      = Ok (sa +:+ " " +:+ "+" +:+ " " +:+ sb)
    ∧ call_stringify (value_after sample_calls) h' = Ok sa
    ∧ call_stringify cssSelectorBuilder h' = Ok sb.
Proof.
  destruct (after_reachable sample_calls eq_refl) as (vals & Hr & Ho & Hb).
  exact (combine_stringify _ _ _ _ "+" Hr Ho Hb).
Defined.

(** C6.  On a simple selector value whose attribute sequence is not empty
    and on which [attr] may be called (no pseudo-class and no pseudo-element
    set), [attr(v)] succeeds and the value it returns stringifies to what
    the receiver stringified to before the call, and to what it stringifies
    to after it: only the first attribute is rendered. *)
Theorem repeated_attr_invisible h vals o s x xs v :
  reachable h vals → o ∈ vals → fields_of h o = Some s →
  sel_attributes s = Some (x :: xs) → later_than_attr s = false →
  ∃ h', call o "attr" v h = Ok (length h, h')
        ∧ call_stringify (length h) h' = call_stringify o h
        ∧ call_stringify o h' = call_stringify o h
        ∧ call_stringify o h = Ok (stringify_fields s).
Proof.
  intros Hr Ho Hs Hattrs Hlater.
  destruct (push_call h vals o s "elAttrs" v Hr Ho Hs)
    as (h' & Hrun & Hnew & Hval' & Hvalo & Hold);
    [unfold array_keys; set_solver|].
  destruct (reachable_inv _ _ Hr) as [Hinv Hvals].
  exists h'.
  assert (Heq : stringify_fields (pushed "elAttrs" v s) = stringify_fields s).
  { unfold stringify_fields, pushed. simpl. by rewrite Hattrs. }
  assert (Hnow : call_stringify o h = Ok (stringify_fields s)).
  { rewrite call_stringify_value by auto. by apply stringify_fields_correct. }
  split; [|split; [|split; [|done]]].
  - destruct (call_simple h o s v (Hvals _ Ho) Hs) as (_ & _ & _ & -> & _).
    unfold attr. by rewrite (later_than_attr_guard h o s Hs), Hlater.
  - rewrite Hnow, call_stringify_value by done.
    rewrite (stringify_fields_correct _ _ _ Hnew). by rewrite Heq.
  - rewrite Hnow, call_stringify_value by done.
    rewrite (stringify_fields_correct _ _ _ Hold).
    case_decide; [by rewrite Heq|done].
Qed.

Lemma repeated_attr_invisible_witness :
  fields_of (heap_after attr_calls) (value_after attr_calls) = Some attr_fields
  ∧ ∃ h', call (value_after attr_calls) "attr" "target" (heap_after attr_calls)
          = Ok (length (heap_after attr_calls), h')
          ∧ call_stringify (length (heap_after attr_calls)) h'
            = call_stringify (value_after attr_calls) (heap_after attr_calls)
          ∧ call_stringify (value_after attr_calls) h'
            = call_stringify (value_after attr_calls) (heap_after attr_calls)
          ∧ call_stringify (value_after attr_calls) (heap_after attr_calls)
            = Ok (stringify_fields attr_fields).
Proof.
  assert (Hs : fields_of (heap_after attr_calls) (value_after attr_calls)
               = Some attr_fields) by (vm_compute; reflexivity).
  destruct (after_reachable attr_calls eq_refl) as (vals & Hr & Ho & _).
  split; [exact Hs|].
  exact (repeated_attr_invisible _ _ _ _ "href" [] "target" Hr Ho Hs
           eq_refl eq_refl).
Defined.

(** C10.  The builder singleton never gets a selector field: in every heap
    reached by builder calls and [combine] on values derived from it, the
    singleton still is the object the constructor made (one own property,
    [prot]), all six of its fields read as unset, and
    [cssSelectorBuilder.stringify()] returns the empty string. *)
Theorem builder_never_populated h vals :
  reachable h vals →
  h !! cssSelectorBuilder = Some builder_cell
  ∧ fields_of h cssSelectorBuilder = Some empty_selector
  ∧ call_stringify cssSelectorBuilder h = Ok "".
Proof.
  intros [Hinv Hvals]%reachable_inv.
  destruct (initial_cells h (inv_initial _ Hinv)) as (_ & Hcell & _).
  split; [done|]. split; [by apply builder_fields|].
  unfold call_stringify. rewrite builder_get by done.
  change (get initial_heap cssSelectorBuilder "stringify") with (VFun Fstringify).
  cbv iota. by rewrite (stringify_fields_correct _ _ _ (builder_fields h Hinv)).
Qed.

Lemma builder_never_populated_witness :
  call_stringify cssSelectorBuilder (heap_after sample_calls) = Ok "".
Proof.
  destruct (after_reachable sample_calls eq_refl) as (vals & Hr & _).
  exact (proj2 (proj2 (builder_never_populated _ _ Hr))).
Defined.

(** ** Further properties of the selector builder *)

(** X1.  Every selector value of a reachable heap stringifies:
    [stringify()] returns a string, it neither throws nor leaves the
    modelled fragment. *)
Theorem reachable_values_stringify h vals o :
  reachable h vals → o ∈ vals → ∃ r, call_stringify o h = Ok r.
Proof.
  intros [Hinv Hvals]%reachable_inv Ho.
  rewrite call_stringify_value by auto.
  apply stringify_total, Hinv.
Qed.

Lemma reachable_values_stringify_witness :
  ∃ r, call_stringify (value_after sample_calls) (heap_after sample_calls) = Ok r.
Proof.
  destruct (after_reachable sample_calls eq_refl) as (vals & Hr & Ho & _).
  exact (reachable_values_stringify _ _ _ Hr Ho).
Defined.

(** X2.  [element], [id] and [pseudoElement] write to the object they
    return only: every selector value that was there stringifies as before
    the call. *)
Theorem setters_leave_others h vals o s name v o' h' o2 :
  reachable h vals → o ∈ vals → o2 ∈ vals → fields_of h o = Some s →
  name ∈ ["element"; "id"; "pseudoElement"] →
  call o name v h = Ok (o', h') →
  call_stringify o2 h' = call_stringify o2 h.
Proof.
  intros [Hinv Hvals]%reachable_inv Ho Ho2 Hs Hname Hcall.
  destruct (call_simple h o s v (Hvals _ Ho) Hs) as (He & Hi & _ & _ & _ & Hpe).
  assert (Hshape : ∃ c, h' = h ++ [c]).
  { rewrite !elem_of_cons, elem_of_nil in Hname.
    destruct Hname as [->|[->|[->|[]]]].
    - rewrite He in Hcall. unfold element in Hcall.
      destruct (truthy _); [discriminate|].
      destruct (_ || _); [discriminate|].
      apply create_set_inv in Hcall as (p & _ & _ & ->). eauto.
    - rewrite Hi in Hcall. unfold id in Hcall.
      destruct (truthy _); [discriminate|].
      destruct (_ || _); [discriminate|].
      apply create_set_inv in Hcall as (p & _ & _ & ->). eauto.
    - rewrite Hpe in Hcall. unfold pseudoElement in Hcall.
      destruct (truthy _); [discriminate|].
      apply create_set_inv in Hcall as (p & _ & _ & ->). eauto. }
  destruct Hshape as [c ->].
  apply call_stringify_app; [done|]. apply (Hvals _ Ho2).
Qed.

Lemma setters_leave_others_witness :
  ∃ r, call cssSelectorBuilder "element" "p" (heap_after sample_calls) = Ok r
       ∧ call_stringify (value_after sample_calls) (snd r)
         = call_stringify (value_after sample_calls) (heap_after sample_calls).
Proof.
  destruct (after_reachable sample_calls eq_refl) as (vals & Hr & Ho & Hb).
  destruct (is_ok_inv
              (call cssSelectorBuilder "element" "p" (heap_after sample_calls))
              ltac:(vm_compute; reflexivity)) as [[o' h'] Hcall].
  exists (o', h'). split; [done|]. cbn [snd].
  eapply (setters_leave_others _ _ cssSelectorBuilder empty_selector "element" "p"
            o' h' _ Hr Hb Ho);
    [apply builder_fields; by apply reachable_inv in Hr as [? _]
    |apply list_elem_of_here|exact Hcall].
Defined.

(** X3.  [class], [attr] and [pseudoClass] change the selectors that are
    already there exactly when they read the sequence from the array the
    receiver reads it from: those get [v] at the end of that sequence as
    well, and all others keep their fields. *)
Theorem push_changes_sharers h vals o s name k v o' h' o2 s2 :
  reachable h vals → o ∈ vals → o2 ∈ vals →
  fields_of h o = Some s → fields_of h o2 = Some s2 →
  (name, k) ∈ [("class", "elClass"); ("attr", "elAttrs");
               ("pseudoClass", "elPseudoClass")] →
  call o name v h = Ok (o', h') →
  fields_of h' o2
  = Some (if decide (get h o2 k = get h o k ∧ get h o k ≠ VUndef)
          then pushed k v s2 else s2).
Proof.
  intros [Hinv Hvals]%reachable_inv Ho Ho2 Hs Hs2 Hname Hcall.
  destruct (call_simple h o s v (Hvals _ Ho) Hs) as (_ & _ & Hc & Ha & Hp & _).
  assert (Hlt : o < length h) by apply (Hvals _ Ho).
  assert (Hlt2 : o2 < length h) by apply (Hvals _ Ho2).
  rewrite !elem_of_cons, elem_of_nil in Hname.
  destruct Hname as [[= -> ->]|[[= -> ->]|[[= -> ->]|[]]]].
  - rewrite Hc in Hcall. unfold class in Hcall.
    destruct (_ || _); [discriminate|].
    eapply push_or_create_others; [done..|unfold array_keys; set_solver|done].
  - rewrite Ha in Hcall. unfold attr in Hcall.
    destruct (_ || _); [discriminate|].
    eapply push_or_create_others; [done..|unfold array_keys; set_solver|done].
  - rewrite Hp in Hcall. unfold pseudoClass in Hcall.
    destruct (truthy _); [discriminate|].
    eapply push_or_create_others; [done..|unfold array_keys; set_solver|done].
Qed.

Lemma push_changes_sharers_witness :
  ∃ r, call (value_after sample_calls) "class" "wide" (heap_after sample_calls)
       = Ok r
       ∧ fields_of (snd r) (value_after sample_calls)
         = Some (pushed "elClass" "wide" sample_fields)
       ∧ fields_of (snd r) cssSelectorBuilder = Some empty_selector.
Proof.
  assert (Hs : fields_of (heap_after sample_calls) (value_after sample_calls)
               = Some sample_fields) by (vm_compute; reflexivity).
  destruct (after_reachable sample_calls eq_refl) as (vals & Hr & Ho & Hb).
  assert (Hbs : fields_of (heap_after sample_calls) cssSelectorBuilder
                = Some empty_selector)
    by (apply builder_fields; by apply reachable_inv in Hr as [? _]).
  destruct (is_ok_inv
              (call (value_after sample_calls) "class" "wide"
                 (heap_after sample_calls))
              ltac:(vm_compute; reflexivity)) as [[o' h'] Hcall].
  exists (o', h'). split; [done|]. cbn [snd]. split.
  - rewrite (push_changes_sharers _ _ _ _ "class" "elClass" "wide" o' h'
               (value_after sample_calls) sample_fields Hr Ho Ho Hs Hs
               (list_elem_of_here _ _) Hcall).
    rewrite decide_True; [reflexivity|].
    split; [reflexivity|]. vm_compute. discriminate.
  - rewrite (push_changes_sharers _ _ _ _ "class" "elClass" "wide" o' h'
               cssSelectorBuilder empty_selector Hr Ho Hb Hs Hbs
               (list_elem_of_here _ _) Hcall).
    rewrite decide_False; [reflexivity|].
    intros [Heq _]. vm_compute in Heq. discriminate.
Defined.

(** ** [Rectangle], [getJSON] and [fromJSON] *)

(** One assignment, when no setter is called. *)
Lemma assign_spec o k v :
  k ≠ "__proto__" →
  Json.inherited o !! k ≠ Some (Json.Accessor true) →
  (is_Some (Json.own o !! k) → Json.settable (Json.inherited o) k = true) →
  Json.assign o k v
  = Ok {| Json.inherited := Json.inherited o;
          Json.own := if Json.settable (Json.inherited o) k
                      then <[k := v]> (Json.own o) else Json.own o |}.
Proof.
  intros Hk Hsetter Hown. unfold Json.assign, Json.settable in *.
  rewrite decide_False by done.
  destruct (Json.own o !! k) as [x|] eqn:Hx.
  - by rewrite Hown by eauto.
  - destruct (Json.inherited o !! k) as [[y [|]|[|]]|]; try done;
      by destruct o.
Qed.

Lemma copy_keys_spec obj keys : ∀ o,
  "__proto__" ∉ keys →
  (∀ k, k ∈ keys → Json.inherited o !! k ≠ Some (Json.Accessor true)) →
  (∀ k, is_Some (Json.own o !! k) → Json.settable (Json.inherited o) k = true) →
  ∃ o', Json.copy_keys obj keys o = Ok o'
        ∧ Json.inherited o' = Json.inherited o
        ∧ ∀ k, Json.own o' !! k
               = if decide (k ∈ keys ∧ Json.settable (Json.inherited o) k = true)
                 then Some (Json.get_member obj k)
                 else Json.own o !! k.
Proof.
  unfold Json.copy_keys.
  induction keys as [|key keys IH]; intros o Hno Hsetter Hown.
  - exists o. split; [done|]. split; [done|]. intros k.
    rewrite decide_False; [done|]. intros [Hin _]. by apply elem_of_nil in Hin.
  - apply not_elem_of_cons in Hno as [Hne Hno]. simpl.
    rewrite (assign_spec o key (Json.get_member obj key));
      [|done|apply Hsetter, list_elem_of_here|apply Hown].
    destruct (IH {| Json.inherited := Json.inherited o;
                    Json.own := if Json.settable (Json.inherited o) key
                                then <[key := Json.get_member obj key]> (Json.own o)
                                else Json.own o |})
      as (o' & Hrun & Hinh & Hcopied).
    { done. }
    { intros k Hin. simpl. by apply Hsetter, list_elem_of_further. }
    { intros k. simpl.
      destruct (Json.settable (Json.inherited o) key) eqn:Hset; [|apply Hown].
      destruct (decide (k = key)) as [->|Hk]; [done|].
      rewrite lookup_insert_ne by done. apply Hown. }
    exists o'. split; [done|]. split; [done|]. intros k.
    rewrite Hcopied. simpl.
    destruct (decide (k ∈ keys ∧ Json.settable (Json.inherited o) k = true))
      as [[Hin Hset]|Hnot].
    + rewrite decide_True; [done|]. split; [by apply list_elem_of_further|done].
    + destruct (decide (k = key)) as [->|Hk].
      * destruct (Json.settable (Json.inherited o) key) eqn:Hset.
        -- rewrite lookup_insert_eq, decide_True; [done|].
           split; [apply list_elem_of_here|done].
        -- rewrite decide_False; [done|]. by intros [_ ?].
      * rewrite decide_False.
        -- destruct (Json.settable (Json.inherited o) key); [|done].
           by rewrite lookup_insert_ne.
        -- intros [[?|Hin]%elem_of_cons Hset]; [done|]. by apply Hnot.
Qed.

(** C7, as amended.  [fromJSON(proto, json)] fails with a SyntaxError when
    [JSON.parse] rejects [json], and with a TypeError when [json] is the
    text [null].  When [json] is the text of an object, an array, a number
    or a boolean, with no key named [__proto__] and no key for which
    [proto] has a setter, it returns a new object that inherits from
    [proto].  On it every key of the parsed value is set to its parsed
    value, unless [proto] makes that name read-only (a property that is not
    writable, or a getter without a setter, on its prototype chain): such
    an assignment is ignored and the name reads as on [proto].  Every
    property of [proto] whose name is not one of the keys, so every such
    method, reads as on [proto].  On ['{"radius":10}'], with a [proto] on
    which [radius] can be assigned, the object has [radius] equal to [10]
    and the methods of [proto]. *)
Theorem fromJSON_copies (JSON_parse : string → option Json.json)
    (proto : gmap string Json.property) (text : string) :
  (JSON_parse text = None →
   Json.fromJSON JSON_parse proto text = Throw SyntaxError)
  ∧ (JSON_parse text = Some Json.JNull →
     Json.fromJSON JSON_parse proto text = Throw TypeError)
  ∧ (∀ v keys,
       JSON_parse text = Some v → (∀ s, v ≠ Json.JStr s) →
       Json.Object_keys v = Ok keys →
       "__proto__" ∉ keys →
       (∀ k, k ∈ keys → proto !! k ≠ Some (Json.Accessor true)) →
       ∃ o, Json.fromJSON JSON_parse proto text = Ok o
            ∧ Json.inherited o = proto
            ∧ (∀ k, k ∈ keys →
                 Json.lookup_property o k
                 = if Json.settable proto k
                   then Some (Json.Data (Json.get_member v k) true)
                   else proto !! k)
            ∧ (∀ m, m ∉ keys → Json.lookup_property o m = proto !! m))
  ∧ (JSON_parse text = Some (Json.JObj [("radius", Json.JNum 10)]) →
     Json.settable proto "radius" = true →
     ∃ o, Json.fromJSON JSON_parse proto text = Ok o
          ∧ Json.lookup_property o "radius"
            = Some (Json.Data (Json.PJson (Json.JNum 10)) true)
          ∧ (∀ m, m ≠ "radius" → Json.lookup_property o m = proto !! m)).
Proof.
  assert (Hgen : ∀ v keys,
       JSON_parse text = Some v → Json.Object_keys v = Ok keys →
       "__proto__" ∉ keys →
       (∀ k, k ∈ keys → proto !! k ≠ Some (Json.Accessor true)) →
       ∃ o, Json.fromJSON JSON_parse proto text = Ok o
            ∧ Json.inherited o = proto
            ∧ (∀ k, k ∈ keys →
                 Json.lookup_property o k
                 = if Json.settable proto k
                   then Some (Json.Data (Json.get_member v k) true)
                   else proto !! k)
            ∧ (∀ m, m ∉ keys → Json.lookup_property o m = proto !! m)).
  { intros v keys Hv Hkeys Hno Hsetter. unfold Json.fromJSON.
    rewrite Hv, Hkeys. simpl.
    destruct (copy_keys_spec v keys (Json.Object_create proto) Hno Hsetter)
      as (o & Hrun & Hinh & Hown).
    { simpl. intros k [x Hx]. by rewrite lookup_empty in Hx. }
    simpl in Hinh, Hown.
    exists o. split; [done|]. split; [done|].
    unfold Json.lookup_property. split.
    - intros k Hk. rewrite Hown, Hinh.
      destruct (Json.settable proto k) eqn:Hset.
      + by rewrite decide_True.
      + rewrite decide_False by (by intros [_ ?]). by rewrite lookup_empty.
    - intros m Hm. rewrite Hown, decide_False by (by intros [? _]).
      by rewrite lookup_empty, Hinh. }
  split; [|split; [|split]].
  - intros Hp. unfold Json.fromJSON. by rewrite Hp.
  - intros Hp. unfold Json.fromJSON. by rewrite Hp.
  - intros v keys Hv _. by apply Hgen.
  - intros Hp Hset.
    destruct (Hgen _ ["radius"] Hp eq_refl) as (o & Hrun & _ & Hin & Hout).
    { by intros [?|?%elem_of_nil]%elem_of_cons. }
    { intros k [->|[]%elem_of_nil]%elem_of_cons Hacc.
      unfold Json.settable in Hset. by rewrite Hacc in Hset. }
    exists o. split; [done|]. split.
    + rewrite Hin by apply list_elem_of_here. by rewrite Hset.
    + intros m Hm. apply Hout. by intros [?|?%elem_of_nil]%elem_of_cons.
Qed.

Lemma fromJSON_copies_witness :
  Json.known_parse Json.radius_text
  = Some (Json.JObj [("radius", Json.JNum 10)])
  ∧ Json.settable Json.circle_proto "radius" = true
  ∧ (∃ o, Json.fromJSON Json.known_parse Json.circle_proto Json.radius_text = Ok o
          ∧ Json.lookup_property o "radius"
            = Some (Json.Data (Json.PJson (Json.JNum 10)) true)
          ∧ (∀ m, m ≠ "radius" →
               Json.lookup_property o m = Json.circle_proto !! m))
  ∧ Json.settable Json.frozen_proto "radius" = false
  ∧ (∃ o, Json.fromJSON Json.known_parse Json.frozen_proto Json.radius_text = Ok o
          ∧ Json.lookup_property o "radius" = Json.frozen_proto !! "radius")
  ∧ Json.known_parse "{" = None
  ∧ Json.fromJSON Json.known_parse Json.circle_proto "{" = Throw SyntaxError.
Proof.
  split; [reflexivity|].
  split; [reflexivity|].
  split; [exact (proj2 (proj2 (proj2
            (fromJSON_copies Json.known_parse Json.circle_proto Json.radius_text)))
            eq_refl eq_refl)|].
  split; [reflexivity|].
  split.
  - destruct (proj1 (proj2 (proj2
                (fromJSON_copies Json.known_parse Json.frozen_proto
                   Json.radius_text)))
                (Json.JObj [("radius", Json.JNum 10)]) ["radius"] eq_refl)
      as (o & Hrun & _ & Hin & _).
    + intros s. discriminate.
    + reflexivity.
    + by intros [?|?%elem_of_nil]%elem_of_cons.
    + intros k [->|[]%elem_of_nil]%elem_of_cons. discriminate.
    + exists o. split; [exact Hrun|]. exact (Hin "radius" (list_elem_of_here _ _)).
  - split; [reflexivity|].
    exact (proj1 (fromJSON_copies Json.known_parse Json.circle_proto "{") eq_refl).
Defined.

(** C7 as stated fails on three counts.  The text [null] is valid JSON, and
    on it [fromJSON] throws a TypeError ([Object.keys(null)]) instead of
    returning an object.  A key of the parsed value that has the name of a
    method of [proto] hides that method on the new object.  And a key that
    [proto] makes read-only is not set: on a [proto] with a read-only
    [radius] of [1], the object made from ['{"radius":10}'] has no
    [radius] of its own and reads [1]. *)
Lemma fromJSON_null_and_shadowing :
  (Json.known_parse "null" = Some Json.JNull
   ∧ Json.fromJSON Json.known_parse Json.circle_proto "null" = Throw TypeError)
  ∧ (Json.known_parse Json.shadow_text
     = Some (Json.JObj [("getArea", Json.JNum 1)])
     ∧ Json.circle_proto !! "getArea"
       = Some (Json.Data (Json.PMethod "getArea") true)
     ∧ ∃ o, Json.fromJSON Json.known_parse Json.circle_proto Json.shadow_text
            = Ok o
            ∧ Json.lookup_property o "getArea"
              = Some (Json.Data (Json.PJson (Json.JNum 1)) true))
  ∧ (Json.known_parse Json.radius_text
     = Some (Json.JObj [("radius", Json.JNum 10)])
     ∧ ∃ o, Json.fromJSON Json.known_parse Json.frozen_proto Json.radius_text
            = Ok o
            ∧ Json.own o !! "radius" = None
            ∧ Json.lookup_property o "radius"
              = Some (Json.Data (Json.PJson (Json.JNum 1)) false))
  ∧ ¬ (∀ (JSON_parse : string → option Json.json) proto text,
         JSON_parse text ≠ None →
         ∃ o, Json.fromJSON JSON_parse proto text = Ok o).
Proof.
  split; [split; reflexivity|].
  split; [|split].
  - split; [reflexivity|]. split; [reflexivity|].
    eexists. split; vm_compute; reflexivity.
  - split; [reflexivity|].
    eexists. split; [vm_compute; reflexivity|]. split; reflexivity.
  - intros H.
    destruct (H (λ _, Some Json.JNull) ∅ "null") as [o Ho]; [discriminate|].
    discriminate.
Qed.

(** C8.  [Rectangle(w, h)] sets [width] to [w] and [height] to [h] on the
    object it is applied to (the new object of [new Rectangle(w, h)]), and
    [getArea()] on it returns the product [w * h] of the two doubles;
    [new Rectangle(10, 20).getArea()] is [200]. *)
Theorem Rectangle_area :
  (∀ this w h,
     Rect.Rectangle this w h !! "width" = Some (Rect.RNum w)
     ∧ Rect.Rectangle this w h !! "height" = Some (Rect.RNum h)
     ∧ Rect.call_getArea (Rect.Rectangle this w h) = Ok (w * h)%float)
  ∧ Rect.new 10 20 !! "width" = Some (Rect.RNum 10)
  ∧ Rect.new 10 20 !! "height" = Some (Rect.RNum 20)
  ∧ Rect.call_getArea (Rect.new 10 20) = Ok 200%float.
Proof.
  assert (Hgen : ∀ this w h,
     Rect.Rectangle this w h !! "width" = Some (Rect.RNum w)
     ∧ Rect.Rectangle this w h !! "height" = Some (Rect.RNum h)
     ∧ Rect.call_getArea (Rect.Rectangle this w h) = Ok (w * h)%float).
  { intros this w h. unfold Rect.call_getArea, Rect.getArea, Rect.Rectangle.
    by simplify_map_eq. }
  split; [exact Hgen|].
  destruct (Hgen ∅ 10%float 20%float) as (Hw & Hh & Ha).
  split; [exact Hw|]. split; [exact Hh|]. exact Ha.
Qed.

(** C9.  [getJSON] is [JSON.stringify] of its argument, and on the array
    [[1,2,3]] it returns the string ['[1,2,3]']. *)
Theorem getJSON_array :
  (∀ obj, Json.getJSON obj = Json.JSON_stringify obj)
  ∧ Json.getJSON (Json.JArr [Json.JNum 1; Json.JNum 2; Json.JNum 3])
    = Ok "[1,2,3]".
Proof. split; [reflexivity|vm_compute; reflexivity]. Qed.

(** * Further properties *)

(** ** The kinds of selector value *)

Lemma prot_get h k :
  heap_inv h → get h prot_loc k = get initial_heap prot_loc k.
Proof.
  intros Hinv. apply get_le; [apply initial_heap_inv|apply Hinv|].
  rewrite initial_heap_eq. unfold prot_loc. simpl. lia.
Qed.

Lemma create_set_run p k x h :
  (obj <- Object_create (VRef p) ;; set_own obj k x ;;; ret obj)%js h
  = Ok (length h, h ++ [CObj (Some p) (<[k := x]> ∅)]).
Proof.
  unfold bind. simpl. unfold alloc. rewrite set_own_middle. reflexivity.
Qed.

(** The object that a successful builder call returns: made from [prot]
    with the element as its one own property, or made from the receiver
    with at most one own property, a selector field other than the
    element. *)
Lemma call_shape o name v h o' h' :
  call o name v h = Ok (o', h') →
  (∃ f, get h o name = VFun f ∧ f ≠ Fstringify ∧ f ≠ Fcombine)
  ∧ ∃ p m, h' !! o' = Some (CObj (Some p) m)
      ∧ ((get h o "prot" = VRef p ∧ m = <["el" := VStr v]> ∅)
         ∨ (p = o ∧ m !! "el" = None
            ∧ ∀ q, q ∉ field_keys → m !! q = None)).
Proof.
  unfold call.
  assert (Hnew : ∀ (hh : heap) c, (hh ++ [c]) !! length hh = Some c)
    by (intros; by apply list_lookup_middle).
  assert (Hout : ∀ k x q, k ∈ field_keys → q ∉ field_keys →
            (<[k := x]> (∅ : gmap string value)) !! q = None).
  { intros k x q Hk Hq. rewrite lookup_insert_ne, lookup_empty; [done|].
    by intros ->. }
  assert (Hpush : ∀ k, k ∈ array_keys → k ∈ field_keys → k ≠ "el" →
            push_or_create o k v h = Ok (o', h') →
            ∃ p m, h' !! o' = Some (CObj (Some p) m)
              ∧ ((get h o "prot" = VRef p ∧ m = <["el" := VStr v]> ∅)
                 ∨ (p = o ∧ m !! "el" = None
                    ∧ ∀ q, q ∉ field_keys → m !! q = None))).
  { intros k Hk Hfk Hne (-> & Hshape)%push_or_create_inv.
    destruct Hshape as [(a & xs & _ & Ha & ->)|[_ ->]].
    - exists o, ∅. split.
      + rewrite list_lookup_insert_ne; [apply Hnew|].
        intros ->. rewrite Hnew in Ha. discriminate.
      + right. split; [done|]. split; [apply lookup_empty|].
        intros q _. apply lookup_empty.
    - exists o, (<[k := VRef (S (length h))]> ∅). split.
      + by apply list_lookup_middle.
      + right. split; [done|]. split; [|intros q Hq; by apply Hout].
        by rewrite lookup_insert_ne, lookup_empty. }
  destruct (get h o name) as [|s|l|[]] eqn:Hname; try discriminate.
  - intros Hrun. split; [by eexists|]. revert Hrun. unfold element.
    destruct (truthy _); [discriminate|].
    destruct (_ || _); [discriminate|].
    intros (p & Hprot & -> & ->)%create_set_inv.
    exists p, (<["el" := VStr v]> ∅). split; [apply Hnew|]. by left.
  - intros Hrun. split; [by eexists|]. revert Hrun. unfold id.
    destruct (truthy _); [discriminate|].
    destruct (_ || _); [discriminate|].
    intros (p & [= <-] & -> & ->)%create_set_inv.
    exists o, (<["elID" := VStr v]> ∅). split; [apply Hnew|].
    right. split; [done|]. split; [done|].
    intros q Hq. apply Hout; [key_in|done].
  - intros Hrun. split; [by eexists|]. revert Hrun. unfold class.
    destruct (_ || _); [discriminate|].
    apply Hpush; [key_in|key_in|done].
  - intros Hrun. split; [by eexists|]. revert Hrun. unfold attr.
    destruct (_ || _); [discriminate|].
    apply Hpush; [key_in|key_in|done].
  - intros Hrun. split; [by eexists|]. revert Hrun. unfold pseudoClass.
    destruct (truthy _); [discriminate|].
    apply Hpush; [key_in|key_in|done].
  - intros Hrun. split; [by eexists|]. revert Hrun. unfold pseudoElement.
    destruct (truthy _); [discriminate|].
    intros (p & [= <-] & -> & ->)%create_set_inv.
    exists o, (<["elPseudoElement" := VStr v]> ∅). split; [apply Hnew|].
    right. split; [done|]. split; [done|].
    intros q Hq. apply Hout; [key_in|done].
Qed.

(** What a combined selector reads under any property name. *)
Lemma combined_cell_get h o c s1 s2 k :
  h !! o = Some (combined_cell c s1 s2) →
  get h o k = (if decide (k = "combined") then VStr c
               else if decide (k = "selectors1") then VRef s1
               else if decide (k = "selectors2") then VRef s2
               else if decide (k = "stringify") then VFun Fstringify
               else VUndef).
Proof.
  intros Hc. rewrite (get_orphan _ _ _ _ Hc). unfold combined_cell.
  destruct (decide (k = "combined")) as [->|H1]; [by rewrite lookup_insert_eq|].
  rewrite lookup_insert_ne by done.
  destruct (decide (k = "selectors1")) as [->|H2]; [by rewrite lookup_insert_eq|].
  rewrite lookup_insert_ne by done.
  destruct (decide (k = "selectors2")) as [->|H3]; [by rewrite lookup_insert_eq|].
  rewrite lookup_insert_ne by done.
  destruct (decide (k = "stringify")) as [->|H4]; [by rewrite lookup_insert_eq|].
  by rewrite lookup_insert_ne, lookup_empty.
Qed.

Lemma combined_cell_methods h o c s1 s2 k f :
  h !! o = Some (combined_cell c s1 s2) →
  get h o k = VFun f → k = "stringify" ∧ f = Fstringify.
Proof.
  intros Hc. rewrite (combined_cell_get _ _ _ _ _ _ Hc).
  destruct (decide (k = "combined")); [discriminate|].
  destruct (decide (k = "selectors1")); [discriminate|].
  destruct (decide (k = "selectors2")); [discriminate|].
  destruct (decide (k = "stringify")); [|discriminate].
  by intros [= <-].
Qed.

Lemma value_kind_le h h' o :
  protos_older h → heap_le h h' → o < length h →
  value_kind h o → value_kind h' o.
Proof.
  intros Hold Hle Ho [(Hc & Hk)|(c & s1 & s2 & Hcell)].
  - left. unfold from_builder, from_element in *.
    by rewrite !(get_le h h').
  - right. exists c, s1, s2. specialize (Hle o). by rewrite Hcell in Hle.
Qed.

Lemma reachable_kind h vals :
  reachable h vals → ∀ o, o ∈ vals → value_kind h o.
Proof.
  induction 1 as [|h vals o name v o' h' Hr IH Ho Hcall
                  |h vals o s1 c s2 o' h' Hr IH Ho Hs1 Hs2 Hcall].
  - intros o ->%list_elem_of_singleton. left. split; [|left; split];
      vm_compute; reflexivity.
  - destruct (reachable_inv _ _ Hr) as [Hinv Hvals].
    destruct (call_step _ _ _ _ _ _ Hinv (Hvals _ Ho) Hcall)
      as (-> & Hinv' & Hle & Hv).
    intros x [->|Hx]%elem_of_cons;
      [|eapply value_kind_le; [apply Hinv|done|apply (Hvals _ Hx)|by apply IH]].
    destruct (call_shape _ _ _ _ _ _ Hcall)
      as ((f & Hf & Hns & Hnc) & p & m & Hcell & Hshape).
    destruct Hshape as [[Hprot ->]|(-> & Hel & Hm)].
    + destruct (get_ok h o "prot" (inv_typed _ Hinv)) as [Hu|(_ & _ & Hp & _)];
        [congruence|].
      rewrite Hprot in Hp. specialize (Hp eq_refl). injection Hp as ->.
      assert (Hget : ∀ k, get h' (length h) k
                = match (<["el" := VStr v]> (∅ : gmap string value)) !! k with
                  | Some x => x
                  | None => get initial_heap prot_loc k
                  end).
      { intros k.
        rewrite (get_child h h' prot_loc (length h) _ k (inv_protos _ Hinv) Hle
                   (proj1 (prot_value_inv h Hinv)) (le_n _) Hcell).
        by rewrite prot_get. }
      left. split; [by rewrite Hget|]. right. split.
      * exists v. by rewrite Hget.
      * by rewrite Hget.
    + assert (Hget : ∀ k, m !! k = None → get h' (length h) k = get h o k).
      { intros k Hk.
        rewrite (get_child h h' o (length h) m k (inv_protos _ Hinv) Hle
                   (proj1 (Hvals _ Ho)) (le_n _) Hcell).
        by rewrite Hk. }
      destruct (IH _ Ho) as [(Hc & Hk)|(c & s1 & s2 & Hc)].
      * left. unfold from_builder, from_element.
        rewrite (Hget "combined"), (Hget "el"), (Hget "prot");
          [done|apply Hm|done|apply Hm]; key_out.
      * destruct (combined_cell_methods _ _ _ _ _ _ _ Hc Hf) as [_ ->]. done.
  - destruct (reachable_inv _ _ Hr) as [Hinv Hvals].
    assert (Hcomb : combine o s1 c s2 h = Ok (o', h')).
    { unfold call_combine in Hcall.
      by destruct (get h o "combine") as [|?|?|[]]. }
    destruct (combine_step _ _ _ _ _ _ _ Hinv (Hvals _ Ho) Hcomb)
      as (_ & Hinv' & Hle & Hv).
    intros x [->|Hx]%elem_of_cons;
      [|eapply value_kind_le; [apply Hinv|done|apply (Hvals _ Hx)|by apply IH]].
    apply combine_inv in Hcomb as (a & b & _ & _ & -> & ->).
    right. eexists _, s1, s2. rewrite list_lookup_middle by done.
    unfold combined_cell. destruct (Hvals _ Ho) as (_ & -> & _). reflexivity.
Qed.

(** A selector value with fields is of one of the two simple kinds; one
    without is a combined one. *)
Lemma simple_kind h vals o s :
  reachable h vals → o ∈ vals → fields_of h o = Some s →
  (sel_element s = None ∧ get h o "prot" = VRef prot_loc)
  ∨ (is_set (sel_element s) = true ∧ get h o "prot" = VUndef).
Proof.
  intros Hr Ho (Hc & He & _)%fields_of_Some.
  destruct (reachable_kind _ _ Hr _ Ho) as [(_ & Hk)|(c & s1 & s2 & Hcell)].
  - destruct Hk as [[Hel Hp]|[[e Hel] Hp]]; rewrite Hel in He;
      injection He as <-; auto.
  - rewrite (combined_cell_get _ _ _ _ _ _ Hcell) in Hc. done.
Qed.

Lemma combined_kind h vals o :
  reachable h vals → o ∈ vals → fields_of h o = None →
  ∃ c s1 s2, h !! o = Some (combined_cell c s1 s2).
Proof.
  intros Hr Ho Hnone.
  destruct (reachable_kind _ _ Hr _ Ho) as [(Hc & _)|Hcell]; [|done].
  destruct (reachable_inv _ _ Hr) as [Hinv _].
  destruct (value_shape h o (inv_typed _ Hinv)) as [[s Hs]|(c & Hc' & _)];
    congruence.
Qed.

(** ** The fields after [element], [id] and [pseudoElement] *)

Lemma array_field_app h t o k :
  typed h → k ∈ array_keys →
  array_field (h ++ t) (get h o k) = array_field h (get h o k).
Proof.
  intros Hty Hk. destruct (get_ok h o k Hty) as [->|(_ & Ha & _)]; [done|].
  destruct (Ha Hk) as [->|(a & xs & -> & Hc)]; [done|].
  simpl. by rewrite (lookup_app_l_Some _ _ _ _ Hc), Hc.
Qed.

(** The fields of an object in a heap that has grown by allocation. *)
Lemma fields_of_app h t o :
  heap_inv h → o < length h → fields_of (h ++ t) o = fields_of h o.
Proof.
  intros Hinv Ho. unfold fields_of.
  rewrite !(get_le h (h ++ t)) by (try apply Hinv; try apply heap_le_app; done).
  rewrite !array_field_app by (try apply Hinv; key_in).
  reflexivity.
Qed.

Lemma create_set_fields h p k v s :
  heap_inv h → p < length h → fields_of h p = Some s → k ∈ string_keys →
  fields_of (h ++ [CObj (Some p) (<[k := VStr v]> ∅)]) (length h)
  = Some (with_string k v s).
Proof.
  intros Hinv Hp (Hcomb & He & Hi & Hc & Ha & Hpc & Hpe)%fields_of_Some Hk.
  assert (Hcell : (h ++ [CObj (Some p) (<[k := VStr v]> ∅)]) !! length h
                  = Some (CObj (Some p) (<[k := VStr v]> ∅)))
    by (by apply list_lookup_middle).
  pose proof (λ q, get_child h _ p (length h) _ q (inv_protos _ Hinv)
                     (heap_le_app _ _) Hp (le_n _) Hcell) as Hget.
  assert (Hsame : get (h ++ [CObj (Some p) (<[k := VStr v]> ∅)]) (length h) k
                  = VStr v)
    by (by rewrite Hget, lookup_insert_eq).
  assert (Hother : ∀ q, q ≠ k →
            get (h ++ [CObj (Some p) (<[k := VStr v]> ∅)]) (length h) q
            = get h p q)
    by (intros q Hq; by rewrite Hget, lookup_insert_ne, lookup_empty).
  assert (Harr : ∀ q, q ∈ array_keys →
            array_field (h ++ [CObj (Some p) (<[k := VStr v]> ∅)])
              (get (h ++ [CObj (Some p) (<[k := VStr v]> ∅)]) (length h) q)
            = array_field h (get h p q)).
  { intros q Hq. rewrite Hother by (intros ->; by eapply keys_disjoint).
    apply array_field_app; [apply Hinv|done]. }
  apply fields_of_Some.
  rewrite (Harr "elClass"), (Harr "elAttrs"), (Harr "elPseudoClass") by key_in.
  rewrite (Hother "combined") by (intros <-; key_cases Hk).
  key_cases Hk; rewrite Hsame; simpl.
  - rewrite (Hother "elID"), (Hother "elPseudoElement") by done. done.
  - rewrite (Hother "el"), (Hother "elPseudoElement") by done. done.
  - rewrite (Hother "el"), (Hother "elID") by done. done.
Qed.

Lemma later_than_id_guard h o s :
  fields_of h o = Some s →
  truthy (get h o "elAttrs") || truthy (get h o "elClass")
  || truthy (get h o "elPseudoClass") || truthy (get h o "elPseudoElement")
  = later_than_id s.
Proof.
  intros (_ & _ & Hc & Ha & Hp & Hpe)%guards_of_fields.
  rewrite Hc, Ha, Hp, Hpe. unfold later_than_id.
  by destruct (is_set (sel_classes s)), (is_set (sel_attributes s)).
Qed.

Lemma later_than_element_guard h o s :
  fields_of h o = Some s →
  truthy (get h o "elID") || truthy (get h o "elAttrs")
  || truthy (get h o "elClass") || truthy (get h o "elPseudoClass")
  || truthy (get h o "elPseudoElement")
  = later_than_element s.
Proof.
  intros (_ & Hi & Hc & Ha & Hp & Hpe)%guards_of_fields.
  rewrite Hi, Hc, Ha, Hp, Hpe. unfold later_than_element.
  by destruct (filled (sel_id s)), (is_set (sel_classes s)),
       (is_set (sel_attributes s)).
Qed.

(** [id] on a simple selector value, as a function of the receiver's
    fields. *)
Lemma id_run h vals o s v :
  reachable h vals → o ∈ vals → fields_of h o = Some s →
  call o "id" v h
  = if filled (sel_id s) then Throw DuplicateError
    else if later_than_id s then Throw OrderError
    else Ok (length h, h ++ [CObj (Some o) (<["elID" := VStr v]> ∅)]).
Proof.
  intros [Hinv Hvals]%reachable_inv Ho Hs.
  destruct (call_simple h o s v (Hvals _ Ho) Hs) as (_ & -> & _).
  unfold id. rewrite (later_than_id_guard h o s Hs).
  destruct (guards_of_fields h o s Hs) as (_ & -> & _).
  destruct (filled (sel_id s)); [done|].
  destruct (later_than_id s); [done|]. apply create_set_run.
Qed.

Lemma pseudoElement_run h vals o s v :
  reachable h vals → o ∈ vals → fields_of h o = Some s →
  call o "pseudoElement" v h
  = if filled (sel_pseudoElement s) then Throw DuplicateError
    else Ok (length h, h ++ [CObj (Some o) (<["elPseudoElement" := VStr v]> ∅)]).
Proof.
  intros [Hinv Hvals]%reachable_inv Ho Hs.
  destruct (call_simple h o s v (Hvals _ Ho) Hs) as (_ & _ & _ & _ & _ & ->).
  unfold pseudoElement.
  destruct (guards_of_fields h o s Hs) as (_ & _ & _ & _ & _ & ->).
  destruct (filled (sel_pseudoElement s)); [done|]. apply create_set_run.
Qed.

(** [element] on a simple selector value, as a function of the receiver's
    fields: the new object is made from [prot], which only the selector
    values with no element see. *)
Lemma element_run h vals o s v :
  reachable h vals → o ∈ vals → fields_of h o = Some s →
  call o "element" v h
  = if filled (sel_element s) then Throw DuplicateError
    else if later_than_element s then Throw OrderError
    else if is_set (sel_element s) then Throw TypeError
    else Ok (length h, h ++ [CObj (Some prot_loc) (<["el" := VStr v]> ∅)]).
Proof.
  intros Hr Ho Hs. destruct (reachable_inv _ _ Hr) as [Hinv Hvals].
  destruct (call_simple h o s v (Hvals _ Ho) Hs) as (-> & _).
  unfold element. rewrite (later_than_element_guard h o s Hs).
  destruct (guards_of_fields h o s Hs) as (-> & _).
  destruct (filled (sel_element s)); [done|].
  destruct (later_than_element s); [done|].
  destruct (simple_kind h vals o s Hr Ho Hs) as [[-> ->]|[-> ->]].
  - apply create_set_run.
  - reflexivity.
Qed.

Lemma prot_fields h : heap_inv h → fields_of h prot_loc = Some empty_selector.
Proof.
  intros Hinv. apply fields_of_Some. rewrite !(prot_get h) by done.
  vm_compute. done.
Qed.

(** The three calls, when their guards pass. *)
Lemma id_call h vals o s v :
  reachable h vals → o ∈ vals → fields_of h o = Some s →
  filled (sel_id s) = false → later_than_id s = false →
  ∃ h', call o "id" v h = Ok (length h, h')
        ∧ fields_of h' (length h) = Some (with_string "elID" v s).
Proof.
  intros Hr Ho Hs Hf Hl. rewrite (id_run h vals o s v Hr Ho Hs), Hf, Hl.
  destruct (reachable_inv _ _ Hr) as [Hinv Hvals].
  eexists. split; [reflexivity|].
  apply create_set_fields; [done|apply (Hvals _ Ho)|done|key_in].
Qed.

Lemma pseudoElement_call h vals o s v :
  reachable h vals → o ∈ vals → fields_of h o = Some s →
  filled (sel_pseudoElement s) = false →
  ∃ h', call o "pseudoElement" v h = Ok (length h, h')
        ∧ fields_of h' (length h) = Some (with_string "elPseudoElement" v s).
Proof.
  intros Hr Ho Hs Hf. rewrite (pseudoElement_run h vals o s v Hr Ho Hs), Hf.
  destruct (reachable_inv _ _ Hr) as [Hinv Hvals].
  eexists. split; [reflexivity|].
  apply create_set_fields; [done|apply (Hvals _ Ho)|done|key_in].
Qed.

Lemma element_call h vals o s v :
  reachable h vals → o ∈ vals → fields_of h o = Some s →
  sel_element s = None → later_than_element s = false →
  ∃ h', call o "element" v h = Ok (length h, h')
        ∧ fields_of h' (length h) = Some (with_string "el" v empty_selector).
Proof.
  intros Hr Ho Hs Hn Hl. rewrite (element_run h vals o s v Hr Ho Hs), Hn, Hl.
  destruct (reachable_inv _ _ Hr) as [Hinv Hvals]. simpl.
  eexists. split; [reflexivity|].
  apply create_set_fields;
    [done|apply (prot_value_inv h Hinv)|by apply prot_fields|key_in].
Qed.

(** X4.  [id(v)] and [pseudoElement(v)] on a simple selector value succeed
    exactly when no guard fires: for [id], the id is not set to a non-empty
    string and no later-order field is set; for [pseudoElement], the
    pseudo-element is not set to a non-empty string.  The value they return
    is new and has the receiver's fields with that field set to [v]. *)
Theorem id_and_pseudoElement_set h vals o s v :
  reachable h vals → o ∈ vals → fields_of h o = Some s →
  (is_ok (call o "id" v h) = true
   ↔ filled (sel_id s) = false ∧ later_than_id s = false)
  ∧ (∀ o' h', call o "id" v h = Ok (o', h') →
       o' = length h ∧ (o' ∉ vals)
       ∧ fields_of h' o' = Some (with_string "elID" v s))
  ∧ (is_ok (call o "pseudoElement" v h) = true
     ↔ filled (sel_pseudoElement s) = false)
  ∧ (∀ o' h', call o "pseudoElement" v h = Ok (o', h') →
       o' = length h ∧ (o' ∉ vals)
       ∧ fields_of h' o' = Some (with_string "elPseudoElement" v s)).
Proof.
  intros Hr Ho Hs. destruct (reachable_inv _ _ Hr) as [Hinv Hvals].
  assert (Hfresh : length h ∉ vals).
  { intros Hin. destruct (Hvals _ Hin) as [Hlt _]. lia. }
  pose proof (id_run h vals o s v Hr Ho Hs) as Hid.
  pose proof (pseudoElement_run h vals o s v Hr Ho Hs) as Hpe.
  split; [|split; [|split]].
  - rewrite Hid.
    destruct (filled (sel_id s)), (later_than_id s); simpl; split;
      try done; by intros [? ?].
  - intros o' h' Hcall.
    destruct (filled (sel_id s)) eqn:Hf; [rewrite Hid in Hcall; done|].
    destruct (later_than_id s) eqn:Hl; [rewrite Hid in Hcall; done|].
    destruct (id_call h vals o s v Hr Ho Hs Hf Hl) as (h'' & Hrun & Hfields).
    rewrite Hcall in Hrun. injection Hrun as -> ->. done.
  - rewrite Hpe. destruct (filled (sel_pseudoElement s)); simpl; split; done.
  - intros o' h' Hcall.
    destruct (filled (sel_pseudoElement s)) eqn:Hf; [rewrite Hpe in Hcall; done|].
    destruct (pseudoElement_call h vals o s v Hr Ho Hs Hf) as (h'' & Hrun & Hfields).
    rewrite Hcall in Hrun. injection Hrun as -> ->. done.
Qed.

Lemma id_and_pseudoElement_set_witness :
  fields_of (heap_after attr_calls) (value_after attr_calls) = Some attr_fields
  ∧ is_ok (call (value_after attr_calls) "id" "main" (heap_after attr_calls))
    = false
  ∧ ∃ r, call (value_after attr_calls) "pseudoElement" "after"
           (heap_after attr_calls) = Ok r
         ∧ fields_of (snd r) (fst r)
           = Some (with_string "elPseudoElement" "after" attr_fields).
Proof.
  assert (Hs : fields_of (heap_after attr_calls) (value_after attr_calls)
               = Some attr_fields) by (vm_compute; reflexivity).
  destruct (after_reachable attr_calls eq_refl) as (vals & Hr & Ho & _).
  split; [exact Hs|].
  pose proof (id_and_pseudoElement_set _ _ _ _ "main" Hr Ho Hs) as (Hid & _).
  pose proof (id_and_pseudoElement_set _ _ _ _ "after" Hr Ho Hs)
    as (_ & _ & Hpe & Hres).
  split.
  - destruct (is_ok (call (value_after attr_calls) "id" "main"
                       (heap_after attr_calls))); [|reflexivity].
    destruct (proj1 Hid eq_refl) as [_ Hl]. discriminate Hl.
  - destruct (is_ok_inv _ (proj2 Hpe eq_refl)) as [[o' h'] Hcall].
    exists (o', h'). split; [exact Hcall|].
    exact (proj2 (proj2 (Hres _ _ Hcall))).
Defined.

(** X5.  [element(v)] on a simple selector value succeeds exactly when the
    receiver has no element, not even the empty string, and no later-order
    field set to a value that the guards see.  The value it returns is made
    from the builder's [prot] literal and not from the receiver: it has the
    element [v] and no other field.  On a receiver whose element is the
    empty string and that passes the guards, the call throws a TypeError. *)
Theorem element_starts_afresh h vals o s v :
  reachable h vals → o ∈ vals → fields_of h o = Some s →
  (is_ok (call o "element" v h) = true
   ↔ sel_element s = None ∧ later_than_element s = false)
  ∧ (∀ o' h', call o "element" v h = Ok (o', h') →
       o' = length h ∧ (o' ∉ vals)
       ∧ fields_of h' o' = Some (with_string "el" v empty_selector))
  ∧ (sel_element s = Some "" → later_than_element s = false →
     call o "element" v h = Throw TypeError).
Proof.
  intros Hr Ho Hs. destruct (reachable_inv _ _ Hr) as [Hinv Hvals].
  assert (Hfresh : length h ∉ vals).
  { intros Hin. destruct (Hvals _ Hin) as [Hlt _]. lia. }
  pose proof (element_run h vals o s v Hr Ho Hs) as Hrun.
  assert (Hok : is_ok (call o "element" v h) = true →
                sel_element s = None ∧ later_than_element s = false).
  { rewrite Hrun. destruct (sel_element s) as [[|c e]|]; simpl; [| |].
    - by destruct (later_than_element s).
    - done.
    - by destruct (later_than_element s). }
  split; [|split].
  - split; [exact Hok|]. intros [Hn Hl]. by rewrite Hrun, Hn, Hl.
  - intros o' h' Hcall.
    destruct Hok as [Hn Hl]; [by rewrite Hcall|].
    destruct (element_call h vals o s v Hr Ho Hs Hn Hl) as (h'' & Hrun' & Hfields).
    rewrite Hcall in Hrun'. injection Hrun' as -> ->. done.
  - intros He Hl. by rewrite Hrun, He, Hl.
Qed.

Lemma element_starts_afresh_witness :
  fields_of (heap_after [("id", "")]) (value_after [("id", "")])
  = Some (with_string "elID" "" empty_selector)
  ∧ (∃ r, call (value_after [("id", "")]) "element" "a" (heap_after [("id", "")])
          = Ok r
          ∧ fields_of (snd r) (fst r) = Some (with_string "el" "a" empty_selector))
  ∧ fields_of (heap_after [("element", "")]) (value_after [("element", "")])
    = Some (with_string "el" "" empty_selector)
  ∧ call (value_after [("element", "")]) "element" "a"
      (heap_after [("element", "")])
    = Throw TypeError.
Proof.
  assert (Hs : fields_of (heap_after [("id", "")]) (value_after [("id", "")])
               = Some (with_string "elID" "" empty_selector))
    by (vm_compute; reflexivity).
  assert (Hs' : fields_of (heap_after [("element", "")])
                  (value_after [("element", "")])
                = Some (with_string "el" "" empty_selector))
    by (vm_compute; reflexivity).
  destruct (after_reachable [("id", "")] eq_refl) as (vals & Hr & Ho & _).
  destruct (after_reachable [("element", "")] eq_refl) as (vals' & Hr' & Ho' & _).
  split; [exact Hs|]. split; [|split; [exact Hs'|]].
  - pose proof (element_starts_afresh _ _ _ _ "a" Hr Ho Hs) as (Hok & Hres & _).
    destruct (is_ok_inv _ (proj2 Hok (conj eq_refl eq_refl))) as [[o' h'] Hcall].
    exists (o', h'). split; [exact Hcall|].
    exact (proj2 (proj2 (Hres _ _ Hcall))).
  - exact (proj2 (proj2 (element_starts_afresh _ _ _ _ "a" Hr' Ho' Hs'))
             eq_refl eq_refl).
Defined.

(** ** The selectors that are there, as the program goes on *)

Lemma call_combine_inv o s1 c s2 h o' h' :
  call_combine o s1 c s2 h = Ok (o', h') → combine o s1 c s2 h = Ok (o', h').
Proof.
  unfold call_combine. by destruct (get h o "combine") as [|?|?|[]].
Qed.

Lemma later_reachable h vals h' vals' :
  reachable h vals → later h vals h' vals' →
  reachable h' vals' ∧ heap_le h h' ∧ ∀ x, x ∈ vals → x ∈ vals'.
Proof.
  intros Hr.
  induction 1 as [|h1 vals1 o name v o' h' _ (Hr1 & Hle & Hsub) Ho Hcall
                  |h1 vals1 o s1 c s2 o' h' _ (Hr1 & Hle & Hsub) Ho Hs1 Hs2 Hcall].
  - split; [done|]. split; [apply heap_le_refl|done].
  - destruct (reachable_inv _ _ Hr1) as [Hinv Hvals].
    destruct (call_step _ _ _ _ _ _ Hinv (Hvals _ Ho) Hcall) as (_ & _ & Hle' & _).
    split; [by apply (reachable_call h1 vals1 o name v)|].
    split; [by eapply heap_le_trans|].
    intros x Hx. apply elem_of_cons. right. by apply Hsub.
  - destruct (reachable_inv _ _ Hr1) as [Hinv Hvals].
    destruct (combine_step _ _ _ _ _ _ _ Hinv (Hvals _ Ho)
                (call_combine_inv _ _ _ _ _ _ _ Hcall)) as (_ & _ & Hle' & _).
    split; [by apply (reachable_combine h1 vals1 o s1 c s2)|].
    split; [by eapply heap_le_trans|].
    intros x Hx. apply elem_of_cons. right. by apply Hsub.
Qed.

(** A combined selector stringifies to its [combined] property. *)
Lemma combined_stringify h o c s1 s2 :
  typed h → h !! o = Some (combined_cell c s1 s2) → call_stringify o h = Ok c.
Proof.
  intros Hty Hcell. unfold call_stringify.
  rewrite (combined_cell_get _ _ _ _ _ "stringify" Hcell). simpl.
  apply stringify_combined.
  - by rewrite (combined_cell_get _ _ _ _ _ "combined" Hcell).
  - destruct (Hty o None _ "combined" (VStr c) Hcell) as (_ & _ & _ & Hc);
      [by rewrite lookup_insert_eq|].
    destruct (Hc eq_refl) as (c' & [= <-] & Hne). done.
Qed.

(** A builder call that succeeds was made on a simple selector value. *)
Lemma call_receiver_simple h vals o name v o' h' :
  reachable h vals → o ∈ vals → call o name v h = Ok (o', h') →
  ∃ s, fields_of h o = Some s.
Proof.
  intros Hr Ho Hcall.
  destruct (fields_of h o) as [s|] eqn:Hs; [by eexists|].
  destruct (combined_kind _ _ _ Hr Ho Hs) as (c & s1 & s2 & Hcell).
  destruct (call_shape _ _ _ _ _ _ Hcall) as ((f & Hf & Hns & _) & _).
  by destruct (combined_cell_methods _ _ _ _ _ _ _ Hcell Hf) as [_ ->].
Qed.

Lemma grows_refl f : grows f f.
Proof. destruct f as [xs|]; [|done]. exists []. by rewrite app_nil_r. Qed.

Lemma grows_trans f1 f2 f3 : grows f1 f2 → grows f2 f3 → grows f1 f3.
Proof.
  destruct f1 as [xs|]; simpl.
  - intros [ys ->] [zs ->]. exists (ys ++ zs). by rewrite app_assoc.
  - by intros ->.
Qed.

Lemma extends_refl s : extends s s.
Proof. repeat split; apply grows_refl. Qed.

Lemma extends_trans s1 s2 s3 : extends s1 s2 → extends s2 s3 → extends s1 s3.
Proof.
  intros (He & Hi & Hpe & Hc & Ha & Hp) (He' & Hi' & Hpe' & Hc' & Ha' & Hp').
  repeat split; try congruence; by eapply grows_trans.
Qed.

Lemma array_field_set h v f :
  array_field h v = Some f → v ≠ VUndef → ∃ xs, f = Some xs.
Proof.
  destruct v as [| |a|]; simpl; try done.
  destruct (h !! a) as [[|xs]|]; try done. intros [= <-] _. eauto.
Qed.

Lemma extends_pushed h o k v s :
  fields_of h o = Some s → k ∈ array_keys → get h o k ≠ VUndef →
  extends s (pushed k v s).
Proof.
  intros (_ & _ & _ & Hc & Ha & Hp & _)%fields_of_Some Hk Hne.
  key_cases Hk; unfold pushed; simpl.
  - destruct (array_field_set _ _ _ Hc Hne) as [xs Hxs].
    repeat split; try apply grows_refl. rewrite Hxs. simpl. eauto.
  - destruct (array_field_set _ _ _ Ha Hne) as [xs Hxs].
    repeat split; try apply grows_refl. rewrite Hxs. simpl. eauto.
  - destruct (array_field_set _ _ _ Hp Hne) as [xs Hxs].
    repeat split; try apply grows_refl. rewrite Hxs. simpl. eauto.
Qed.

(** One builder call, seen from a simple selector that was there. *)
Lemma call_extends h vals o name v o' h' o2 s2 :
  reachable h vals → o ∈ vals → o2 ∈ vals →
  call o name v h = Ok (o', h') → fields_of h o2 = Some s2 →
  ∃ s2', fields_of h' o2 = Some s2' ∧ extends s2 s2'.
Proof.
  intros Hr Ho Ho2 Hcall Hs2.
  destruct (call_receiver_simple _ _ _ _ _ _ _ Hr Ho Hcall) as [s Hs].
  destruct (reachable_inv _ _ Hr) as [Hinv Hvals].
  assert (Hlt : o < length h) by apply (Hvals _ Ho).
  assert (Hlt2 : o2 < length h) by apply (Hvals _ Ho2).
  assert (Hset : ∀ p k x,
            (obj <- Object_create p ;; set_own obj k x ;;; ret obj)%js h
            = Ok (o', h') →
            ∃ s2', fields_of h' o2 = Some s2' ∧ extends s2 s2').
  { intros p k x (q & _ & _ & ->)%create_set_inv. exists s2.
    split; [by rewrite fields_of_app|apply extends_refl]. }
  assert (Hpush : ∀ k, k ∈ array_keys →
            push_or_create o k v h = Ok (o', h') →
            ∃ s2', fields_of h' o2 = Some s2' ∧ extends s2 s2').
  { intros k Hk Hrun.
    rewrite (push_or_create_others h o k v s h' o' o2 s2 Hinv Hlt Hlt2 Hs Hs2 Hk Hrun).
    eexists. split; [reflexivity|].
    destruct (decide (get h o2 k = get h o k ∧ get h o k ≠ VUndef)) as [[He Hne]|_];
      [|apply extends_refl].
    eapply extends_pushed; [done..|congruence]. }
  revert Hcall. unfold call.
  destruct (get h o name) as [|?|?|[]]; try discriminate.
  - unfold element. destruct (truthy _); [discriminate|].
    destruct (_ || _); [discriminate|]. apply Hset.
  - unfold id. destruct (truthy _); [discriminate|].
    destruct (_ || _); [discriminate|]. apply Hset.
  - unfold class. destruct (_ || _); [discriminate|]. apply Hpush. key_in.
  - unfold attr. destruct (_ || _); [discriminate|]. apply Hpush. key_in.
  - unfold pseudoClass. destruct (truthy _); [discriminate|]. apply Hpush. key_in.
  - unfold pseudoElement. destruct (truthy _); [discriminate|]. apply Hset.
Qed.

(** X6.  A simple selector that is there keeps its element, its id and its
    pseudo-element whatever the program does next, and each of its three
    sequences only grows at its end: an absent sequence stays absent, a
    present one keeps its items, in order, before any new one. *)
Theorem simple_selectors_only_grow h vals h' vals' o s :
  reachable h vals → later h vals h' vals' →
  o ∈ vals → fields_of h o = Some s →
  ∃ s', fields_of h' o = Some s' ∧ extends s s'.
Proof.
  intros Hr Hl. revert o s.
  induction Hl as [|h1 vals1 x name v o' h' Hl IH Hx Hcall
                   |h1 vals1 x s1 c s2 o' h' Hl IH Hx Hs1 Hs2 Hcall];
    intros o s Ho Hs.
  - exists s. split; [done|apply extends_refl].
  - destruct (IH o s Ho Hs) as (s' & Hs' & Hext).
    destruct (later_reachable _ _ _ _ Hr Hl) as (Hr1 & _ & Hsub).
    destruct (call_extends _ _ _ _ _ _ _ o s' Hr1 Hx (Hsub _ Ho) Hcall Hs')
      as (s'' & Hs'' & Hext').
    exists s''. split; [done|by eapply extends_trans].
  - destruct (IH o s Ho Hs) as (s' & Hs' & Hext).
    destruct (later_reachable _ _ _ _ Hr Hl) as (Hr1 & _ & Hsub).
    destruct (reachable_inv _ _ Hr1) as [Hinv Hvals].
    apply call_combine_inv, combine_inv in Hcall as (a & b & _ & _ & _ & ->).
    exists s'. split; [|done].
    rewrite fields_of_app; [done..|apply (Hvals _ (Hsub _ Ho))].
Qed.

(** X7.  A combined selector never changes: whatever the program does
    next, also to the two selectors it was combined from, it stays a
    combined selector and its [stringify()] returns the string computed
    when [combine] was called. *)
Theorem combined_is_frozen h vals h' vals' o :
  reachable h vals → later h vals h' vals' →
  o ∈ vals → fields_of h o = None →
  fields_of h' o = None ∧ call_stringify o h' = call_stringify o h.
Proof.
  intros Hr Hl Ho Hnone.
  destruct (later_reachable _ _ _ _ Hr Hl) as (Hr' & Hle & _).
  destruct (combined_kind _ _ _ Hr Ho Hnone) as (c & s1 & s2 & Hcell).
  assert (Hcell' : h' !! o = Some (combined_cell c s1 s2)).
  { specialize (Hle o). by rewrite Hcell in Hle. }
  destruct (reachable_inv _ _ Hr) as [Hinv _].
  destruct (reachable_inv _ _ Hr') as [Hinv' _].
  split.
  - unfold fields_of. by rewrite (combined_cell_get _ _ _ _ _ "combined" Hcell').
  - rewrite (combined_stringify h o c s1 s2), (combined_stringify h' o c s1 s2);
      [done|apply Hinv'|done|apply Hinv|done].
Qed.

(** X8.  A combined selector has [stringify] and no builder method:
    calling [element], [id], [class], [attr], [pseudoClass] or
    [pseudoElement] on it throws a TypeError, and so does [combine]. *)
Theorem combined_rejects_calls h vals o :
  reachable h vals → o ∈ vals → fields_of h o = None →
  (∀ name v, name ∈ builder_names → call o name v h = Throw TypeError)
  ∧ (∀ a c b, call_combine o a c b h = Throw TypeError).
Proof.
  intros Hr Ho Hnone.
  destruct (combined_kind _ _ _ Hr Ho Hnone) as (c & s1 & s2 & Hcell).
  split.
  - intros name v Hname. unfold call.
    rewrite (combined_cell_get _ _ _ _ _ name Hcell).
    unfold builder_names in Hname. rewrite !elem_of_cons, elem_of_nil in Hname.
    by destruct Hname as [->|[->|[->|[->|[->|[->|[]]]]]]].
  - intros a c' b. unfold call_combine.
    by rewrite (combined_cell_get _ _ _ _ _ "combine" Hcell).
Qed.

(** ** Examples of later heaps *)

Lemma run_inv (m : M loc) h :
  is_ok (m h) = true → m h = Ok (value_of m h, heap_of m h).
Proof.
  unfold value_of, heap_of. by destruct (m h) as [[o h']| |].
Qed.

Lemma builder_reachable h vals : reachable h vals → cssSelectorBuilder ∈ vals.
Proof.
  induction 1; [apply list_elem_of_here|by apply list_elem_of_further..].
Qed.

Lemma combined_reachable :
  ∃ vals, reachable combined_heap (combined_value :: vals)
          ∧ value_after shared_calls ∈ vals
          ∧ fields_of combined_heap (value_after shared_calls)
            = Some (pushed "elClass" "a" empty_selector)
          ∧ fields_of combined_heap combined_value = None
          ∧ later combined_heap (combined_value :: vals) pushed_heap
              (value_of push_shared combined_heap :: combined_value :: vals).
Proof.
  destruct (after_reachable shared_calls eq_refl) as (vals & Hr & Ho & Hb).
  pose proof (run_inv combine_shared (heap_after shared_calls)
                ltac:(vm_compute; reflexivity)) as Hrun.
  pose proof (run_inv push_shared combined_heap ltac:(vm_compute; reflexivity))
    as Hpush.
  exists vals. split; [|split; [exact Ho|split; [|split]]].
  - exact (reachable_combine _ _ _ _ _ _ _ _ Hr Hb Ho Hb Hrun).
  - vm_compute. reflexivity.
  - vm_compute. reflexivity.
  - eapply later_call; [apply later_now| |exact Hpush].
    apply list_elem_of_further. exact Ho.
Qed.

Lemma simple_selectors_only_grow_witness :
  ∃ s', fields_of pushed_heap (value_after shared_calls) = Some s'
        ∧ extends (pushed "elClass" "a" empty_selector) s'.
Proof.
  destruct combined_reachable as (vals & Hr & Ho & Hs & _ & Hl).
  exact (simple_selectors_only_grow _ _ _ _ _ _ Hr Hl
           (list_elem_of_further _ _ _ Ho) Hs).
Defined.

Lemma combined_is_frozen_witness :
  fields_of pushed_heap combined_value = None
  ∧ call_stringify combined_value pushed_heap
    = call_stringify combined_value combined_heap.
Proof.
  destruct combined_reachable as (vals & Hr & _ & _ & Hc & Hl).
  exact (combined_is_frozen _ _ _ _ _ Hr Hl (list_elem_of_here _ _) Hc).
Defined.

Lemma combined_rejects_calls_witness :
  call combined_value "class" "wide" combined_heap = Throw TypeError
  ∧ call_combine combined_value cssSelectorBuilder ">" cssSelectorBuilder
      combined_heap
    = Throw TypeError.
Proof.
  destruct combined_reachable as (vals & Hr & _ & _ & Hc & _).
  pose proof (combined_rejects_calls _ _ _ Hr (list_elem_of_here _ _) Hc)
    as [Hcall Hcomb].
  split; [apply Hcall; key_in|apply Hcomb].
Defined.

(** ** [combine] from any simple receiver, and nested *)

Lemma call_combine_simple h vals r sr a b c :
  reachable h vals → r ∈ vals → fields_of h r = Some sr →
  a ∈ vals → b ∈ vals →
  ∃ sa sb,
    call_stringify a h = Ok sa ∧ call_stringify b h = Ok sb
    ∧ call_combine r a c b h
      = Ok (length h,
            h ++ [combined_cell ((sa +:+ (" " +:+ c) +:+ " ") +:+ sb) a b]).
Proof.
  intros [Hinv Hvals]%reachable_inv Hr Hsr Ha Hb.
  destruct (stringify_total h a (inv_typed _ Hinv)) as [sa Hsa].
  destruct (stringify_total h b (inv_typed _ Hinv)) as [sb Hsb].
  rewrite <- (call_stringify_value h a) in Hsa by auto.
  rewrite <- (call_stringify_value h b) in Hsb by auto.
  exists sa, sb. split; [done|]. split; [done|].
  pose proof (simple_has_methods _ _ _ (Hvals _ Hr) Hsr) as Hm.
  unfold call_combine. rewrite (Hm "combine" Fcombine) by (unfold methods; key_in).
  rewrite (combine_run r a c b h sa sb Hsa Hsb).
  by rewrite (Hm "stringify" Fstringify) by (unfold methods; key_in).
Qed.

(** [combine] on the builder: the new value, in a heap that is reachable
    again. *)
Lemma combine_builder h vals a b c :
  reachable h vals → a ∈ vals → b ∈ vals →
  ∃ sa sb h',
    call_stringify a h = Ok sa ∧ call_stringify b h = Ok sb
    ∧ call_combine cssSelectorBuilder a c b h = Ok (length h, h')
    ∧ reachable h' (length h :: vals)
    ∧ call_stringify (length h) h' = Ok ((sa +:+ (" " +:+ c) +:+ " ") +:+ sb)
    ∧ ∀ x, x ∈ vals → call_stringify x h' = call_stringify x h.
Proof.
  intros Hr Ha Hb. destruct (reachable_inv _ _ Hr) as [Hinv Hvals].
  pose proof (builder_reachable _ _ Hr) as Hbuilder.
  destruct (call_combine_simple h vals cssSelectorBuilder empty_selector a b c
              Hr Hbuilder (builder_fields h Hinv) Ha Hb)
    as (sa & sb & Hsa & Hsb & Hrun).
  exists sa, sb. eexists. split; [done|]. split; [done|]. split; [exact Hrun|].
  pose proof (reachable_combine _ _ _ _ _ _ _ _ Hr Hbuilder Ha Hb Hrun) as Hr'.
  split; [exact Hr'|]. split.
  - eapply combined_stringify; [apply (reachable_inv _ _ Hr')|].
    by apply list_lookup_middle.
  - intros x Hx. apply call_stringify_app; [done|apply (Hvals _ Hx)].
Qed.

(** X9.  [combine] uses its receiver for nothing but its [stringify]
    method: called on any simple selector value it does what it does on
    the builder.  And nesting is associative on the strings: for selectors
    [a], [b], [d], [combine(combine(a, c1, b), c2, d)] and
    [combine(a, c1, combine(b, c2, d))] both stringify to
    [a + ' c1 ' + b + ' c2 ' + d]. *)
Theorem combine_nests h vals a b d c1 c2 :
  reachable h vals → a ∈ vals → b ∈ vals → d ∈ vals →
  (∀ r sr, r ∈ vals → fields_of h r = Some sr →
     call_combine r a c1 b h = call_combine cssSelectorBuilder a c1 b h)
  ∧ ∃ sa sb sd,
      call_stringify a h = Ok sa ∧ call_stringify b h = Ok sb
      ∧ call_stringify d h = Ok sd
      ∧ stringify_result (combine_left a c1 b c2 d) h
        = Ok (sa +:+ " " +:+ c1 +:+ " " +:+ sb +:+ " " +:+ c2 +:+ " " +:+ sd)
      ∧ stringify_result (combine_right a c1 b c2 d) h
        = Ok (sa +:+ " " +:+ c1 +:+ " " +:+ sb +:+ " " +:+ c2 +:+ " " +:+ sd).
Proof.
  intros Hr Ha Hb Hd. destruct (reachable_inv _ _ Hr) as [Hinv Hvals].
  split.
  - intros r sr Hin Hsr.
    destruct (call_combine_simple h vals r sr a b c1 Hr Hin Hsr Ha Hb)
      as (sa & sb & Hsa & Hsb & ->).
    destruct (call_combine_simple h vals cssSelectorBuilder empty_selector a b c1
                Hr (builder_reachable _ _ Hr) (builder_fields h Hinv) Ha Hb)
      as (sa' & sb' & Hsa' & Hsb' & ->).
    congruence.
  - destruct (combine_builder h vals a b c1 Hr Ha Hb)
      as (sa & sb & h1 & Hsa & Hsb & Hrun1 & Hr1 & Hs1 & Hold1).
    destruct (combine_builder h vals b d c2 Hr Hb Hd)
      as (sb' & sd & h2 & Hsb' & Hsd & Hrun2 & Hr2 & Hs2 & Hold2).
    assert (sb' = sb) as -> by congruence.
    exists sa, sb, sd. split; [done|]. split; [done|]. split; [done|]. split.
    + destruct (combine_builder h1 (length h :: vals) (length h) d c2 Hr1)
        as (x & y & h3 & Hx & Hy & Hrun3 & _ & Hs3 & _);
        [apply list_elem_of_here|by apply list_elem_of_further|].
      rewrite Hs1 in Hx. injection Hx as <-.
      rewrite (Hold1 _ Hd), Hsd in Hy. injection Hy as <-.
      unfold stringify_result, combine_left, bind. rewrite Hrun1, Hrun3.
      cbn [obind fst snd]. rewrite Hs3. by rewrite !append_assoc.
    + destruct (combine_builder h2 (length h :: vals) a (length h) c1 Hr2)
        as (x & y & h3 & Hx & Hy & Hrun3 & _ & Hs3 & _);
        [by apply list_elem_of_further|apply list_elem_of_here|].
      rewrite Hs2 in Hy. injection Hy as <-.
      rewrite (Hold2 _ Ha), Hsa in Hx. injection Hx as <-.
      unfold stringify_result, combine_right, bind. rewrite Hrun2, Hrun3.
      cbn [obind fst snd]. rewrite Hs3. by rewrite !append_assoc.
Qed.

Lemma combine_nests_witness :
  ∃ sa sb sd,
    call_stringify (value_after sample_calls) (heap_after sample_calls) = Ok sa
    ∧ call_stringify cssSelectorBuilder (heap_after sample_calls) = Ok sb
    ∧ call_stringify (value_after sample_calls) (heap_after sample_calls) = Ok sd
    ∧ stringify_result
        (combine_left (value_after sample_calls) "+" cssSelectorBuilder "~"
           (value_after sample_calls)) (heap_after sample_calls)
      = Ok (sa +:+ " " +:+ "+" +:+ " " +:+ sb +:+ " " +:+ "~" +:+ " " +:+ sd)
    ∧ stringify_result
        (combine_right (value_after sample_calls) "+" cssSelectorBuilder "~"
           (value_after sample_calls)) (heap_after sample_calls)
      = Ok (sa +:+ " " +:+ "+" +:+ " " +:+ sb +:+ " " +:+ "~" +:+ " " +:+ sd).
Proof.
  destruct (after_reachable sample_calls eq_refl) as (vals & Hr & Ho & Hb).
  exact (proj2 (combine_nests _ _ _ _ _ "+" "~" Hr Ho Hb Ho)).
Defined.

(** ** Chains of calls *)

Lemma chain_app l1 l2 : ∀ o h,
  chain (l1 ++ l2) o h
  = match chain l1 o h with
    | Ok (o1, h1) => chain l2 o1 h1
    | Throw e => Throw e
    | Outside => Outside
    end.
Proof.
  induction l1 as [|[name v] l1 IH]; intros o h; [reflexivity|].
  simpl. unfold bind. destruct (call o name v h) as [[o1 h1]| |]; auto.
Qed.

Lemma chain_later calls : ∀ h vals o o' h',
  o ∈ vals → chain calls o h = Ok (o', h') →
  ∃ vals', later h vals h' vals' ∧ o' ∈ vals'.
Proof.
  assert (Hgen : ∀ h vals h1 vals1 o o' h',
            later h vals h1 vals1 → o ∈ vals1 → chain calls o h1 = Ok (o', h') →
            ∃ vals', later h vals h' vals' ∧ o' ∈ vals').
  { induction calls as [|[name v] calls IH]; intros h vals h1 vals1 o o' h' Hl Ho Hrun.
    - injection Hrun as <- <-. eauto.
    - simpl in Hrun. unfold bind in Hrun.
      destruct (call o name v h1) as [[o2 h2]| |] eqn:Hcall; try discriminate.
      eapply (IH h vals h2 (o2 :: vals1) o2);
        [by eapply later_call|apply list_elem_of_here|done]. }
  intros h vals o o' h' Ho Hrun.
  exact (Hgen h vals h vals o o' h' (later_now h vals) Ho Hrun).
Qed.

Lemma built_step h o s name v h' s' :
  built h o s → call o name v h = Ok (length h, h') →
  fields_of h' (length h) = Some s' → built h' (length h) s'.
Proof.
  intros (vals & Hr & Ho & _) Hcall Hs'. exists (length h :: vals).
  split; [by eapply reachable_call|]. split; [apply list_elem_of_here|done].
Qed.

Lemma stage_element h o s field :
  built h o s → sel_element s = None → later_than_element s = false →
  ∃ o' h', chain (optional_call "element" field) o h = Ok (o', h')
           ∧ built h' o' (match field with
                          | Some v => with_string "el" v empty_selector
                          | None => s
                          end).
Proof.
  intros Hb Hn Hl. destruct field as [v|]; [|by exists o, h].
  destruct Hb as (vals & Hr & Ho & Hs).
  destruct (element_call h vals o s v Hr Ho Hs Hn Hl) as (h' & Hcall & Hs').
  exists (length h), h'. simpl. unfold bind. rewrite Hcall.
  split; [done|]. eapply built_step; [by exists vals|done..].
Qed.

Lemma stage_id h o s field :
  built h o s → filled (sel_id s) = false → later_than_id s = false →
  ∃ o' h', chain (optional_call "id" field) o h = Ok (o', h')
           ∧ built h' o' (match field with
                          | Some v => with_string "elID" v s
                          | None => s
                          end).
Proof.
  intros Hb Hn Hl. destruct field as [v|]; [|by exists o, h].
  destruct Hb as (vals & Hr & Ho & Hs).
  destruct (id_call h vals o s v Hr Ho Hs Hn Hl) as (h' & Hcall & Hs').
  exists (length h), h'. simpl. unfold bind. rewrite Hcall.
  split; [done|]. eapply built_step; [by exists vals|done..].
Qed.

Lemma stage_pseudoElement h o s field :
  built h o s → filled (sel_pseudoElement s) = false →
  ∃ o' h', chain (optional_call "pseudoElement" field) o h = Ok (o', h')
           ∧ built h' o' (match field with
                          | Some v => with_string "elPseudoElement" v s
                          | None => s
                          end).
Proof.
  intros Hb Hn. destruct field as [v|]; [|by exists o, h].
  destruct Hb as (vals & Hr & Ho & Hs).
  destruct (pseudoElement_call h vals o s v Hr Ho Hs Hn) as (h' & Hcall & Hs').
  exists (length h), h'. simpl. unfold bind. rewrite Hcall.
  split; [done|]. eapply built_step; [by exists vals|done..].
Qed.

(** [class], [attr] and [pseudoClass] with their guard passed are the
    shared body. *)
Lemma push_guard_passed h vals o s v :
  reachable h vals → o ∈ vals → fields_of h o = Some s →
  (later_than_class s = false →
   call o "class" v h = push_or_create o "elClass" v h)
  ∧ (later_than_attr s = false →
     call o "attr" v h = push_or_create o "elAttrs" v h)
  ∧ (later_than_pseudoClass s = false →
     call o "pseudoClass" v h = push_or_create o "elPseudoClass" v h).
Proof.
  intros [Hinv Hvals]%reachable_inv Ho Hs.
  destruct (call_simple h o s v (Hvals _ Ho) Hs) as (_ & _ & -> & -> & -> & _).
  unfold class, attr, pseudoClass.
  rewrite (later_than_class_guard h o s Hs), (later_than_attr_guard h o s Hs).
  destruct (guards_of_fields h o s Hs) as (_ & _ & _ & _ & _ & ->).
  unfold later_than_pseudoClass. repeat split; by intros ->.
Qed.

Lemma stage_each name k (guard : selector → bool) :
  k ∈ array_keys →
  (∀ h vals o s v, reachable h vals → o ∈ vals → fields_of h o = Some s →
     guard s = false → call o name v h = push_or_create o k v h) →
  (∀ v s, guard (pushed k v s) = guard s) →
  ∀ xs h o s, built h o s → guard s = false →
  ∃ o' h', chain (map (fun v => (name, v)) xs) o h = Ok (o', h')
           ∧ built h' o' (pushed_each k xs s).
Proof.
  intros Hk Hcall Hguard xs.
  induction xs as [|x xs IH]; intros h o s Hb Hg; [by exists o, h|].
  destruct Hb as (vals & Hr & Ho & Hs).
  destruct (push_call h vals o s k x Hr Ho Hs Hk) as (h1 & Hrun & Hs1 & _).
  rewrite <- (Hcall h vals o s x Hr Ho Hs Hg) in Hrun.
  destruct (IH h1 (length h) (pushed k x s)) as (o' & h' & Hchain & Hb').
  { eapply built_step; [by exists vals|done..]. }
  { by rewrite Hguard. }
  exists o', h'. simpl. unfold bind. rewrite Hrun. done.
Qed.

Lemma pushed_each_classes xs : ∀ s,
  pushed_each "elClass" xs s
  = {| sel_element := sel_element s; sel_id := sel_id s;
       sel_classes := match xs with
                      | [] => sel_classes s
                      | _ => Some (default [] (sel_classes s) ++ xs)
                      end;
       sel_attributes := sel_attributes s;
       sel_pseudoClasses := sel_pseudoClasses s;
       sel_pseudoElement := sel_pseudoElement s |}.
Proof.
  unfold pushed_each.
  induction xs as [|x xs IH]; intros s; simpl; [by destruct s|].
  rewrite IH. unfold pushed, append_field. simpl.
  f_equal. destruct xs; simpl; [done|]. by rewrite <- app_assoc.
Qed.

Lemma pushed_each_attributes xs : ∀ s,
  pushed_each "elAttrs" xs s
  = {| sel_element := sel_element s; sel_id := sel_id s;
       sel_classes := sel_classes s;
       sel_attributes := match xs with
                         | [] => sel_attributes s
                         | _ => Some (default [] (sel_attributes s) ++ xs)
                         end;
       sel_pseudoClasses := sel_pseudoClasses s;
       sel_pseudoElement := sel_pseudoElement s |}.
Proof.
  unfold pushed_each.
  induction xs as [|x xs IH]; intros s; simpl; [by destruct s|].
  rewrite IH. unfold pushed, append_field. simpl.
  f_equal. destruct xs; simpl; [done|]. by rewrite <- app_assoc.
Qed.

Lemma pushed_each_pseudoClasses xs : ∀ s,
  pushed_each "elPseudoClass" xs s
  = {| sel_element := sel_element s; sel_id := sel_id s;
       sel_classes := sel_classes s;
       sel_attributes := sel_attributes s;
       sel_pseudoClasses := match xs with
                            | [] => sel_pseudoClasses s
                            | _ => Some (default [] (sel_pseudoClasses s) ++ xs)
                            end;
       sel_pseudoElement := sel_pseudoElement s |}.
Proof.
  unfold pushed_each.
  induction xs as [|x xs IH]; intros s; simpl; [by destruct s|].
  rewrite IH. unfold pushed, append_field. simpl.
  f_equal. destruct xs; simpl; [done|]. by rewrite <- app_assoc.
Qed.

Lemma built_from_builder h vals s :
  reachable h vals → proper s →
  ∃ o h', chain (calls_of s) cssSelectorBuilder h = Ok (o, h') ∧ built h' o s.
Proof.
  intros Hr (Hpc & Hpa & Hpp).
  destruct s as [e i cs ats pcs pe]. simpl in Hpc, Hpa, Hpp.
  unfold calls_of. simpl.
  assert (Hb0 : built h cssSelectorBuilder empty_selector).
  { exists vals. split; [done|]. split; [by eapply builder_reachable|].
    apply builder_fields. by apply reachable_inv in Hr as [? _]. }
  destruct (stage_element _ _ _ e Hb0 eq_refl eq_refl) as (o1 & h1 & Hrun1 & Hb1).
  assert (Hs1 : match e with
                | Some v => with_string "el" v empty_selector
                | None => empty_selector
                end
                = Build_selector e None None None None None) by (by destruct e).
  rewrite Hs1 in Hb1. clear Hs1.
  destruct (stage_id _ _ _ i Hb1 eq_refl eq_refl) as (o2 & h2 & Hrun2 & Hb2).
  assert (Hs2 : match i with
                | Some v => with_string "elID" v
                              (Build_selector e None None None None None)
                | None => Build_selector e None None None None None
                end
                = Build_selector e i None None None None) by (by destruct i).
  rewrite Hs2 in Hb2. clear Hs2.
  destruct (stage_each "class" "elClass" later_than_class ltac:(key_in)
              (λ h vals o s v Hr Ho Hs,
                 proj1 (push_guard_passed h vals o s v Hr Ho Hs))
              (λ v s, eq_refl) (default [] cs) _ _ _ Hb2 eq_refl)
    as (o3 & h3 & Hrun3 & Hb3).
  assert (Hs3 : pushed_each "elClass" (default [] cs)
                  (Build_selector e i None None None None)
                = Build_selector e i cs None None None).
  { rewrite pushed_each_classes. by destruct cs as [[|c cs']|]. }
  rewrite Hs3 in Hb3. clear Hs3.
  destruct (stage_each "attr" "elAttrs" later_than_attr ltac:(key_in)
              (λ h vals o s v Hr Ho Hs,
                 proj1 (proj2 (push_guard_passed h vals o s v Hr Ho Hs)))
              (λ v s, eq_refl) (default [] ats) _ _ _ Hb3 eq_refl)
    as (o4 & h4 & Hrun4 & Hb4).
  assert (Hs4 : pushed_each "elAttrs" (default [] ats)
                  (Build_selector e i cs None None None)
                = Build_selector e i cs ats None None).
  { rewrite pushed_each_attributes. by destruct ats as [[|a ats']|]. }
  rewrite Hs4 in Hb4. clear Hs4.
  destruct (stage_each "pseudoClass" "elPseudoClass" later_than_pseudoClass
              ltac:(key_in)
              (λ h vals o s v Hr Ho Hs,
                 proj2 (proj2 (push_guard_passed h vals o s v Hr Ho Hs)))
              (λ v s, eq_refl) (default [] pcs) _ _ _ Hb4 eq_refl)
    as (o5 & h5 & Hrun5 & Hb5).
  assert (Hs5 : pushed_each "elPseudoClass" (default [] pcs)
                  (Build_selector e i cs ats None None)
                = Build_selector e i cs ats pcs None).
  { rewrite pushed_each_pseudoClasses. by destruct pcs as [[|p pcs']|]. }
  rewrite Hs5 in Hb5. clear Hs5.
  destruct (stage_pseudoElement _ _ _ pe Hb5 eq_refl) as (o6 & h6 & Hrun6 & Hb6).
  assert (Hs6 : match pe with
                | Some v => with_string "elPseudoElement" v
                              (Build_selector e i cs ats pcs None)
                | None => Build_selector e i cs ats pcs None
                end
                = Build_selector e i cs ats pcs pe) by (by destruct pe).
  rewrite Hs6 in Hb6. clear Hs6.
  exists o6, h6. split; [|done].
  rewrite chain_app, Hrun1, chain_app, Hrun2.
  unfold each_call. rewrite chain_app, Hrun3, chain_app, Hrun4, chain_app, Hrun5.
  done.
Qed.

(** X10.  Any selector can be built: for all fields, with sequences that
    are absent or not empty and strings that may be empty, calling the
    methods in the order element, id, classes, attributes, pseudo-classes,
    pseudo-element on the builder, in any heap the program has reached,
    succeeds and returns a selector with exactly these fields, which
    stringifies to their rendering. *)
Theorem ordered_calls_build h vals s :
  reachable h vals → proper s →
  ∃ o h', chain (calls_of s) cssSelectorBuilder h = Ok (o, h')
          ∧ fields_of h' o = Some s
          ∧ call_stringify o h' = Ok (stringify_fields s).
Proof.
  intros Hr Hp.
  destruct (built_from_builder h vals s Hr Hp)
    as (o & h' & Hrun & vals' & Hr' & Ho & Hs).
  exists o, h'. split; [done|]. split; [done|].
  destruct (reachable_inv _ _ Hr') as [Hinv Hvals].
  rewrite call_stringify_value by auto. by apply stringify_fields_correct.
Qed.

Lemma ordered_calls_build_witness :
  ∃ o h', chain (calls_of full_fields) cssSelectorBuilder (heap_after sample_calls)
          = Ok (o, h')
          ∧ fields_of h' o = Some full_fields
          ∧ call_stringify o h' = Ok "a#top.wide.dark[href]:hover:focus::after".
Proof.
  destruct (after_reachable sample_calls eq_refl) as (vals & Hr & _).
  apply (ordered_calls_build _ _ full_fields Hr).
  repeat split; discriminate.
Defined.

(** ** Chains that start at the builder leave the heap they start in *)

Lemma keeps_length h0 h : keeps h0 h → length h0 ≤ length h.
Proof.
  intros Hk. destruct (decide (length h0 = 0)) as [|Hn]; [lia|].
  destruct (lookup_lt_is_Some_2 h0 (length h0 - 1)) as [c Hc]; [lia|].
  rewrite <- (Hk (length h0 - 1)) in Hc by lia.
  apply lookup_lt_Some in Hc. lia.
Qed.

Lemma keeps_app h0 h t : keeps h0 h → keeps h0 (h ++ t).
Proof.
  intros Hk l Hl. pose proof (keeps_length _ _ Hk).
  rewrite lookup_app_l by lia. by apply Hk.
Qed.

(** One builder call on a value whose arrays are newer than [h0]. *)
Lemma call_keeps h0 h vals o name v o' h' :
  reachable h vals → o ∈ vals → keeps h0 h → arrays_after h0 h o →
  call o name v h = Ok (o', h') →
  keeps h0 h' ∧ arrays_after h0 h' o'.
Proof.
  intros Hr Ho Hk Harr Hcall. destruct (reachable_inv _ _ Hr) as [Hinv Hvals].
  pose proof (keeps_length _ _ Hk) as Hlen.
  assert (Hlt : o < length h) by apply (Hvals _ Ho).
  destruct (call_step _ _ _ _ _ _ Hinv (Hvals _ Ho) Hcall) as (-> & _ & Hle & _).
  destruct (call_shape _ _ _ _ _ _ Hcall) as (_ & p & m & Hcell & Hshape).
  assert (Hp : p < length h ∧ ∀ k a, k ∈ array_keys → m !! k = None →
                 get h p k = VRef a → length h0 ≤ a).
  { destruct Hshape as [[Hprot _]|(-> & _)]; [|by eauto].
    destruct (get_ok h o "prot" (inv_typed _ Hinv)) as [Hu|(_ & _ & Hpr & _)];
      [congruence|].
    rewrite Hprot in Hpr. specialize (Hpr eq_refl). injection Hpr as ->.
    split; [apply (prot_value_inv h Hinv)|].
    intros k a Hin _. rewrite prot_get by done.
    key_cases Hin; vm_compute; discriminate. }
  destruct Hp as [Hp Hparr].
  pose proof (λ k, get_child h h' p (length h) m k (inv_protos _ Hinv) Hle Hp
                     (le_n _) Hcell) as Hget.
  assert (Hnew : ∀ k, k ∈ array_keys → ∀ x, m !! k = Some x →
            x = VRef (S (length h)) ∨ ∃ t, x = VStr t).
  { intros k Hin x Hx.
    destruct Hshape as [[_ ->]|(-> & _ & Hm)].
    - apply lookup_insert_Some in Hx as [[<- <-]|[_ Hx]]; [eauto|].
      by rewrite lookup_empty in Hx.
    - revert Hcall Hcell Hx. clear. unfold call.
      assert (Hset : ∀ q k0 x0,
                (obj <- Object_create q ;; set_own obj k0 (VStr x0) ;;; ret obj)%js h
                = Ok (length h, h') →
                h' !! length h = Some (CObj (Some o) m) → m !! k = Some x →
                x = VRef (S (length h)) ∨ ∃ t, x = VStr t).
      { intros q k0 x0 (q' & _ & _ & ->)%create_set_inv.
        rewrite list_lookup_middle by done. intros [= <- <-].
        intros [[<- <-]|[_ Hx]]%lookup_insert_Some; [eauto|].
        by rewrite lookup_empty in Hx. }
      assert (Hpush : ∀ k0,
                push_or_create o k0 v h = Ok (length h, h') →
                h' !! length h = Some (CObj (Some o) m) → m !! k = Some x →
                x = VRef (S (length h)) ∨ ∃ t, x = VStr t).
      { intros k0 (_ & Hsh)%push_or_create_inv.
        destruct Hsh as [(a & xs & _ & Ha & ->)|[_ ->]].
        - rewrite list_lookup_insert_ne
            by (intros ->; by rewrite list_lookup_middle in Ha).
          rewrite list_lookup_middle by done. intros [= <-].
          by rewrite lookup_empty.
        - rewrite list_lookup_middle by done. intros [= <-].
          intros [[<- <-]|[_ Hx]]%lookup_insert_Some; [eauto|].
          by rewrite lookup_empty in Hx. }
      destruct (get h o name) as [|?|?|[]]; try discriminate.
      + unfold element. destruct (truthy _); [discriminate|].
        destruct (_ || _); [discriminate|]. apply Hset.
      + unfold id. destruct (truthy _); [discriminate|].
        destruct (_ || _); [discriminate|]. apply Hset.
      + unfold class. destruct (_ || _); [discriminate|]. apply Hpush.
      + unfold attr. destruct (_ || _); [discriminate|]. apply Hpush.
      + unfold pseudoClass. destruct (truthy _); [discriminate|]. apply Hpush.
      + unfold pseudoElement. destruct (truthy _); [discriminate|]. apply Hset. }
  split.
  - (* the cells of [h0] *)
    revert Hcall. clear Hcell Hget Hnew Hshape. unfold call.
    assert (Hset : ∀ q k0 x0,
              (obj <- Object_create q ;; set_own obj k0 x0 ;;; ret obj)%js h
              = Ok (length h, h') → keeps h0 h').
    { intros q k0 x0 (q' & _ & _ & ->)%create_set_inv. by apply keeps_app. }
    assert (Hpush : ∀ k0, k0 ∈ array_keys →
              push_or_create o k0 v h = Ok (length h, h') → keeps h0 h').
    { intros k0 Hin (_ & Hsh)%push_or_create_inv.
      destruct Hsh as [(a & xs & Hga & Ha & ->)|[_ ->]]; [|by apply keeps_app].
      rewrite (get_child h _ o (length h) ∅ k0 (inv_protos _ Hinv)
                 (heap_le_app _ _) Hlt (le_n _)) in Hga
        by (by apply list_lookup_middle).
      rewrite lookup_empty in Hga.
      pose proof (Harr _ _ Hin Hga) as Hge.
      intros l Hl. rewrite list_lookup_insert_ne by lia.
      by apply keeps_app. }
    destruct (get h o name) as [|?|?|[]]; try discriminate.
    + unfold element. destruct (truthy _); [discriminate|].
      destruct (_ || _); [discriminate|]. apply Hset.
    + unfold id. destruct (truthy _); [discriminate|].
      destruct (_ || _); [discriminate|]. apply Hset.
    + unfold class. destruct (_ || _); [discriminate|]. apply Hpush. key_in.
    + unfold attr. destruct (_ || _); [discriminate|]. apply Hpush. key_in.
    + unfold pseudoClass. destruct (truthy _); [discriminate|]. apply Hpush. key_in.
    + unfold pseudoElement. destruct (truthy _); [discriminate|]. apply Hset.
  - (* the arrays of the new value *)
    intros k a Hin. rewrite Hget.
    destruct (m !! k) as [x|] eqn:Hx.
    + destruct (Hnew k Hin x Hx) as [->|[t ->]]; [|discriminate].
      intros [= <-]. lia.
    + by apply Hparr.
Qed.

Lemma chain_keeps h0 calls : ∀ h vals o o' h',
  reachable h vals → o ∈ vals → keeps h0 h → arrays_after h0 h o →
  chain calls o h = Ok (o', h') → keeps h0 h'.
Proof.
  induction calls as [|[name v] calls IH]; intros h vals o o' h' Hr Ho Hk Ha Hrun.
  - by injection Hrun as <- <-.
  - simpl in Hrun. unfold bind in Hrun.
    destruct (call o name v h) as [[o1 h1]| |] eqn:Hcall; try discriminate.
    destruct (call_keeps _ _ _ _ _ _ _ _ Hr Ho Hk Ha Hcall) as [Hk1 Ha1].
    eapply (IH h1 (o1 :: vals) o1);
      [by eapply reachable_call|apply list_elem_of_here|done..].
Qed.

(** What an object of [h] reads and stringifies to in a larger heap that
    has the cells of [h] as they were. *)
Lemma keeps_reads h h' o :
  heap_inv h → heap_le h h' → keeps h h' → o < length h →
  fields_of h' o = fields_of h o ∧ call_stringify o h' = call_stringify o h.
Proof.
  intros Hinv Hle Hk Ho.
  assert (Hget : ∀ k, get h' o k = get h o k)
    by (intros k; apply get_le; [apply Hinv|done..]).
  assert (Hcell : ∀ k a, k ∈ array_keys → get h o k = VRef a → h' !! a = h !! a).
  { intros k a Hin Hga.
    destruct (get_ok h o k (inv_typed _ Hinv)) as [Hu|(_ & Harr & _)];
      [congruence|].
    destruct (Harr Hin) as [Hu|(a' & xs & Heq & Hc)]; [congruence|].
    rewrite Hga in Heq. injection Heq as <-.
    apply Hk. by eapply lookup_lt_Some. }
  assert (Hfield : ∀ k, k ∈ array_keys →
            array_field h' (get h o k) = array_field h (get h o k)).
  { intros k Hin. apply array_field_stable. intros a. by apply Hcell. }
  assert (Hne : ∀ k, k ∈ array_keys →
            nonempty_array h' (get h o k) = nonempty_array h (get h o k)).
  { intros k Hin. destruct (get h o k) as [| |a|] eqn:Hga; try done.
    simpl. by rewrite (Hcell k a Hin Hga). }
  split.
  - unfold fields_of. rewrite !Hget.
    by rewrite (Hfield "elClass"), (Hfield "elAttrs"), (Hfield "elPseudoClass")
      by key_in.
  - unfold call_stringify, stringify. rewrite !Hget.
    by rewrite (Hne "elClass"), (Hne "elAttrs"), (Hne "elPseudoClass") by key_in.
Qed.

(** X11.  A chain of builder calls that starts at the builder writes to
    nothing that was there: whatever the calls and however long the chain,
    every cell of the heap it started in is as it was, so every selector
    that the program had keeps its fields and its stringified form.  (The
    calls that change an existing selector are those made on a value that
    the program kept, not those of a new chain.) *)
Theorem new_chain_leaves_heap h vals calls o' h' :
  reachable h vals →
  chain calls cssSelectorBuilder h = Ok (o', h') →
  keeps h h'
  ∧ ∀ x, x ∈ vals →
      fields_of h' x = fields_of h x
      ∧ call_stringify x h' = call_stringify x h.
Proof.
  intros Hr Hrun. destruct (reachable_inv _ _ Hr) as [Hinv Hvals].
  pose proof (builder_reachable _ _ Hr) as Hb.
  assert (Hk : keeps h h').
  { eapply (chain_keeps h calls h vals cssSelectorBuilder); [done..| | |done].
    - by intros l _.
    - intros k a Hin. rewrite builder_get by done.
      key_cases Hin; vm_compute; discriminate. }
  split; [done|]. intros x Hx.
  destruct (chain_later calls h vals _ _ _ Hb Hrun) as (vals' & Hl & _).
  destruct (later_reachable _ _ _ _ Hr Hl) as (_ & Hle & _).
  apply keeps_reads; [done..|apply (Hvals _ Hx)].
Qed.

Lemma new_chain_leaves_heap_witness :
  ∃ r, chain [("class", "b"); ("class", "c")] cssSelectorBuilder
         (heap_after shared_calls) = Ok r
       ∧ fields_of (snd r) (value_after shared_calls)
         = fields_of (heap_after shared_calls) (value_after shared_calls)
       ∧ call_stringify (value_after shared_calls) (snd r)
         = call_stringify (value_after shared_calls) (heap_after shared_calls).
Proof.
  destruct (after_reachable shared_calls eq_refl) as (vals & Hr & Ho & _).
  destruct (is_ok_inv
              (chain [("class", "b"); ("class", "c")] cssSelectorBuilder
                 (heap_after shared_calls))
              ltac:(vm_compute; reflexivity)) as [[o' h'] Hrun].
  exists (o', h'). split; [exact Hrun|]. cbn [snd].
  exact (proj2 (new_chain_leaves_heap _ _ _ _ _ Hr Hrun) _ Ho).
Defined.

(** ** The builder as a function on fields *)

(** One call of a builder method on a simple selector value. *)
Lemma call_next_fields h vals o s name v :
  reachable h vals → o ∈ vals → fields_of h o = Some s →
  name ∈ builder_names →
  match next_fields name v s with
  | Ok s' => ∃ h', call o name v h = Ok (length h, h')
                   ∧ fields_of h' (length h) = Some s'
  | Throw e => call o name v h = Throw e
  | Outside => False
  end.
Proof.
  intros Hr Ho Hs Hname. unfold builder_names in Hname.
  destruct (push_guard_passed h vals o s v Hr Ho Hs) as (Hclass & Hattr & Hpc).
  destruct (reachable_inv _ _ Hr) as [Hinv Hvals].
  destruct (call_simple h o s v (Hvals _ Ho) Hs) as (_ & _ & Hc & Ha & Hp & _).
  rewrite !elem_of_cons, elem_of_nil in Hname.
  destruct Hname as [->|[->|[->|[->|[->|[->|[]]]]]]]; unfold next_fields; simpl.
  - rewrite (element_run h vals o s v Hr Ho Hs).
    destruct (filled (sel_element s)); [done|].
    destruct (later_than_element s) eqn:Hl; [done|].
    destruct (sel_element s) as [e|] eqn:He; [done|]. simpl.
    destruct (element_call h vals o s v Hr Ho Hs He Hl) as (h' & Hrun & Hs').
    rewrite (element_run h vals o s v Hr Ho Hs), He, Hl in Hrun. eauto.
  - rewrite (id_run h vals o s v Hr Ho Hs).
    destruct (filled (sel_id s)) eqn:Hf; [done|].
    destruct (later_than_id s) eqn:Hl; [done|].
    destruct (id_call h vals o s v Hr Ho Hs Hf Hl) as (h' & Hrun & Hs').
    rewrite (id_run h vals o s v Hr Ho Hs), Hf, Hl in Hrun. eauto.
  - destruct (later_than_class s) eqn:Hl.
    + rewrite Hc. unfold class.
      by rewrite (later_than_class_guard h o s Hs), Hl.
    + rewrite (Hclass eq_refl).
      destruct (push_call h vals o s "elClass" v Hr Ho Hs) as (h' & ? & ? & _);
        [key_in|eauto].
  - destruct (later_than_attr s) eqn:Hl.
    + rewrite Ha. unfold attr.
      by rewrite (later_than_attr_guard h o s Hs), Hl.
    + rewrite (Hattr eq_refl).
      destruct (push_call h vals o s "elAttrs" v Hr Ho Hs) as (h' & ? & ? & _);
        [key_in|eauto].
  - destruct (later_than_pseudoClass s) eqn:Hl.
    + rewrite Hp. unfold pseudoClass.
      destruct (guards_of_fields h o s Hs) as (_ & _ & _ & _ & _ & ->).
      unfold later_than_pseudoClass in Hl. by rewrite Hl.
    + rewrite (Hpc eq_refl).
      destruct (push_call h vals o s "elPseudoClass" v Hr Ho Hs)
        as (h' & ? & ? & _); [key_in|eauto].
  - rewrite (pseudoElement_run h vals o s v Hr Ho Hs).
    destruct (filled (sel_pseudoElement s)) eqn:Hf; [done|].
    destruct (pseudoElement_call h vals o s v Hr Ho Hs Hf) as (h' & Hrun & Hs').
    rewrite (pseudoElement_run h vals o s v Hr Ho Hs), Hf in Hrun. eauto.
Qed.

(** A chain of calls on a simple selector value. *)
Lemma chain_run_fields calls : ∀ h vals o s,
  reachable h vals → o ∈ vals → fields_of h o = Some s →
  Forall (fun c => fst c ∈ builder_names) calls →
  match run_fields calls s with
  | Ok s' => ∃ o' h', chain calls o h = Ok (o', h') ∧ built h' o' s'
  | Throw e => chain calls o h = Throw e
  | Outside => False
  end.
Proof.
  induction calls as [|[name v] calls IH]; intros h vals o s Hr Ho Hs Hnames.
  - simpl. exists o, h. split; [done|]. by exists vals.
  - apply Forall_cons in Hnames as [Hname Hnames]. simpl in Hname.
    pose proof (call_next_fields h vals o s name v Hr Ho Hs Hname) as Hstep.
    simpl. unfold bind.
    destruct (next_fields name v s) as [s'|e|]; [|by rewrite Hstep|done].
    destruct Hstep as (h' & Hcall & Hs'). rewrite Hcall. simpl.
    apply (IH h' (length h :: vals) (length h) s');
      [by eapply reachable_call|apply list_elem_of_here|done..].
Qed.

Lemma chain_outcome_run_fields calls h vals o s :
  reachable h vals → o ∈ vals → fields_of h o = Some s →
  Forall (fun c => fst c ∈ builder_names) calls →
  chain_outcome calls o h = run_fields calls s.
Proof.
  intros Hr Ho Hs Hnames.
  pose proof (chain_run_fields calls h vals o s Hr Ho Hs Hnames) as Hrun.
  unfold chain_outcome.
  destruct (run_fields calls s) as [s'|e|]; [|by rewrite Hrun|done].
  destruct Hrun as (o' & h' & -> & _ & _ & _ & ->). done.
Qed.

(** X12.  What a chain of builder calls returns depends on the fields of
    the value it starts from and on nothing else in the heap: on every
    simple selector value of every reachable heap, the chain fails with the
    exception, or returns a selector with the fields, that the function
    [run_fields] computes from the fields of that value.  So a chain on
    the builder gives the same result whatever the program did before. *)
Theorem chain_depends_on_fields calls :
  Forall (fun c => fst c ∈ builder_names) calls →
  (∀ h vals o s,
     reachable h vals → o ∈ vals → fields_of h o = Some s →
     chain_outcome calls o h = run_fields calls s)
  ∧ (∀ h vals g gvals,
       reachable h vals → reachable g gvals →
       chain_outcome calls cssSelectorBuilder h
       = chain_outcome calls cssSelectorBuilder g).
Proof.
  intros Hnames. split.
  - intros h vals o s Hr Ho Hs. by eapply chain_outcome_run_fields.
  - intros h vals g gvals Hh Hg.
    rewrite (chain_outcome_run_fields calls h vals _ empty_selector),
      (chain_outcome_run_fields calls g gvals _ empty_selector);
      [done|done|by eapply builder_reachable| |done|done
      |by eapply builder_reachable| |done];
      apply builder_fields; by eapply reachable_inv.
Qed.

Lemma chain_depends_on_fields_witness :
  chain_outcome [("class", "y"); ("id", "z")] cssSelectorBuilder
    (heap_after sample_calls)
  = Throw OrderError
  ∧ chain_outcome [("class", "y"); ("pseudoElement", "after")]
      (value_after sample_calls) (heap_after sample_calls)
    = Ok (with_string "elPseudoElement" "after"
            (pushed "elClass" "y" sample_fields))
  ∧ chain_outcome [("class", "y"); ("pseudoElement", "after")]
      cssSelectorBuilder (heap_after sample_calls)
    = chain_outcome [("class", "y"); ("pseudoElement", "after")]
        cssSelectorBuilder initial_heap.
Proof.
  assert (Hs : fields_of (heap_after sample_calls) (value_after sample_calls)
               = Some sample_fields) by (vm_compute; reflexivity).
  destruct (after_reachable sample_calls eq_refl) as (vals & Hr & Ho & Hb).
  split; [|split].
  - rewrite (proj1 (chain_depends_on_fields [("class", "y"); ("id", "z")]
                      ltac:(repeat constructor; key_in))
               _ _ _ empty_selector Hr Hb).
    + reflexivity.
    + apply builder_fields. by apply reachable_inv in Hr as [? _].
  - rewrite (proj1 (chain_depends_on_fields
                      [("class", "y"); ("pseudoElement", "after")]
                      ltac:(repeat constructor; key_in))
               _ _ _ _ Hr Ho Hs).
    reflexivity.
  - exact (proj2 (chain_depends_on_fields
                    [("class", "y"); ("pseudoElement", "after")]
                    ltac:(repeat constructor; key_in))
             _ _ _ _ Hr reachable_load).
Defined.

(** ** [fromJSON] on texts that are not objects *)

Lemma pretty_N_go_ne_underscore x s s' :
  s ≠ "_" +:+ s' → pretty_N_go x s ≠ "_" +:+ s'.
Proof.
  revert s. induction (N.lt_wf_0 x) as [x _ IH]; intros s Hs.
  assert (x = 0 ∨ 0 < x)%N as [->|Hpos] by lia.
  - by rewrite pretty_N_go_0.
  - rewrite pretty_N_go_step by done. apply IH.
    { by apply N.div_lt. }
    unfold pretty_N_char. by repeat case_match.
Qed.

Lemma index_not_proto (i : nat) : pretty i ≠ "__proto__".
Proof.
  unfold pretty, pretty_nat, pretty, pretty_N.
  case_decide; [discriminate|].
  by apply (pretty_N_go_ne_underscore _ "" "_proto__").
Qed.

Lemma elem_of_indices n k : k ∈ Json.indices n ↔ ∃ i, i < n ∧ k = pretty i.
Proof.
  unfold Json.indices. rewrite list_elem_of_fmap. split.
  - intros (i & -> & Hi%elem_of_seq). exists i. split; [lia|done].
  - intros (i & Hi & ->). exists i. split; [done|]. apply elem_of_seq. lia.
Qed.

Lemma indices_not_proto n : "__proto__" ∉ Json.indices n.
Proof.
  intros (i & _ & Hi)%elem_of_indices. by destruct (index_not_proto i).
Qed.

Lemma index_of_pretty n i : i < n → Json.index_of n (pretty i) = Some i.
Proof.
  intros Hi. unfold Json.index_of.
  assert (Hfind : list_find (λ j : nat, pretty j = pretty i) (seq 0 n)
                  = Some (i, i)).
  { apply list_find_Some. split; [by apply lookup_seq|]. split; [done|].
    intros j y Hj Hlt Heq. apply lookup_seq in Hj as [-> _].
    apply (inj pretty) in Heq. simpl in Hlt. lia. }
  by rewrite Hfind.
Qed.

(** X13.  [fromJSON] takes JSON texts that are not the text of an object.
    On a number or a boolean it returns an object with no property of its
    own.  On an array it returns an object that has the items under their
    indices ['0'], ['1'], ... and no other own property, provided that
    [proto] lets these names be assigned (it has no read-only property and
    no accessor under an index, as is the case of every prototype that
    holds methods only).  In each case the object inherits from [proto]. *)
Theorem fromJSON_non_objects (JSON_parse : string → option Json.json)
    (proto : gmap string Json.property) (text : string) :
  (∀ v, JSON_parse text = Some v →
     (∃ x, v = Json.JNum x) ∨ (∃ b, v = Json.JBool b) →
     Json.fromJSON JSON_parse proto text = Ok (Json.Object_create proto))
  ∧ (∀ items, JSON_parse text = Some (Json.JArr items) →
       (∀ i, i < length items → Json.settable proto (pretty i) = true) →
       ∃ o, Json.fromJSON JSON_parse proto text = Ok o
            ∧ Json.inherited o = proto
            ∧ (∀ i x, items !! i = Some x →
                 Json.own o !! pretty i = Some (Json.PJson x))
            ∧ (∀ k, k ∉ Json.indices (length items) → Json.own o !! k = None)).
Proof.
  split.
  - intros v Hv [[x ->]|[b ->]]; unfold Json.fromJSON; by rewrite Hv.
  - intros items Hv Hset. unfold Json.fromJSON. rewrite Hv. simpl.
    destruct (copy_keys_spec (Json.JArr items) (Json.indices (length items))
                (Json.Object_create proto) (indices_not_proto _))
      as (o & Hrun & Hinh & Hown).
    { intros k (i & Hi & ->)%elem_of_indices Hacc. simpl in Hacc.
      specialize (Hset i Hi). unfold Json.settable in Hset.
      by rewrite Hacc in Hset. }
    { simpl. intros k [x Hx]. by rewrite lookup_empty in Hx. }
    simpl in Hinh, Hown.
    exists o. split; [done|]. split; [done|]. split.
    + intros i x Hi. pose proof (lookup_lt_Some _ _ _ Hi) as Hlt.
      rewrite Hown, decide_True
        by (split; [apply elem_of_indices; eauto|by apply Hset]).
      unfold Json.get_member. rewrite index_of_pretty by done. simpl.
      by rewrite Hi.
    + intros k Hk. rewrite Hown, decide_False by (by intros [? _]).
      apply lookup_empty.
Qed.

Lemma fromJSON_non_objects_witness :
  array_parse "7" = Some (Json.JNum 7)
  ∧ Json.fromJSON array_parse Json.circle_proto "7"
    = Ok (Json.Object_create Json.circle_proto)
  ∧ array_parse "[10,20]" = Some (Json.JArr [Json.JNum 10; Json.JNum 20])
  ∧ ∃ o, Json.fromJSON array_parse Json.circle_proto "[10,20]" = Ok o
         ∧ Json.own o !! "1" = Some (Json.PJson (Json.JNum 20))
         ∧ Json.own o !! "length" = None.
Proof.
  split; [reflexivity|].
  split; [exact (proj1 (fromJSON_non_objects array_parse Json.circle_proto "7")
                   _ eq_refl (or_introl (ex_intro _ _ eq_refl)))|].
  split; [reflexivity|].
  destruct (proj2 (fromJSON_non_objects array_parse Json.circle_proto "[10,20]")
              _ eq_refl)
    as (o & Hrun & _ & Hitems & Hnone).
  { intros [|[|i]] Hi; [reflexivity|reflexivity|simpl in Hi; lia]. }
  exists o. split; [exact Hrun|]. split.
  - exact (Hitems 1 (Json.JNum 20) eq_refl).
  - apply Hnone. intros (i & Hi & Heq)%elem_of_indices. simpl in Hi.
    destruct i as [|[|i]]; [discriminate..|lia].
Defined.

(** ** What a call adds to the stringified form *)

Lemma concat_snoc (xs : list string) (x : string) :
  String.concat "" (xs ++ [x]) = String.concat "" xs +:+ x.
Proof.
  induction xs as [|y xs IH]; [reflexivity|].
  change (String.concat "" (y :: xs ++ [x]) = String.concat "" (y :: xs) +:+ x).
  destruct xs as [|z xs].
  - simpl. reflexivity.
  - change (y +:+ "" +:+ String.concat "" ((z :: xs) ++ [x])
            = (y +:+ "" +:+ String.concat "" (z :: xs)) +:+ x).
    rewrite IH. by rewrite !append_assoc.
Qed.

Lemma each_prefixed_snoc prefix field v :
  each_prefixed prefix (append_field field v)
  = each_prefixed prefix field +:+ (prefix +:+ v).
Proof.
  unfold append_field, each_prefixed. rewrite map_app.
  change (map (λ s, prefix +:+ s) [v]) with [prefix +:+ v].
  rewrite concat_snoc. by destruct field.
Qed.

Lemma unfilled_nonempty field : filled field = false → nonempty field = None.
Proof. unfold nonempty. by intros ->. Qed.

Lemma is_set_false {A} (field : option A) : is_set field = false → field = None.
Proof. by destruct field. Qed.

Lemma prefixed_new prefix v :
  prefixed prefix (nonempty (Some v))
  = if decide (v = "") then "" else prefix +:+ v.
Proof. by destruct v. Qed.

Lemma next_fields_stringify name v s s' :
  next_fields name v s = Ok s' →
  stringify_fields s' = stringify_fields s +:+ segment name v s.
Proof.
  unfold next_fields, segment.
  destruct (decide (name = "element")) as [_|_].
  { destruct (filled (sel_element s)) eqn:He; [done|].
    destruct (later_than_element s) eqn:Hl; [done|].
    destruct (is_set (sel_element s)) eqn:Hs; [done|].
    intros [= <-]. unfold later_than_element in Hl.
    repeat (apply orb_false_elim in Hl as [Hl ?]).
    change (with_string "el" v empty_selector)
      with (Build_selector (Some v) None None None None None).
    unfold stringify_fields. fields_cbn.
    rewrite (is_set_false _ Hs), (unfilled_nonempty (sel_id s)),
      (is_set_false (sel_classes s)), (is_set_false (sel_attributes s)),
      (is_set_false (sel_pseudoClasses s)),
      (unfilled_nonempty (sel_pseudoElement s)) by done.
    rewrite prefixed_new. destruct v; [done|].
    simpl. by rewrite append_empty_r. }
  destruct (decide (name = "id")) as [_|_].
  { destruct (filled (sel_id s)) eqn:Hi; [done|].
    destruct (later_than_id s) eqn:Hl; [done|].
    intros [= <-]. unfold later_than_id in Hl.
    repeat (apply orb_false_elim in Hl as [Hl ?]).
    change (with_string "elID" v s)
      with (Build_selector (sel_element s) (Some v) (sel_classes s)
              (sel_attributes s) (sel_pseudoClasses s) (sel_pseudoElement s)).
    unfold stringify_fields. fields_cbn.
    rewrite (unfilled_nonempty (sel_id s)),
      (is_set_false (sel_classes s)), (is_set_false (sel_attributes s)),
      (is_set_false (sel_pseudoClasses s)),
      (unfilled_nonempty (sel_pseudoElement s)) by done.
    rewrite prefixed_new. cbn [prefixed each_prefixed first_bracketed].
    by rewrite !append_empty_r. }
  destruct (decide (name = "class")) as [_|_].
  { destruct (later_than_class s) eqn:Hl; [done|].
    intros [= <-]. unfold later_than_class in Hl.
    repeat (apply orb_false_elim in Hl as [Hl ?]).
    change (pushed "elClass" v s)
      with (Build_selector (sel_element s) (sel_id s)
              (append_field (sel_classes s) v)
              (sel_attributes s) (sel_pseudoClasses s) (sel_pseudoElement s)).
    unfold stringify_fields. fields_cbn.
    rewrite (is_set_false (sel_attributes s)),
      (is_set_false (sel_pseudoClasses s)),
      (unfilled_nonempty (sel_pseudoElement s)) by done.
    rewrite each_prefixed_snoc. cbn [prefixed each_prefixed first_bracketed].
    by rewrite !append_empty_r, !append_assoc. }
  destruct (decide (name = "attr")) as [_|_].
  { destruct (later_than_attr s) eqn:Hl; [done|].
    intros [= <-]. unfold later_than_attr in Hl.
    repeat (apply orb_false_elim in Hl as [Hl ?]).
    change (pushed "elAttrs" v s)
      with (Build_selector (sel_element s) (sel_id s) (sel_classes s)
              (append_field (sel_attributes s) v)
              (sel_pseudoClasses s) (sel_pseudoElement s)).
    unfold stringify_fields. fields_cbn.
    rewrite (is_set_false (sel_pseudoClasses s)),
      (unfilled_nonempty (sel_pseudoElement s)) by done.
    cbn [prefixed each_prefixed].
    destruct (sel_attributes s) as [[|x xs]|]; simpl;
      by rewrite !append_empty_r, ?append_assoc. }
  destruct (decide (name = "pseudoClass")) as [_|_].
  { destruct (later_than_pseudoClass s) eqn:Hl; [done|].
    intros [= <-]. unfold later_than_pseudoClass in Hl.
    change (pushed "elPseudoClass" v s)
      with (Build_selector (sel_element s) (sel_id s) (sel_classes s)
              (sel_attributes s) (append_field (sel_pseudoClasses s) v)
              (sel_pseudoElement s)).
    unfold stringify_fields. fields_cbn.
    rewrite (unfilled_nonempty (sel_pseudoElement s)) by done.
    rewrite each_prefixed_snoc. cbn [prefixed].
    by rewrite !append_empty_r, !append_assoc. }
  destruct (decide (name = "pseudoElement")) as [_|_]; [|done].
  destruct (filled (sel_pseudoElement s)) eqn:Hpe; [done|].
  intros [= <-].
  change (with_string "elPseudoElement" v s)
    with (Build_selector (sel_element s) (sel_id s) (sel_classes s)
            (sel_attributes s) (sel_pseudoClasses s) (Some v)).
  unfold stringify_fields. fields_cbn.
  rewrite (unfilled_nonempty (sel_pseudoElement s)) by done.
  rewrite prefixed_new. cbn [prefixed].
  by rewrite !append_empty_r, !append_assoc.
Qed.

(** X14.  The order that the guards enforce makes the stringified form grow
    at its end: when a builder call on a simple selector value succeeds, the
    value it returns stringifies to what the receiver stringified to before
    the call, followed by the piece for the call: the element itself,
    ['#'] and the id, ['.'] and the class, the attribute in brackets if it
    is the first one, [':'] and the pseudo-class, ['::'] and the
    pseudo-element; nothing for an empty id or pseudo-element, nor for a
    second attribute. *)
Theorem call_appends_segment h vals o s name v o' h' :
  reachable h vals → o ∈ vals → fields_of h o = Some s →
  name ∈ builder_names → call o name v h = Ok (o', h') →
  call_stringify o h = Ok (stringify_fields s)
  ∧ call_stringify o' h' = Ok (stringify_fields s +:+ segment name v s).
Proof.
  intros Hr Ho Hs Hname Hcall. destruct (reachable_inv _ _ Hr) as [Hinv Hvals].
  split.
  { rewrite call_stringify_value by auto. by apply stringify_fields_correct. }
  pose proof (call_next_fields h vals o s name v Hr Ho Hs Hname) as Hstep.
  destruct (next_fields name v s) as [s'|e|] eqn:Hnext;
    [|by rewrite Hstep in Hcall|done].
  destruct Hstep as (h'' & Hrun & Hs'). rewrite Hcall in Hrun.
  injection Hrun as -> <-.
  pose proof (reachable_call _ _ _ _ _ _ _ Hr Ho Hcall) as Hr'.
  destruct (reachable_inv _ _ Hr') as [Hinv' Hvals'].
  rewrite call_stringify_value by (apply Hvals', list_elem_of_here).
  rewrite (stringify_fields_correct _ _ _ Hs').
  by rewrite (next_fields_stringify _ _ _ _ Hnext).
Qed.

Lemma call_appends_segment_witness :
  call_stringify (value_after sample_calls) (heap_after sample_calls)
  = Ok "div#main.container"
  ∧ ∃ r, call (value_after sample_calls) "pseudoClass" "hover"
           (heap_after sample_calls) = Ok r
         ∧ call_stringify (fst r) (snd r) = Ok "div#main.container:hover".
Proof.
  assert (Hs : fields_of (heap_after sample_calls) (value_after sample_calls)
               = Some sample_fields) by (vm_compute; reflexivity).
  destruct (after_reachable sample_calls eq_refl) as (vals & Hr & Ho & _).
  destruct (is_ok_inv
              (call (value_after sample_calls) "pseudoClass" "hover"
                 (heap_after sample_calls))
              ltac:(vm_compute; reflexivity)) as [[o' h'] Hcall].
  pose proof (call_appends_segment _ _ _ _ "pseudoClass" "hover" o' h' Hr Ho Hs
                ltac:(key_in) Hcall) as [Hbefore Hafter].
  split; [exact Hbefore|]. exists (o', h'). split; [exact Hcall|exact Hafter].
Defined.

(** ** The chains that the builder accepts *)

Lemma next_fields_level name v s :
  name ∈ builder_names → v ≠ "" → no_empty_string s →
  if may_follow (level_of s) (rank name)
  then ∃ s', next_fields name v s = Ok s'
             ∧ no_empty_string s' ∧ level_of s' = rank name
  else next_fields name v s = Throw DuplicateError
       ∨ next_fields name v s = Throw OrderError.
Proof.
  intros Hname Hv (He & Hi & Hpe). destruct v as [|c v]; [done|].
  destruct s as [e i cs ats pcs pe]. simpl in He, Hi, Hpe.
  unfold builder_names in Hname. rewrite !elem_of_cons, elem_of_nil in Hname.
  destruct e as [[|? ?]|]; try discriminate He;
    destruct i as [[|? ?]|]; try discriminate Hi;
    destruct pe as [[|? ?]|]; try discriminate Hpe;
    destruct cs as [?|], ats as [?|], pcs as [?|];
    destruct Hname as [->|[->|[->|[->|[->|[->|[]]]]]]];
    vm_compute; first [ by left | by right
                      | eexists; split; [reflexivity|]; by repeat split ].
Qed.

Lemma run_fields_in_order calls : ∀ s,
  Forall (fun c => fst c ∈ builder_names) calls →
  Forall (fun c => snd c ≠ "") calls →
  no_empty_string s →
  is_ok (run_fields calls s) = in_order (level_of s) calls
  ∧ (in_order (level_of s) calls = false →
     run_fields calls s = Throw DuplicateError
     ∨ run_fields calls s = Throw OrderError).
Proof.
  induction calls as [|[name v] calls IH]; intros s Hnames Hvalues Hs;
    [by split|].
  apply Forall_cons in Hnames as [Hname Hnames].
  apply Forall_cons in Hvalues as [Hv Hvalues]. simpl in Hname, Hv.
  pose proof (next_fields_level name v s Hname Hv Hs) as Hstep.
  simpl. destruct (may_follow (level_of s) (rank name)).
  - destruct Hstep as (s' & -> & Hs' & Hlevel). simpl.
    rewrite <- Hlevel. by apply IH.
  - simpl. destruct Hstep as [-> | ->]; simpl; auto.
Qed.

(** X15.  With values that are not empty, the builder accepts exactly the
    chains that keep to the order element, id, classes, attributes,
    pseudo-classes, pseudo-element, with at most one element, one id and
    one pseudo-element: such a chain on the builder succeeds in every
    reachable heap, and every other chain of builder calls fails, with a
    DuplicateError or an OrderError. *)
Theorem ordered_chains_accepted h vals calls :
  reachable h vals →
  Forall (fun c => fst c ∈ builder_names) calls →
  Forall (fun c => snd c ≠ "") calls →
  is_ok (chain calls cssSelectorBuilder h) = in_order 0 calls
  ∧ (in_order 0 calls = false →
     chain calls cssSelectorBuilder h = Throw DuplicateError
     ∨ chain calls cssSelectorBuilder h = Throw OrderError).
Proof.
  intros Hr Hnames Hvalues. destruct (reachable_inv _ _ Hr) as [Hinv _].
  pose proof (chain_run_fields calls h vals cssSelectorBuilder empty_selector Hr
                (builder_reachable _ _ Hr) (builder_fields h Hinv) Hnames)
    as Hrun.
  destruct (run_fields_in_order calls empty_selector Hnames Hvalues)
    as [Hok Herr]; [by repeat split|].
  change (level_of empty_selector) with 0 in Hok, Herr.
  destruct (run_fields calls empty_selector) as [s'|e|]; [| |done].
  - destruct Hrun as (o' & h' & -> & _). split; [done|].
    intros Hno. rewrite Hno in Hok. discriminate Hok.
  - rewrite Hrun. split; [done|]. intros Hno.
    by destruct (Herr Hno) as [[= ->]|[= ->]]; [left|right].
Qed.

Lemma ordered_chains_accepted_witness :
  is_ok (chain [("element", "a"); ("class", "b"); ("class", "c");
                ("pseudoElement", "after")]
           cssSelectorBuilder (heap_after sample_calls))
  = true
  ∧ chain [("id", "x"); ("class", "b"); ("id", "y")]
      cssSelectorBuilder (heap_after sample_calls)
    = Throw DuplicateError.
Proof.
  destruct (after_reachable sample_calls eq_refl) as (vals & Hr & _).
  split.
  - exact (proj1 (ordered_chains_accepted _ _
                    [("element", "a"); ("class", "b"); ("class", "c");
                     ("pseudoElement", "after")] Hr
                    ltac:(repeat constructor; key_in)
                    ltac:(repeat constructor; discriminate))).
  - destruct (proj2 (ordered_chains_accepted _ _
                       [("id", "x"); ("class", "b"); ("id", "y")] Hr
                       ltac:(repeat constructor; key_in)
                       ltac:(repeat constructor; discriminate)) eq_refl)
      as [Hd|Ho]; [exact Hd|].
    exfalso.
    assert (Hrun : chain_outcome [("id", "x"); ("class", "b"); ("id", "y")]
                     cssSelectorBuilder (heap_after sample_calls)
                   = Throw DuplicateError).
    { rewrite (chain_outcome_run_fields _ _ vals _ empty_selector Hr);
        [reflexivity|by eapply builder_reachable
        |apply builder_fields; by eapply reachable_inv
        |repeat constructor; key_in]. }
    unfold chain_outcome in Hrun. rewrite Ho in Hrun. discriminate Hrun.
Defined.

(** ** Two calls on the same value *)

Lemma sequence_set h o s k :
  fields_of h o = Some s → k ∈ array_keys →
  (get h o k ≠ VUndef ↔ is_set (sequence k s) = true).
Proof.
  intros (_ & _ & _ & Hc & Ha & Hp & _)%fields_of_Some Hk.
  key_cases Hk; unfold sequence; simpl.
  - rewrite <- (array_field_truthy _ _ _ Hc).
    destruct (get h o "elClass") as [|[|]| |]; simpl in *;
      try discriminate; by split.
  - rewrite <- (array_field_truthy _ _ _ Ha).
    destruct (get h o "elAttrs") as [|[|]| |]; simpl in *;
      try discriminate; by split.
  - rewrite <- (array_field_truthy _ _ _ Hp).
    destruct (get h o "elPseudoClass") as [|[|]| |]; simpl in *;
      try discriminate; by split.
Qed.

(** The value made by a push reads the sequence where the receiver read it,
    when the receiver had one. *)
Lemma push_or_create_inherits h o k v o' h' a :
  heap_inv h → o < length h → k ∈ array_keys →
  push_or_create o k v h = Ok (o', h') → get h o k = VRef a →
  get h' o' k = VRef a.
Proof.
  intros Hinv Ho Hk Hrun Hget.
  assert (Hcur : get (h ++ [CObj (Some o) ∅]) (length h) k = get h o k).
  { rewrite (get_child h _ o (length h) ∅ k (inv_protos _ Hinv)
               (heap_le_app _ _) Ho (le_n _)) by (by apply list_lookup_middle).
    by rewrite lookup_empty. }
  apply push_or_create_inv in Hrun as (-> & Hshape).
  destruct Hshape as [(b & xs & _ & Hb & ->)|[Hfalse _]].
  - assert (Hcell : (<[b := CArr (xs ++ [v])]> (h ++ [CObj (Some o) ∅]))
                      !! length h = Some (CObj (Some o) ∅)).
    { rewrite list_lookup_insert_ne; [by apply list_lookup_middle|].
      intros ->. rewrite list_lookup_middle in Hb by done. discriminate. }
    rewrite (get_child h _ o (length h) ∅ k (inv_protos _ Hinv)) by
      (first [ done
             | eapply heap_le_trans; [apply heap_le_app|by eapply heap_le_push] ]).
    by rewrite lookup_empty.
  - rewrite Hcur, Hget in Hfalse. discriminate.
Qed.

Lemma push_method_call h vals o s name k v o' h' :
  reachable h vals → o ∈ vals → fields_of h o = Some s →
  (name, k) ∈ push_methods → call o name v h = Ok (o', h') →
  k ∈ array_keys ∧ push_or_create o k v h = Ok (o', h').
Proof.
  intros [Hinv Hvals]%reachable_inv Ho Hs Hname Hcall.
  destruct (call_simple h o s v (Hvals _ Ho) Hs) as (_ & _ & Hc & Ha & Hp & _).
  unfold push_methods in Hname. rewrite !elem_of_cons, elem_of_nil in Hname.
  destruct Hname as [[= -> ->]|[[= -> ->]|[[= -> ->]|[]]]];
    (split; [key_in|]).
  - rewrite Hc in Hcall. unfold class in Hcall.
    by destruct (_ || _).
  - rewrite Ha in Hcall. unfold attr in Hcall.
    by destruct (_ || _).
  - rewrite Hp in Hcall. unfold pseudoClass in Hcall.
    by destruct (truthy _).
Qed.

(** X16.  Two selectors made from the same value by the same one of
    [class], [attr], [pseudoClass]: [const x = o.class(b); const y =
    o.class(c)].  If [o] had that sequence already, [x] and [y] read it
    from the array of [o], and both end up with [b] and [c] added, in this
    order.  If [o] had no such sequence, each call made an array of its own:
    [x] has [b] only and [y] has [c] only. *)
Theorem siblings_share_sequence h vals o s name k b c x h1 y h2 :
  reachable h vals → o ∈ vals → fields_of h o = Some s →
  (name, k) ∈ push_methods →
  call o name b h = Ok (x, h1) → call o name c h1 = Ok (y, h2) →
  fields_of h2 x
  = Some (if is_set (sequence k s) then pushed k c (pushed k b s)
          else pushed k b s)
  ∧ fields_of h2 y
    = Some (if is_set (sequence k s) then pushed k c (pushed k b s)
            else pushed k c s).
Proof.
  intros Hr Ho Hs Hname Hcall1 Hcall2.
  destruct (reachable_inv _ _ Hr) as [Hinv Hvals].
  assert (Hlt : o < length h) by apply (Hvals _ Ho).
  destruct (push_method_call _ _ _ _ _ _ _ _ _ Hr Ho Hs Hname Hcall1)
    as [Hk Hrun1].
  destruct (push_call h vals o s k b Hr Ho Hs Hk)
    as (h1' & Hrun1' & Hx & _ & _ & Ho1).
  rewrite Hrun1 in Hrun1'. injection Hrun1' as -> <-.
  pose proof (sequence_set h o s k Hs Hk) as Hset.
  assert (Ho1' : fields_of h1 o
                 = Some (if is_set (sequence k s) then pushed k b s else s)).
  { rewrite Ho1. f_equal.
    destruct (decide (get h o k ≠ VUndef)) as [Hne|Hu].
    - by rewrite (proj1 Hset Hne).
    - destruct (is_set (sequence k s)); [|done].
      destruct Hu. by apply Hset. }
  clear Ho1.
  pose proof (reachable_call _ _ _ _ _ _ _ Hr Ho Hcall1) as Hr1.
  destruct (reachable_inv _ _ Hr1) as [Hinv1 Hvals1].
  assert (Ho' : o ∈ length h :: vals) by (by apply list_elem_of_further).
  destruct (push_method_call _ _ _ _ _ _ _ _ _ Hr1 Ho' Ho1' Hname Hcall2)
    as [_ Hrun2].
  destruct (push_call h1 _ o _ k c Hr1 Ho' Ho1' Hk)
    as (h2' & Hrun2' & Hy & _).
  rewrite Hrun2 in Hrun2'. injection Hrun2' as -> <-.
  assert (Hxlt : length h < length h1) by apply (Hvals1 _ (list_elem_of_here _ _)).
  assert (Holt : o < length h1) by apply (Hvals1 _ Ho').
  pose proof (push_or_create_others h1 o k c _ h2 _ (length h) _
                Hinv1 Holt Hxlt Ho1' Hx Hk Hrun2) as Hx2.
  destruct (call_step _ _ _ _ _ _ Hinv (Hvals _ Ho) Hcall1) as (_ & _ & Hle & _).
  assert (Hget1 : get h1 o k = get h o k)
    by (apply get_le; [apply Hinv|done..]).
  rewrite Hx2, Hy. clear Hx2 Hy.
  destruct (is_set (sequence k s)) eqn:Hseq.
  - assert (Hne : get h o k ≠ VUndef) by (by apply Hset).
    destruct (get_ok h o k (inv_typed _ Hinv)) as [Hu|(_ & Harr & _)]; [done|].
    destruct (Harr Hk) as [Hu|(a & xs & Ha & _)]; [done|].
    pose proof (push_or_create_inherits h o k b _ _ a Hinv Hlt Hk Hrun1 Ha) as Hxa.
    rewrite decide_True by (rewrite Hxa, Hget1, Ha; done). done.
  - assert (Hu : get h o k = VUndef).
    { destruct (decide (get h o k = VUndef)) as [|Hne]; [done|].
      apply Hset in Hne. discriminate. }
    rewrite decide_False by (rewrite Hget1, Hu; by intros [_ ?]). done.
Qed.

Lemma siblings_share_sequence_witness :
  fields_of (heap_after sample_calls) (value_after sample_calls)
  = Some sample_fields
  ∧ ∃ r1 r2,
      call (value_after sample_calls) "class" "wide" (heap_after sample_calls)
      = Ok r1
      ∧ call (value_after sample_calls) "class" "dark" (snd r1) = Ok r2
      ∧ fields_of (snd r2) (fst r1)
        = Some (pushed "elClass" "dark" (pushed "elClass" "wide" sample_fields))
      ∧ fields_of (snd r2) (fst r2)
        = Some (pushed "elClass" "dark" (pushed "elClass" "wide" sample_fields)).
Proof.
  assert (Hs : fields_of (heap_after sample_calls) (value_after sample_calls)
               = Some sample_fields) by (vm_compute; reflexivity).
  destruct (after_reachable sample_calls eq_refl) as (vals & Hr & Ho & _).
  pose proof (run_inv (call (value_after sample_calls) "class" "wide")
                (heap_after sample_calls) ltac:(vm_compute; reflexivity))
    as Hcall1.
  pose proof (run_inv (call (value_after sample_calls) "class" "dark")
                (heap_of (call (value_after sample_calls) "class" "wide")
                   (heap_after sample_calls))
                ltac:(vm_compute; reflexivity)) as Hcall2.
  split; [exact Hs|].
  eexists (_, _), (_, _). split; [exact Hcall1|]. cbn [fst snd].
  split; [exact Hcall2|].
  exact (siblings_share_sequence _ _ _ _ "class" "elClass" "wide" "dark" _ _ _ _
           Hr Ho Hs (list_elem_of_here _ _) Hcall1 Hcall2).
Defined.
